(** * BusTub storage substrate: LRU replacer, buffer pool manager and
      B+Tree pages, embedded from the C++ sources.

    - [LRU]      : src/buffer/lru_replacer.cpp
    - [BPM]      : src/buffer/buffer_pool_manager.cpp
    - [Leaf]     : src/storage/page/b_plus_tree_leaf_page.cpp
    - [Internal] : src/storage/page/b_plus_tree_internal_page.cpp

    Conventions.  C++ [int] values (sizes, slot indices, pin counts, page
    ids) are integers of [Z].  The arithmetic on sizes and slot indices
    stays far inside the 32-bit range for a 4096-byte page.  A pin count
    has no such bound: [FetchPage] of a cached page increments it, and
    signed overflow is undefined in C++, so no wrap-around is written and
    a statement about the value of an incremented pin count is made for
    pin counts below [INT_MAX].  A frame id
    is an index into the frame array and is a [nat].  An access outside an
    array (undefined behaviour in C++) makes the embedded operation return
    [None]; every other result is [Some _].  The mutexes of the sources are
    not modelled: each operation is one atomic step. *)

From stdpp Require Import base option list sorting gmap.
From Stdlib Require Import ZArith Lia.

Abbreviation frame_id_t := nat (only parsing).
Abbreviation page_id_t := Z (only parsing).

Definition INVALID_PAGE_ID : page_id_t := (-1)%Z.

(** Modelled from the spec: the largest value of the 32-bit [int] that
    page.h declares [pin_count_] with. *)
Definition INT_MAX : Z := 2147483647%Z.

(* ===================================================================== *)
(** * LRU replacer *)
(* ===================================================================== *)

Module LRU.

(** [buffer] is the [std::vector<int>]: index 0 is the most recently
    unpinned frame, the last index the least recently unpinned one. *)
Record LRUReplacer := mkLRU {
  capacity : nat;
  buffer : list frame_id_t
}.

(** [LRUReplacer::LRUReplacer(num_pages)] *)
Definition init (num_pages : nat) : LRUReplacer := mkLRU num_pages [].

(** [LRUReplacer::Victim]: the out-parameter is written only on success,
    so it is returned as an [option]. *)
Definition Victim (r : LRUReplacer) : LRUReplacer * option frame_id_t :=
  match buffer r with
  | [] => (r, None)
  | _ :: _ =>
      let i := length (buffer r) - 1 in
      match buffer r !! i with
      | Some f => (mkLRU (capacity r) (delete i (buffer r)), Some f)
      | None => (r, None)
      end
  end.

(** The iterator loop of [Pin]: erase the first slot holding [f]. *)
Fixpoint erase_first (f : frame_id_t) (l : list frame_id_t) : list frame_id_t :=
  match l with
  | [] => []
  | x :: l' => if decide (x = f) then l' else x :: erase_first f l'
  end.

(** [LRUReplacer::Pin] *)
Definition Pin (f : frame_id_t) (r : LRUReplacer) : LRUReplacer :=
  mkLRU (capacity r) (erase_first f (buffer r)).

(** The scanning loop of [Unpin]. *)
Fixpoint scan (f : frame_id_t) (l : list frame_id_t) : bool :=
  match l with
  | [] => false
  | x :: l' => if decide (x = f) then true else scan f l'
  end.

(** [std::vector::pop_back] *)
Definition pop_back (l : list frame_id_t) : list frame_id_t :=
  delete (length l - 1) l.

(** [LRUReplacer::Unpin] *)
Definition Unpin (f : frame_id_t) (r : LRUReplacer) : LRUReplacer :=
  if scan f (buffer r) then r
  else
    let b := f :: buffer r in
    if decide (capacity r < length b)
    then mkLRU (capacity r) (pop_back b)
    else mkLRU (capacity r) b.

(** [LRUReplacer::Size] *)
Definition Size (r : LRUReplacer) : nat := length (buffer r).

End LRU.

(* ===================================================================== *)
(** * Disk manager *)
(* ===================================================================== *)

Module Disk.

(** One entry per call made to the disk manager, oldest first. *)
Inductive DiskCall :=
  | CallReadPage (p : page_id_t)
  | CallWritePage (p : page_id_t)
  | CallAllocatePage
  | CallDeallocatePage (p : page_id_t).

Section Disk.
Context {Data : Type}.

(** Modelled from the spec: the disk manager (disk_manager.cpp is an
    external collaborator) with its four synchronous, infallible calls
    [ReadPage], [WritePage], [AllocatePage], [DeallocatePage].  [contents]
    is what [ReadPage] would return for each page id, [next_page_id] the
    monotonically assigned allocation counter, [calls] the history of
    calls received. *)
Record DiskManager := mkDisk {
  contents : page_id_t → Data;
  next_page_id : page_id_t;
  calls : list DiskCall
}.

Definition ReadPage (p : page_id_t) (d : DiskManager) : DiskManager * Data :=
  (mkDisk (contents d) (next_page_id d) (calls d ++ [CallReadPage p]),
   contents d p).

Definition WritePage (p : page_id_t) (bytes : Data) (d : DiskManager) : DiskManager :=
  mkDisk (λ q, if decide (q = p) then bytes else contents d q)
         (next_page_id d) (calls d ++ [CallWritePage p]).

Definition AllocatePage (d : DiskManager) : DiskManager * page_id_t :=
  (mkDisk (contents d) (next_page_id d + 1)%Z (calls d ++ [CallAllocatePage]),
   next_page_id d).

Definition DeallocatePage (p : page_id_t) (d : DiskManager) : DiskManager :=
  mkDisk (contents d) (next_page_id d) (calls d ++ [CallDeallocatePage p]).

End Disk.
Arguments DiskManager : clear implicits.

End Disk.

(* ===================================================================== *)
(** * Buffer pool manager *)
(* ===================================================================== *)

Module BPM.
Import LRU Disk.

Section BPM.
Context {Data : Type}.

(** The all-zero buffer left by [Page::ResetMemory]. *)
Variable zeroed : Data.

(** Modelled from the spec: the frame object of page.h,
    [{page_id, pin_count, is_dirty, data[PAGE_SIZE]}]. *)
Record Page := mkPage {
  page_id_ : page_id_t;
  pin_count_ : Z;
  is_dirty_ : bool;
  data_ : Data
}.

(** Modelled from the spec: a frame that holds no logical page, as the
    [Page] constructor leaves it. *)
Definition fresh_page : Page := mkPage INVALID_PAGE_ID 0 false zeroed.

Record BufferPoolManager := mkBPM {
  pool_size_ : nat;
  pages_ : list Page;
  page_table_ : gmap Z nat;
  free_list_ : list frame_id_t;
  replacer_ : LRUReplacer;
  disk_manager_ : DiskManager Data
}.

(** [BufferPoolManager::BufferPoolManager] *)
Definition init (pool_size : nat) (disk : DiskManager Data) : BufferPoolManager :=
  mkBPM pool_size (replicate pool_size fresh_page) ∅ (seq 0 pool_size)
        (LRU.init pool_size) disk.

(** [std::unordered_map::insert]: no effect when the key is present. *)
Definition table_insert (p : page_id_t) (f : frame_id_t) (t : gmap Z nat) : gmap Z nat :=
  match t !! p with
  | Some _ => t
  | None => <[p := f]> t
  end.

(** [BufferPoolManager::FetchPageImpl]; the returned [Page *] is the frame
    index, [None] is [nullptr].  [page.pin_count_++] is the successor in
    [Z]: it is the source's result as long as the count is below
    [INT_MAX]. *)
Definition FetchPageImpl (page_id : page_id_t) (b : BufferPoolManager)
  : option (BufferPoolManager * option frame_id_t) :=
  match page_table_ b !! page_id with
  | Some frame_id =>
      page ← pages_ b !! frame_id;
      let page' := mkPage (page_id_ page) (pin_count_ page + 1) (is_dirty_ page) (data_ page) in
      Some (mkBPM (pool_size_ b) (<[frame_id := page']> (pages_ b)) (page_table_ b)
                  (free_list_ b) (Pin frame_id (replacer_ b)) (disk_manager_ b),
            Some frame_id)
  | None =>
      match free_list_ b with
      | frame_id :: rest =>
          page ← pages_ b !! frame_id;
          let table := table_insert page_id frame_id (page_table_ b) in
          let '(disk, bytes) := ReadPage page_id (disk_manager_ b) in
          let page' := mkPage page_id 1 false bytes in
          Some (mkBPM (pool_size_ b) (<[frame_id := page']> (pages_ b)) table
                      rest (replacer_ b) disk,
                Some frame_id)
      | [] =>
          match Victim (replacer_ b) with
          | (replacer, Some frame_id) =>
              page ← pages_ b !! frame_id;
              let table :=
                table_insert page_id frame_id (delete (page_id_ page) (page_table_ b)) in
              let disk1 :=
                if is_dirty_ page
                then WritePage (page_id_ page) (data_ page) (disk_manager_ b)
                else disk_manager_ b in
              let '(disk2, bytes) := ReadPage page_id disk1 in
              let page' := mkPage page_id 1 false bytes in
              Some (mkBPM (pool_size_ b) (<[frame_id := page']> (pages_ b)) table
                          (free_list_ b) replacer disk2,
                    Some frame_id)
          | (_, None) => Some (b, None)
          end
      end
  end.

(** [BufferPoolManager::UnpinPageImpl] *)
Definition UnpinPageImpl (page_id : page_id_t) (is_dirty : bool) (b : BufferPoolManager)
  : option (BufferPoolManager * bool) :=
  match page_table_ b !! page_id with
  | None => Some (b, true)
  | Some frame_id =>
      page ← pages_ b !! frame_id;
      if decide (pin_count_ page ≤ 0)%Z then Some (b, false)
      else
        let pin := (pin_count_ page - 1)%Z in
        let replacer :=
          if decide (pin = 0%Z) then Unpin frame_id (replacer_ b) else replacer_ b in
        let dirty :=
          if negb (is_dirty_ page) && is_dirty then true else is_dirty_ page in
        let page' := mkPage (page_id_ page) pin dirty (data_ page) in
        Some (mkBPM (pool_size_ b) (<[frame_id := page']> (pages_ b)) (page_table_ b)
                    (free_list_ b) replacer (disk_manager_ b),
              true)
  end.

(** [BufferPoolManager::FlushPageImpl] *)
Definition FlushPageImpl (page_id : page_id_t) (b : BufferPoolManager)
  : option (BufferPoolManager * bool) :=
  match page_table_ b !! page_id with
  | None => Some (b, false)
  | Some frame_id =>
      page ← pages_ b !! frame_id;
      let disk := WritePage page_id (data_ page) (disk_manager_ b) in
      let page' := mkPage (page_id_ page) (pin_count_ page) false (data_ page) in
      Some (mkBPM (pool_size_ b) (<[frame_id := page']> (pages_ b)) (page_table_ b)
                  (free_list_ b) (replacer_ b) disk,
            true)
  end.

(** The part of [NewPageImpl] after a frame was obtained. *)
Definition install_new_page (frame_id : frame_id_t) (free_list : list frame_id_t)
    (replacer : LRUReplacer) (b : BufferPoolManager)
  : option (BufferPoolManager * page_id_t * option frame_id_t) :=
  page ← pages_ b !! frame_id;
  let disk1 :=
    if is_dirty_ page
    then WritePage (page_id_ page) (data_ page) (disk_manager_ b)
    else disk_manager_ b in
  let '(disk2, pageId) := AllocatePage disk1 in
  let table := table_insert pageId frame_id (delete (page_id_ page) (page_table_ b)) in
  let page' := mkPage pageId 1 false zeroed in
  Some (mkBPM (pool_size_ b) (<[frame_id := page']> (pages_ b)) table
              free_list replacer disk2,
        pageId, Some frame_id).

(** [BufferPoolManager::NewPageImpl]; [page_id] is the current value of the
    output parameter [*page_id], returned with its value on exit. *)
Definition NewPageImpl (page_id : page_id_t) (b : BufferPoolManager)
  : option (BufferPoolManager * page_id_t * option frame_id_t) :=
  match free_list_ b with
  | frame_id :: rest => install_new_page frame_id rest (replacer_ b) b
  | [] =>
      match Victim (replacer_ b) with
      | (replacer, Some frame_id) => install_new_page frame_id (free_list_ b) replacer b
      | (_, None) => Some (b, page_id, None)
      end
  end.

(** [BufferPoolManager::DeletePageImpl] *)
Definition DeletePageImpl (page_id : page_id_t) (b : BufferPoolManager)
  : option (BufferPoolManager * bool) :=
  match page_table_ b !! page_id with
  | None => Some (b, true)
  | Some frame_id =>
      page ← pages_ b !! frame_id;
      if decide (pin_count_ page > 0)%Z then Some (b, false)
      else
        let replacer := Pin frame_id (replacer_ b) in
        let disk1 :=
          if is_dirty_ page
          then WritePage (page_id_ page) (data_ page) (disk_manager_ b)
          else disk_manager_ b in
        let page' := mkPage INVALID_PAGE_ID (pin_count_ page) false zeroed in
        Some (mkBPM (pool_size_ b) (<[frame_id := page']> (pages_ b))
                    (delete page_id (page_table_ b))
                    (free_list_ b ++ [frame_id]) replacer
                    (DeallocatePage page_id disk1),
              true)
  end.

(** Modelled from the spec: the public entry points of
    buffer_pool_manager.h, which forward to the [...Impl] functions. *)
Definition FetchPage := FetchPageImpl.
Definition UnpinPage := UnpinPageImpl.
Definition FlushPage := FlushPageImpl.
Definition NewPage := NewPageImpl.
Definition DeletePage := DeletePageImpl.

(** ** Runs of the buffer pool *)

Inductive Op :=
  | OpFetchPage (p : page_id_t)
  | OpUnpinPage (p : page_id_t) (is_dirty : bool)
  | OpNewPage (out : page_id_t)
  | OpDeletePage (p : page_id_t)
  | OpFlushPage (p : page_id_t).

Definition step (op : Op) (b : BufferPoolManager) : option BufferPoolManager :=
  match op with
  | OpFetchPage p => fst <$> FetchPage p b
  | OpUnpinPage p d => fst <$> UnpinPage p d b
  | OpNewPage out => (λ r, fst (fst r)) <$> NewPage out b
  | OpDeletePage p => fst <$> DeletePage p b
  | OpFlushPage p => fst <$> FlushPage p b
  end.

(** A sequence of operations, each applied to the state left by the
    previous one. *)
Fixpoint run (ops : list Op) (b : BufferPoolManager) : option BufferPoolManager :=
  match ops with
  | [] => Some b
  | op :: ops' => b' ← step op b; run ops' b'
  end.

Inductive reachable (pool_size : nat) (disk : DiskManager Data)
  : BufferPoolManager → Prop :=
  | reachable_init : reachable pool_size disk (init pool_size disk)
  | reachable_step b op b' :
      reachable pool_size disk b → step op b = Some b' →
      reachable pool_size disk b'.

(** ** Representation invariant *)

(** The frame exists and is unpinned. *)
Definition unpinned (b : BufferPoolManager) (f : frame_id_t) : Prop :=
  ∃ page, pages_ b !! f = Some page ∧ pin_count_ page = 0%Z.

Record bpm_inv (b : BufferPoolManager) : Prop := {
  inv_pool : length (pages_ b) = pool_size_ b;
  inv_capacity : capacity (replacer_ b) = pool_size_ b;
  inv_replacer_unpinned : ∀ f, f ∈ buffer (replacer_ b) → unpinned b f;
  inv_replacer_nodup : NoDup (buffer (replacer_ b));
  inv_free_nodup : NoDup (free_list_ b);
  inv_free_range : ∀ f, f ∈ free_list_ b → f < length (pages_ b);
  inv_free_replacer : ∀ f, f ∈ free_list_ b → f ∉ buffer (replacer_ b);
  inv_table_free : ∀ p f, page_table_ b !! p = Some f → f ∉ free_list_ b;
  inv_table_page : ∀ p f, page_table_ b !! p = Some f →
      ∃ page, pages_ b !! f = Some page ∧ page_id_ page = p
}.

(** The current image of page [p]: the frame's buffer when [p] is cached,
    what the disk holds otherwise. *)
Definition page_image (b : BufferPoolManager) (p : page_id_t) : option Data :=
  match page_table_ b !! p with
  | Some f => data_ <$> pages_ b !! f
  | None => Some (contents (disk_manager_ b) p)
  end.

(** A frame can be obtained for a page that is not cached. *)
Definition frame_available (b : BufferPoolManager) : Prop :=
  free_list_ b ≠ [] ∨ buffer (replacer_ b) ≠ [].

(** What eviction needs to be lossless: an evictable frame holds the page
    the table maps to it, and, when clean, the bytes the disk has. *)
Record bpm_wf (b : BufferPoolManager) : Prop := {
  wf_inv : bpm_inv b;
  wf_pins : ∀ p f page, page_table_ b !! p = Some f →
      pages_ b !! f = Some page → (0 ≤ pin_count_ page)%Z;
  wf_replacer_table : ∀ f page, f ∈ buffer (replacer_ b) →
      pages_ b !! f = Some page → page_table_ b !! page_id_ page = Some f;
  wf_clean : ∀ f page, f ∈ buffer (replacer_ b) →
      pages_ b !! f = Some page → is_dirty_ page = false →
      data_ page = contents (disk_manager_ b) (page_id_ page)
}.

(** ** Pinned frames *)

(** Every frame of the pool is pinned. *)
Definition every_frame_pinned (b : BufferPoolManager) : Prop :=
  ∀ f page, pages_ b !! f = Some page → (0 < pin_count_ page)%Z.

(** No pin count has left the range of [int]. *)
Definition pins_in_range (b : BufferPoolManager) : Prop :=
  Forall (λ page, (pin_count_ page ≤ INT_MAX)%Z) (pages_ b).

(** The states of runs on which no [pin_count_++] overflows: every state
    of the run has its pin counts in the range of [int]. *)
Inductive reachable_in_range (pool_size : nat) (disk : DiskManager Data)
  : BufferPoolManager → Prop :=
  | in_range_init : reachable_in_range pool_size disk (init pool_size disk)
  | in_range_step b op b' :
      reachable_in_range pool_size disk b → step op b = Some b' →
      pins_in_range b' →
      reachable_in_range pool_size disk b'.

(** Every frame is accounted for: it is on the free list, in the replacer,
    or pinned; and a frame on the free list is not pinned. *)
Record bpm_accounted (b : BufferPoolManager) : Prop := {
  acc_frames : ∀ f page, pages_ b !! f = Some page →
      f ∈ free_list_ b ∨ f ∈ buffer (replacer_ b) ∨ (0 < pin_count_ page)%Z;
  acc_free : ∀ f page, f ∈ free_list_ b → pages_ b !! f = Some page →
      (pin_count_ page ≤ 0)%Z
}.

End BPM.
End BPM.

(* ===================================================================== *)
(** * B+Tree pages: common header and slot arrays *)
(* ===================================================================== *)

Module Tree.

Inductive IndexPageType := INVALID_INDEX_PAGE | LEAF_PAGE | INTERNAL_PAGE.

(** Modelled from the spec: the header shared by leaf and internal pages
    (b_plus_tree_page.h/.cpp), [{page_type, lsn, size, max_size,
    parent_page_id, page_id}], with its getters and setters. *)
Record BPlusTreePage := mkHeader {
  page_type_ : IndexPageType;
  lsn_ : Z;
  size_ : Z;
  max_size_ : Z;
  parent_page_id_ : page_id_t;
  page_id_ : page_id_t
}.

Definition SetSize (n : Z) (h : BPlusTreePage) : BPlusTreePage :=
  mkHeader (page_type_ h) (lsn_ h) n (max_size_ h) (parent_page_id_ h) (page_id_ h).

Definition IncreaseSize (amount : Z) (h : BPlusTreePage) : BPlusTreePage :=
  SetSize (size_ h + amount) h.

Definition SetParentPageId (parent : page_id_t) (h : BPlusTreePage) : BPlusTreePage :=
  mkHeader (page_type_ h) (lsn_ h) (size_ h) (max_size_ h) parent (page_id_ h).

(** The byte buffer of a frame as [reinterpret_cast<BPlusTreePage *>] sees
    it: the header fields, then the bytes that follow them. *)
Record RawPage := mkRaw {
  raw_header : BPlusTreePage;
  raw_body : list Z
}.

Definition PAGE_SIZE : Z := 4096.

(** A buffer of [PAGE_SIZE] zero bytes. *)
Definition zeroed : RawPage :=
  mkRaw (mkHeader INVALID_INDEX_PAGE 0 0 0 0 0)
        (replicate (Z.to_nat (PAGE_SIZE - 24)) 0%Z).

Definition raw_set_parent (parent : page_id_t) (d : RawPage) : RawPage :=
  mkRaw (SetParentPageId parent (raw_header d)) (raw_body d).

Section Slots.
Context {T : Type}.

(** [a[i]] as an rvalue; the list is the whole physical slot array of the
    page, of which only the first [size] slots are live. *)
Definition slot_at (a : list T) (i : Z) : option T :=
  if decide (0 ≤ i)%Z then a !! Z.to_nat i else None.

(** [a[i] = x] *)
Definition slot_store (a : list T) (i : Z) (x : T) : option (list T) :=
  if decide (0 ≤ i < Z.of_nat (length a))%Z
  then Some (<[Z.to_nat i := x]> a) else None.

(** [for (int i = from; i > index; i--) a[i] = a[i - 1];] *)
Fixpoint shift_right (fuel : nat) (i index : Z) (a : list T) : option (list T) :=
  if decide (i > index)%Z then
    match fuel with
    | O => None
    | S fuel' =>
        x ← slot_at a (i - 1);
        a' ← slot_store a i x;
        shift_right fuel' (i - 1) index a'
    end
  else Some a.

(** [for (int i = from; i < bound; i++) a[i] = a[i + 1];] *)
Fixpoint shift_left (fuel : nat) (i bound : Z) (a : list T) : option (list T) :=
  if decide (i < bound)%Z then
    match fuel with
    | O => None
    | S fuel' =>
        x ← slot_at a (i + 1);
        a' ← slot_store a i x;
        shift_left fuel' (i + 1) bound a'
    end
  else Some a.

(** The body shared by [InsertAt] of both page kinds, on [(size, array)]. *)
Definition insert_slot (size index : Z) (pair : T) (a : list T) : option (list T) :=
  a1 ← (if decide (size ≠ 0%Z)
        then shift_right (Z.to_nat (size - index)) size index a
        else Some a);
  slot_store a1 index pair.

(** The loop shared by [RemoveAt] and [Remove]. *)
Definition remove_slot (size index : Z) (a : list T) : option (list T) :=
  shift_left (Z.to_nat (size - 1 - index)) index (size - 1) a.

(** The live part of a slot array. *)
Definition live (size : Z) (a : list T) : list T := take (Z.to_nat size) a.

End Slots.
End Tree.

(* ===================================================================== *)
(** * B+Tree leaf page *)
(* ===================================================================== *)

Module Leaf.
Import Tree.

Section Leaf.
Context {KeyType ValueType : Type}.
Variable comparator : KeyType → KeyType → Z.

Record LeafPage := mkLeaf {
  header : BPlusTreePage;
  next_page_id_ : page_id_t;
  array : list (KeyType * ValueType)
}.

Definition GetSize (p : LeafPage) : Z := size_ (header p).
Definition with_header (h : BPlusTreePage) (p : LeafPage) : LeafPage :=
  mkLeaf h (next_page_id_ p) (array p).
Definition with_array (a : list (KeyType * ValueType)) (p : LeafPage) : LeafPage :=
  mkLeaf (header p) (next_page_id_ p) a.

(** The pairs the page holds: slots [0 .. size). *)
Definition entries (p : LeafPage) : list (KeyType * ValueType) :=
  live (GetSize p) (array p).

(** [Init]: the slot array keeps whatever the buffer held. *)
Definition Init (page_id parent_id : page_id_t) (max_size : Z) (p : LeafPage) : LeafPage :=
  mkLeaf (mkHeader LEAF_PAGE (lsn_ (header p)) 0 max_size parent_id page_id)
         INVALID_PAGE_ID (array p).

Definition GetNextPageId (p : LeafPage) : page_id_t := next_page_id_ p.
Definition SetNextPageId (n : page_id_t) (p : LeafPage) : LeafPage :=
  mkLeaf (header p) n (array p).

Definition KeyAt (index : Z) (p : LeafPage) : option KeyType :=
  fst <$> slot_at (array p) index.
Definition ValueAt (index : Z) (p : LeafPage) : option ValueType :=
  snd <$> slot_at (array p) index.
Definition GetItem (index : Z) (p : LeafPage) : option (KeyType * ValueType) :=
  slot_at (array p) index.

(** The [while (left <= right)] loop of [KeyIndex]. *)
Fixpoint KeyIndex_loop (fuel : nat) (key : KeyType) (a : list (KeyType * ValueType))
    (left right : Z) : option Z :=
  if decide (left ≤ right)%Z then
    match fuel with
    | O => None
    | S fuel' =>
        let mid := (left + (right - left) ÷ 2)%Z in
        kv ← slot_at a mid;
        if decide (comparator (fst kv) key < 0)%Z
        then KeyIndex_loop fuel' key a (mid + 1) right
        else if decide (comparator (fst kv) key > 0)%Z
        then KeyIndex_loop fuel' key a left (mid - 1)
        else Some mid
    end
  else Some left.

Definition KeyIndex (key : KeyType) (p : LeafPage) : option Z :=
  KeyIndex_loop (Z.to_nat (GetSize p)) key (array p) 0 (GetSize p - 1).

Definition CheckDuplicated (key : KeyType) (p : LeafPage) : option bool :=
  index ← KeyIndex key p;
  if decide (index < GetSize p)%Z
  then k ← KeyAt index p; Some (bool_decide (comparator k key = 0%Z))
  else Some false.

Definition InsertAt (index : Z) (pair : KeyType * ValueType) (p : LeafPage)
  : option LeafPage :=
  a ← insert_slot (GetSize p) index pair (array p);
  Some (mkLeaf (IncreaseSize 1 (header p)) (next_page_id_ p) a).

Definition RemoveAt (index : Z) (p : LeafPage) : option LeafPage :=
  a ← remove_slot (GetSize p) index (array p);
  Some (mkLeaf (IncreaseSize (-1) (header p)) (next_page_id_ p) a).

(** [Insert]: returns the page and the [int] result. *)
Definition Insert (key : KeyType) (value : ValueType) (p : LeafPage)
  : option (LeafPage * Z) :=
  index ← KeyIndex key p;
  k ← KeyAt index p;
  if decide (comparator key k = 0%Z) then Some (p, GetSize p)
  else
    p' ← InsertAt index (key, value) p;
    Some (p', GetSize p').

(** [Lookup]: the inner option is the out-parameter, [None] for [false]. *)
Definition Lookup (key : KeyType) (p : LeafPage) : option (option ValueType) :=
  index ← KeyIndex key p;
  if decide (index >= GetSize p)%Z then Some None
  else
    kv ← slot_at (array p) index;
    if decide (comparator (fst kv) key ≠ 0%Z) then Some None
    else Some (Some (snd kv)).

Definition RemoveAndDeleteRecord (key : KeyType) (p : LeafPage)
  : option (LeafPage * Z) :=
  index ← KeyIndex key p;
  if decide (index >= GetSize p)%Z then Some (p, GetSize p)
  else
    kv ← slot_at (array p) index;
    if decide (comparator (fst kv) key ≠ 0%Z) then Some (p, GetSize p)
    else
      p' ← RemoveAt index p;
      Some (p', GetSize p').

(** The loop of [CopyNFrom]; the pointer [items] is the slot array it
    points into together with the offset [off] of its first element. *)
Fixpoint CopyNFrom_loop (fuel : nat) (i size : Z)
    (items : list (KeyType * ValueType)) (off : Z) (p : LeafPage) : option LeafPage :=
  if decide (i < size)%Z then
    match fuel with
    | O => None
    | S fuel' =>
        item ← slot_at items (off + i);
        p' ← InsertAt (GetSize p) item p;
        CopyNFrom_loop fuel' (i + 1) size items off p'
    end
  else Some p.

Definition CopyNFrom (items : list (KeyType * ValueType)) (off : Z) (size : Z)
    (p : LeafPage) : option LeafPage :=
  CopyNFrom_loop (Z.to_nat size) 0 size items off p.

(** [MoveHalfTo]: returns this page and the recipient (a different page). *)
Definition MoveHalfTo (this recipient : LeafPage) : option (LeafPage * LeafPage) :=
  let half_size := (GetSize this ÷ 2)%Z in
  recipient' ← CopyNFrom (array this) (GetSize this - half_size) half_size recipient;
  Some (with_header (IncreaseSize (- half_size) (header this)) this, recipient').

Definition MoveAllTo (this recipient : LeafPage) : option (LeafPage * LeafPage) :=
  recipient' ← CopyNFrom (array this) 0 (GetSize this) recipient;
  Some (with_header (SetSize 0 (header this)) this,
        SetNextPageId (GetNextPageId this) recipient').

Definition MoveFirstToEndOf (this recipient : LeafPage) : option (LeafPage * LeafPage) :=
  item ← slot_at (array this) 0;
  recipient' ← InsertAt (GetSize recipient) item recipient;
  this' ← RemoveAt 0 this;
  Some (this', recipient').

Definition MoveLastToFrontOf (this recipient : LeafPage) : option (LeafPage * LeafPage) :=
  item ← slot_at (array this) (GetSize this - 1);
  recipient' ← InsertAt 0 item recipient;
  this' ← RemoveAt (GetSize this - 1) this;
  Some (this', recipient').

(** ** The slot reads of [Insert]

    The same code with every index used in an [array[...]] rvalue listed,
    in the order of the reads.  In [KeyIndex] the condition of the
    [else if] reads [array[mid]] a second time, so [mid] is listed twice
    whenever the first comparison is not below zero. *)

Fixpoint KeyIndex_loop_reads (fuel : nat) (key : KeyType)
    (a : list (KeyType * ValueType)) (left right : Z) : option (Z * list Z) :=
  if decide (left ≤ right)%Z then
    match fuel with
    | O => None
    | S fuel' =>
        let mid := (left + (right - left) ÷ 2)%Z in
        kv ← slot_at a mid;
        if decide (comparator (fst kv) key < 0)%Z
        then '(r, t) ← KeyIndex_loop_reads fuel' key a (mid + 1) right; Some (r, mid :: t)
        else if decide (comparator (fst kv) key > 0)%Z
        then '(r, t) ← KeyIndex_loop_reads fuel' key a left (mid - 1);
             Some (r, mid :: mid :: t)
        else Some (mid, [mid; mid])
    end
  else Some (left, []).

Fixpoint shift_right_reads (fuel : nat) (i index : Z)
    (a : list (KeyType * ValueType)) : option (list (KeyType * ValueType) * list Z) :=
  if decide (i > index)%Z then
    match fuel with
    | O => None
    | S fuel' =>
        x ← slot_at a (i - 1);
        a' ← slot_store a i x;
        '(r, t) ← shift_right_reads fuel' (i - 1) index a';
        Some (r, (i - 1)%Z :: t)
    end
  else Some (a, []).

Definition Insert_reads (key : KeyType) (value : ValueType) (p : LeafPage)
  : option (LeafPage * Z * list Z) :=
  '(index, t1) ← KeyIndex_loop_reads (Z.to_nat (GetSize p)) key (array p) 0 (GetSize p - 1);
  k ← KeyAt index p;
  if decide (comparator key k = 0%Z) then Some (p, GetSize p, t1 ++ [index])
  else
    '(a1, t2) ← (if decide (GetSize p ≠ 0%Z)
                 then shift_right_reads (Z.to_nat (GetSize p - index)) (GetSize p) index (array p)
                 else Some (array p, []));
    a2 ← slot_store a1 index (key, value);
    let p' := mkLeaf (IncreaseSize 1 (header p)) (next_page_id_ p) a2 in
    Some (p', GetSize p', t1 ++ [index] ++ t2).

End Leaf.
End Leaf.

(* ===================================================================== *)
(** * B+Tree internal page *)
(* ===================================================================== *)

Module Internal.
Import Tree.

Section Internal.
Context {KeyType : Type}.
Variable comparator : KeyType → KeyType → Z.

(** The value type of every instantiation in the source is [page_id_t]. *)
Record InternalPage := mkInternal {
  header : BPlusTreePage;
  array : list (KeyType * page_id_t)
}.

Abbreviation Pool := (@BPM.BufferPoolManager RawPage).

Definition GetSize (p : InternalPage) : Z := size_ (header p).
Definition GetPageId (p : InternalPage) : page_id_t := page_id_ (header p).
Definition with_header (h : BPlusTreePage) (p : InternalPage) : InternalPage :=
  mkInternal h (array p).

(** The pairs the page holds: slots [0 .. size). *)
Definition entries (p : InternalPage) : list (KeyType * page_id_t) :=
  live (GetSize p) (array p).

Definition Init (page_id parent_id : page_id_t) (max_size : Z) (p : InternalPage)
  : InternalPage :=
  mkInternal (mkHeader INTERNAL_PAGE (lsn_ (header p)) 0 max_size parent_id page_id)
             (array p).

Definition KeyAt (index : Z) (p : InternalPage) : option KeyType :=
  fst <$> slot_at (array p) index.
Definition ValueAt (index : Z) (p : InternalPage) : option page_id_t :=
  snd <$> slot_at (array p) index.

Definition SetKeyAt (index : Z) (key : KeyType) (p : InternalPage) : option InternalPage :=
  kv ← slot_at (array p) index;
  a ← slot_store (array p) index (key, snd kv);
  Some (mkInternal (header p) a).

Definition SetValueAt (index : Z) (value : page_id_t) (p : InternalPage)
  : option InternalPage :=
  kv ← slot_at (array p) index;
  a ← slot_store (array p) index (fst kv, value);
  Some (mkInternal (header p) a).

Definition InsertAt (index : Z) (pair : KeyType * page_id_t) (p : InternalPage)
  : option InternalPage :=
  a ← insert_slot (GetSize p) index pair (array p);
  Some (mkInternal (IncreaseSize 1 (header p)) a).

(** The loop of [ValueIndex]. *)
Fixpoint ValueIndex_loop (fuel : nat) (i : Z) (value : page_id_t) (p : InternalPage)
  : option Z :=
  if decide (i < GetSize p)%Z then
    match fuel with
    | O => None
    | S fuel' =>
        v ← ValueAt i p;
        if decide (v = value) then Some i
        else ValueIndex_loop fuel' (i + 1) value p
    end
  else Some (-1)%Z.

Definition ValueIndex (value : page_id_t) (p : InternalPage) : option Z :=
  ValueIndex_loop (Z.to_nat (GetSize p)) 0 value p.

(** The [while (left < right - 1)] loop of [Lookup] and the return after
    it. *)
Fixpoint Lookup_loop (fuel : nat) (key : KeyType) (p : InternalPage)
    (left right : Z) : option page_id_t :=
  if decide (left < right - 1)%Z then
    match fuel with
    | O => None
    | S fuel' =>
        let mid := (left + (right - left) ÷ 2)%Z in
        k ← KeyAt mid p;
        if decide (comparator k key > 0)%Z
        then Lookup_loop fuel' key p left (mid - 1)
        else if decide (comparator k key < 0)%Z
        then Lookup_loop fuel' key p (mid + 1) right
        else ValueAt mid p
    end
  else ValueAt left p.

(** [Lookup]; [||] reads [array[1]] only when [GetSize() != 1]. *)
Definition Lookup (key : KeyType) (p : InternalPage) : option page_id_t :=
  first ← (if decide (GetSize p = 1%Z) then Some true
           else k1 ← KeyAt 1 p; Some (bool_decide (comparator key k1 = (-1)%Z)));
  if first : bool then ValueAt 0 p
  else Lookup_loop (Z.to_nat (GetSize p)) key p 1 (GetSize p - 1).

Definition PopulateNewRoot (old_value : page_id_t) (new_key : KeyType)
    (new_value : page_id_t) (p : InternalPage) : option InternalPage :=
  p1 ← SetValueAt 0 old_value (with_header (SetSize 2 (header p)) p);
  p2 ← SetKeyAt 1 new_key p1;
  SetValueAt 1 new_value p2.

Definition InsertNodeAfter (old_value : page_id_t) (new_key : KeyType)
    (new_value : page_id_t) (p : InternalPage) : option (InternalPage * Z) :=
  index ← ValueIndex old_value p;
  p' ← InsertAt (index + 1) (new_key, new_value) p;
  Some (p', GetSize p').

Definition Remove (index : Z) (p : InternalPage) : option InternalPage :=
  a ← remove_slot (GetSize p) index (array p);
  Some (mkInternal (IncreaseSize (-1) (header p)) a).

(** [SetParentToMe], for the page whose id is [me]: fetch the child, write
    the parent id into the header at the start of its buffer, unpin it
    dirty.  A null frame from [FetchPage] is dereferenced by the source. *)
Definition SetParentToMe (me : page_id_t) (page_id : page_id_t) (bpm : Pool)
  : option Pool :=
  '(b1, frame) ← BPM.FetchPage page_id bpm;
  f ← frame;
  page ← BPM.pages_ b1 !! f;
  let page' := BPM.mkPage (BPM.page_id_ page) (BPM.pin_count_ page) (BPM.is_dirty_ page)
                          (raw_set_parent me (BPM.data_ page)) in
  let b2 := BPM.mkBPM (BPM.pool_size_ b1) (<[f := page']> (BPM.pages_ b1))
                      (BPM.page_table_ b1) (BPM.free_list_ b1) (BPM.replacer_ b1)
                      (BPM.disk_manager_ b1) in
  '(b3, _) ← BPM.UnpinPage page_id true b2;
  Some b3.

Definition CopyLastFrom (pair : KeyType * page_id_t) (p : InternalPage) (bpm : Pool)
  : option (InternalPage * Pool) :=
  bpm' ← SetParentToMe (GetPageId p) (snd pair) bpm;
  p' ← InsertAt (GetSize p) pair p;
  Some (p', bpm').

Definition CopyFirstFrom (pair : KeyType * page_id_t) (p : InternalPage) (bpm : Pool)
  : option (InternalPage * Pool) :=
  p1 ← InsertAt 0 pair p;
  p2 ← SetKeyAt 1 (fst pair) p1;
  bpm' ← SetParentToMe (GetPageId p) (snd pair) bpm;
  Some (p2, bpm').

(** The loop of [CopyNFrom]; the pointer [items] is the slot array it
    points into together with the offset [off] of its first element. *)
Fixpoint CopyNFrom_loop (fuel : nat) (i size : Z)
    (items : list (KeyType * page_id_t)) (off : Z) (p : InternalPage) (bpm : Pool)
  : option (InternalPage * Pool) :=
  if decide (i < size)%Z then
    match fuel with
    | O => None
    | S fuel' =>
        item ← slot_at items (off + i);
        '(p', bpm') ← CopyLastFrom item p bpm;
        CopyNFrom_loop fuel' (i + 1) size items off p' bpm'
    end
  else Some (p, bpm).

Definition CopyNFrom (items : list (KeyType * page_id_t)) (off : Z) (size : Z)
    (p : InternalPage) (bpm : Pool) : option (InternalPage * Pool) :=
  CopyNFrom_loop (Z.to_nat size) 0 size items off p bpm.

(** The operations below return this page, the recipient and the buffer
    pool.  [this] and [recipient] are the typed views of two different
    frames that the caller holds pinned; the children they adopt are
    other pages, so fetching a child never touches these two buffers and
    the two pages are passed by value next to the pool. *)

Definition MoveHalfTo (this recipient : InternalPage) (bpm : Pool)
  : option (InternalPage * InternalPage * Pool) :=
  let half_size := (GetSize this ÷ 2)%Z in
  '(recipient', bpm') ←
    CopyNFrom (array this) (GetSize this - half_size) half_size recipient bpm;
  Some (with_header (IncreaseSize (- half_size) (header this)) this, recipient', bpm').

Definition MoveFirstToEndOf (this recipient : InternalPage) (middle_key : KeyType)
    (bpm : Pool) : option (InternalPage * InternalPage * Pool) :=
  v0 ← ValueAt 0 this;
  '(recipient', bpm') ← CopyLastFrom (middle_key, v0) recipient bpm;
  this' ← Remove 0 this;
  Some (this', recipient', bpm').

Definition MoveAllTo (this recipient : InternalPage) (middle_key : KeyType)
    (bpm : Pool) : option (InternalPage * InternalPage * Pool) :=
  '(this1, recipient1, bpm1) ← MoveFirstToEndOf this recipient middle_key bpm;
  '(recipient2, bpm2) ←
    CopyNFrom (array this1) 0 (GetSize this1) recipient1 bpm1;
  Some (with_header (SetSize 0 (header this1)) this1, recipient2, bpm2).

Definition MoveLastToFrontOf (this recipient : InternalPage) (middle_key : KeyType)
    (bpm : Pool) : option (InternalPage * InternalPage * Pool) :=
  v ← ValueAt (GetSize this - 1) this;
  '(recipient', bpm') ← CopyFirstFrom (middle_key, v) recipient bpm;
  this' ← Remove (GetSize this - 1) this;
  Some (this', recipient', bpm').

Definition RemoveAndReturnOnlyChild (p : InternalPage) : option (InternalPage * page_id_t) :=
  if decide (GetSize p ≠ 1%Z) then Some (p, INVALID_PAGE_ID)
  else
    only_child ← ValueAt 0 p;
    p' ← Remove 0 p;
    Some (p', only_child).

(** The parent id stored in the current image of page [p]. *)
Definition stored_parent (bpm : Pool) (p : page_id_t) : option page_id_t :=
  (λ d, parent_page_id_ (raw_header d)) <$> BPM.page_image bpm p.

End Internal.
End Internal.

(** An instantiation of the [KeyType]/[KeyComparator] template parameters:
    integer keys under a three-way comparison returning -1, 0 or 1. *)
Definition IntegerComparator (a b : Z) : Z :=
  if decide (a < b)%Z then (-1)%Z else if decide (a > b)%Z then 1%Z else 0%Z.


(* ===================================================================== *)
(** * Concrete states used as test inputs *)
(* ===================================================================== *)

Module Scenario.
Import Disk BPM.

(** An empty disk whose pages carry no payload. *)
Definition disk0 : DiskManager unit := mkDisk (λ _, tt) 0%Z [].

(** The state a run leaves, or the initial pool when the run faults. *)
Definition after (pool_size : nat) (ops : list Op) : @BufferPoolManager unit :=
  default (init tt pool_size disk0) (run tt ops (init tt pool_size disk0)).

(** Pool of two frames: page 0 was created and is still pinned once. *)
Definition one_pinned : @BufferPoolManager unit := after 2 [OpNewPage 0%Z].

(** Pool of two frames: page 0 was created and then unpinned. *)
Definition one_unpinned : @BufferPoolManager unit :=
  after 2 [OpNewPage 0%Z; OpUnpinPage 0%Z false].

(** Pool of one frame, taken by the pinned page 0. *)
Definition all_pinned : @BufferPoolManager unit := after 1 [OpNewPage 0%Z].

(** A leaf buffer of 8 zeroed slots; a record id is a pair
    [(page_id, slot_num)]. *)
Definition blank_leaf : @Leaf.LeafPage Z (Z * Z) :=
  Leaf.mkLeaf (Tree.mkHeader Tree.INVALID_INDEX_PAGE 0 0 0 0 0) 0%Z
              (replicate 8 (0%Z, (0%Z, 0%Z))).

Definition rid (k : Z) : Z * Z := (7%Z, k).

(** [Insert(k, rid k)] for each key in turn. *)
Fixpoint leaf_inserts (keys : list Z) (p : @Leaf.LeafPage Z (Z * Z))
  : option (@Leaf.LeafPage Z (Z * Z)) :=
  match keys with
  | [] => Some p
  | k :: keys' =>
      '(p', _) ← Leaf.Insert IntegerComparator k (rid k) p;
      leaf_inserts keys' p'
  end.

(** Leaf 1 with [max_size = 4], and the empty leaf 2 next to it. *)
Definition leaf_empty : @Leaf.LeafPage Z (Z * Z) := Leaf.Init 1 (-1) 4 blank_leaf.
Definition leaf_recipient : @Leaf.LeafPage Z (Z * Z) := Leaf.Init 2 (-1) 4 blank_leaf.

Definition leaf_one : @Leaf.LeafPage Z (Z * Z) :=
  default leaf_empty (leaf_inserts [10]%Z leaf_empty).
Definition leaf_two : @Leaf.LeafPage Z (Z * Z) :=
  default leaf_empty (leaf_inserts [10; 20]%Z leaf_empty).
Definition leaf_four : @Leaf.LeafPage Z (Z * Z) :=
  default leaf_empty (leaf_inserts [10; 20; 30; 40]%Z leaf_empty).

(** [leaf_two] after [RemoveAndDeleteRecord(20)]: key 10 is the only pair,
    slot 1 still holds the bytes of the removed pair. *)
Definition leaf_stale : @Leaf.LeafPage Z (Z * Z) :=
  default leaf_empty
    (fst <$> Leaf.RemoveAndDeleteRecord IntegerComparator 20%Z leaf_two).

(** [leaf_four] and [leaf_recipient] after [MoveHalfTo]. *)
Definition leaf_split : @Leaf.LeafPage Z (Z * Z) * @Leaf.LeafPage Z (Z * Z) :=
  default (leaf_empty, leaf_empty) (Leaf.MoveHalfTo leaf_four leaf_recipient).

(** Internal page 5 with three children: 100 (keys below 10), 101 (keys
    from 10), 102 (keys from 20); the key of slot 0 is the unused
    sentinel, slot 3 is free. *)
Definition internal_three : @Internal.InternalPage Z :=
  Internal.mkInternal (Tree.mkHeader Tree.INTERNAL_PAGE 0 3 4 (-1) 5)
                      [(0, 100); (10, 101); (20, 102); (0, 0)]%Z.

(** Internal page 6, the left sibling of page 5, with the single child
    200 and seven free slots. *)
Definition internal_recipient : @Internal.InternalPage Z :=
  Internal.mkInternal (Tree.mkHeader Tree.INTERNAL_PAGE 0 1 8 (-1) 6)
                      ((0, 200) :: replicate 7 (0, 0))%Z.

(** A disk of zeroed tree pages, and a pool of three frames over it in
    which the caller has fetched, and still pins, pages 5 and 6: one frame
    is left for their children. *)
Definition disk_raw : DiskManager Tree.RawPage := mkDisk (λ _, Tree.zeroed) 0%Z [].
Definition after_raw (ops : list Op) : @BufferPoolManager Tree.RawPage :=
  default (init Tree.zeroed 3 disk_raw)
          (run Tree.zeroed ops (init Tree.zeroed 3 disk_raw)).
Definition pool_five : @BufferPoolManager Tree.RawPage := after_raw [OpFetchPage 5%Z].
Definition pool_raw : @BufferPoolManager Tree.RawPage :=
  after_raw [OpFetchPage 5%Z; OpFetchPage 6%Z].

End Scenario.

(* ===================================================================== *)
(** * Runs, orderings and further test inputs *)
(* ===================================================================== *)

Module Runs.
Import LRU.

(** The three mutating calls of the replacer. *)
Inductive ReplacerOp :=
  | CallVictim
  | CallPin (f : frame_id_t)
  | CallUnpin (f : frame_id_t).

Definition replacer_step (r : LRUReplacer) (op : ReplacerOp) : LRUReplacer :=
  match op with
  | CallVictim => fst (Victim r)
  | CallPin f => Pin f r
  | CallUnpin f => Unpin f r
  end.

(** The replacer after a sequence of calls, first call first. *)
Definition replacer_run (ops : list ReplacerOp) (r : LRUReplacer) : LRUReplacer :=
  foldl replacer_step r ops.

(** [Unpin] of each frame of the list, first frame first. *)
Definition unpin_all (l : list frame_id_t) (r : LRUReplacer) : LRUReplacer :=
  foldl (λ r f, Unpin f r) r l.

(** The frames returned by up to [n] successive [Victim] calls, stopping at
    the first call that fails. *)
Fixpoint victims (n : nat) (r : LRUReplacer) : list frame_id_t :=
  match n with
  | O => []
  | S n' =>
      match Victim r with
      | (r', Some f) => f :: victims n' r'
      | (_, None) => []
      end
  end.

Section Pool.
Context {Data : Type}.

(** What other users of the pool do to it: fetch a page, or release a
    pin with [UnpinPage(page_id, true)]. *)
Inductive Access :=
  | Fetch (c : page_id_t)
  | Release (c : page_id_t).

(** A sequence of accesses, first access first; a [FetchPage] that finds
    no frame and an [UnpinPage] that refuses change nothing. *)
Fixpoint access_all (ops : list Access) (b : @BPM.BufferPoolManager Data)
  : option (@BPM.BufferPoolManager Data) :=
  match ops with
  | [] => Some b
  | Fetch c :: ops' => '(b', _) ← BPM.FetchPage c b; access_all ops' b'
  | Release c :: ops' => '(b', _) ← BPM.UnpinPage c true b; access_all ops' b'
  end.

(** The frame of a pinned page after its holder stored [bytes] in the
    buffer ([Page::GetData] is a plain pointer into the frame). *)
Definition write_data (f : frame_id_t) (bytes : Data) (b : @BPM.BufferPoolManager Data)
  : option (@BPM.BufferPoolManager Data) :=
  page ← BPM.pages_ b !! f;
  Some (BPM.mkBPM (BPM.pool_size_ b)
          (<[f := BPM.mkPage (BPM.page_id_ page) (BPM.pin_count_ page)
                             (BPM.is_dirty_ page) bytes]> (BPM.pages_ b))
          (BPM.page_table_ b) (BPM.free_list_ b) (BPM.replacer_ b)
          (BPM.disk_manager_ b)).

(** Frames on the free list are clean and the page id they still carry
    is not a key of the page table (they carry [INVALID_PAGE_ID] unless a
    caller fetched that id). *)
Definition free_frames_blank (b : @BPM.BufferPoolManager Data) : Prop :=
  ∀ f page, f ∈ BPM.free_list_ b → BPM.pages_ b !! f = Some page →
    BPM.is_dirty_ page = false ∧ BPM.page_table_ b !! BPM.page_id_ page = None.

End Pool.
End Runs.

Module Order.

Section Order.
Context {KeyType ValueType : Type}.

(** A comparator is a three-way comparison when it returns -1, 0 or 1
    according to the order of the keys' ranks. *)
Definition three_way (comparator : KeyType → KeyType → Z) (rank : KeyType → Z) : Prop :=
  ∀ a b, comparator a b = IntegerComparator (rank a) (rank b).

Definition key_lt (rank : KeyType → Z) (x y : KeyType * ValueType) : Prop :=
  (rank (fst x) < rank (fst y))%Z.

#[global] Instance key_lt_dec (rank : KeyType → Z) : RelDecision (key_lt rank).
Proof. intros x y. unfold key_lt. apply _. Defined.

(** Keys strictly increasing from slot to slot. *)
Definition keys_increasing (rank : KeyType → Z) (l : list (KeyType * ValueType)) : Prop :=
  StronglySorted (key_lt rank) l.

(** The pairs whose key differs from [key]. *)
Definition without_key (rank : KeyType → Z) (key : KeyType)
    (l : list (KeyType * ValueType)) : list (KeyType * ValueType) :=
  filter (λ kv, rank (fst kv) ≠ rank key) l.

End Order.
End Order.

(* ===================================================================== *)
(** * Properties of the LRU replacer *)
(* ===================================================================== *)

Section LRUFacts.
Import LRU.

Lemma scan_spec f l : scan f l = true ↔ f ∈ l.
Proof.
  induction l as [|x l IH]; simpl.
  - split; [discriminate | intros H; inversion H].
  - case_decide as Hx.
    + subst. split; [intros _; left | done].
    + rewrite IH. split; [intros; by right|].
      intros H. inversion H; subst; [done | assumption].
Qed.

Lemma scan_false f l : scan f l = false ↔ f ∉ l.
Proof.
  rewrite <- scan_spec. destruct (scan f l); split; congruence.
Qed.

Lemma erase_first_subset f g l : g ∈ erase_first f l → g ∈ l.
Proof.
  induction l as [|x l IH]; simpl; [done|].
  case_decide; [by right|].
  intros Hg. inversion Hg; subst; [left | right; auto].
Qed.

Lemma erase_first_NoDup f l : NoDup l → NoDup (erase_first f l).
Proof.
  induction 1 as [|x l Hx Hl IH]; simpl; [constructor|].
  case_decide; [assumption|].
  constructor; [|assumption].
  intros Hx'. apply Hx. by eapply erase_first_subset.
Qed.

Lemma erase_first_not_elem f l : NoDup l → f ∉ erase_first f l.
Proof.
  induction 1 as [|x l Hx Hl IH]; simpl.
  - intros Hf; inversion Hf.
  - case_decide as E; [by subst|].
    intros Hf. inversion Hf; subst; [done | by apply IH].
Qed.


Lemma erase_first_absent f l : f ∉ l → erase_first f l = l.
Proof.
  induction l as [|x l IH]; simpl; [done|].
  intros Hf. case_decide as E.
  - subst. exfalso. apply Hf. left.
  - f_equal. apply IH. intros Hf'. apply Hf. by right.
Qed.

Lemma pop_back_snoc l x : pop_back (l ++ [x]) = l.
Proof.
  unfold pop_back. rewrite length_app. simpl.
  replace (length l + 1 - 1) with (length l) by lia.
  rewrite delete_middle. by rewrite app_nil_r.
Qed.

Lemma last_index_snoc (l : list frame_id_t) x :
  (l ++ [x]) !! (length (l ++ [x]) - 1) = Some x.
Proof.
  rewrite length_app. simpl.
  replace (length l + 1 - 1) with (length l) by lia.
  rewrite lookup_app_r by lia. by rewrite Nat.sub_diag.
Qed.

Lemma snoc_inv (l : list frame_id_t) :
  l = [] ∨ ∃ l' x, l = l' ++ [x].
Proof.
  induction l as [|a l IH] using rev_ind; [by left|].
  right. by exists l, a.
Qed.

(** [Victim] takes the last slot of the vector. *)
Lemma Victim_snoc c l x :
  Victim (mkLRU c (l ++ [x])) = (mkLRU c l, Some x).
Proof.
  unfold Victim. simpl.
  destruct (l ++ [x]) as [|y t] eqn:E.
  - by destruct l.
  - rewrite <- E. rewrite last_index_snoc.
    change (delete (length (l ++ [x]) - 1) (l ++ [x])) with (pop_back (l ++ [x])).
    by rewrite pop_back_snoc.
Qed.

Lemma Victim_nil c : Victim (mkLRU c []) = (mkLRU c [], None).
Proof. reflexivity. Qed.


Lemma Victim_Some r r' f :
  Victim r = (r', Some f) →
  buffer r = buffer r' ++ [f] ∧ capacity r' = capacity r.
Proof.
  destruct r as [c b]. destruct (snoc_inv b) as [->|(l & x & ->)].
  - rewrite Victim_nil. discriminate.
  - rewrite Victim_snoc. by intros [= <- <-].
Qed.

Lemma pop_back_subset g l : g ∈ pop_back l → g ∈ l.
Proof.
  destruct (snoc_inv l) as [->|(l' & x & ->)]; [done|].
  rewrite pop_back_snoc. intros H. apply elem_of_app. by left.
Qed.

Lemma pop_back_NoDup l : NoDup l → NoDup (pop_back l).
Proof.
  destruct (snoc_inv l) as [->|(l' & x & ->)]; [done|].
  rewrite pop_back_snoc. intros H. by apply NoDup_app in H as (? & _ & _).
Qed.

Lemma Unpin_capacity f r : capacity (Unpin f r) = capacity r.
Proof. unfold Unpin. destruct (scan f (buffer r)); [done|]. by case_decide. Qed.

Lemma Unpin_subset f g r : g ∈ buffer (Unpin f r) → g = f ∨ g ∈ buffer r.
Proof.
  unfold Unpin. destruct (scan f (buffer r)); [by right|].
  case_decide; simpl; intros Hg.
  - apply pop_back_subset in Hg. inversion Hg; subst; auto.
  - inversion Hg; subst; auto.
Qed.

Lemma Unpin_NoDup f r : NoDup (buffer r) → NoDup (buffer (Unpin f r)).
Proof.
  intros Hnd. unfold Unpin. destruct (scan f (buffer r)) eqn:E; [done|].
  apply scan_false in E.
  assert (NoDup (f :: buffer r)) by by constructor.
  case_decide; simpl; [by apply pop_back_NoDup | done].
Qed.

(** With room for one slot, the frame is in the vector after [Unpin]. *)
Lemma Unpin_elem f r : 1 ≤ capacity r → f ∈ buffer (Unpin f r).
Proof.
  intros Hc. unfold Unpin. destruct (scan f (buffer r)) eqn:E.
  - by apply scan_spec.
  - case_decide as Hlen; simpl; [|left].
    destruct (snoc_inv (buffer r)) as [Hb|(l' & x & Hb)]; rewrite Hb in *.
    + simpl in Hlen. lia.
    + change (f :: l' ++ [x]) with ((f :: l') ++ [x]).
      rewrite pop_back_snoc. left.
Qed.

Lemma Unpin_present f r : f ∈ buffer r → Unpin f r = r.
Proof. intros H. apply scan_spec in H. unfold Unpin. by rewrite H. Qed.

Lemma Unpin_fresh f r :
  f ∉ buffer r → length (buffer r) < capacity r →
  Unpin f r = mkLRU (capacity r) (f :: buffer r).
Proof.
  intros H Hlen. apply scan_false in H. unfold Unpin. rewrite H.
  case_decide as E; [simpl in E; lia | done].
Qed.

End LRUFacts.

(** C5, as stated, fails for a replacer of capacity 2: the third [Unpin]
    exceeds the capacity, so [Unpin] drops the least recent frame 1; the
    victims are then 2 and 3, and the third [Victim] call fails. *)
Lemma lru_three_unpins_capacity_two :
  let r0 := LRU.Unpin 3 (LRU.Unpin 2 (LRU.Unpin 1 (LRU.init 2))) in
  let r1 := fst (LRU.Victim r0) in
  let r2 := fst (LRU.Victim r1) in
  snd (LRU.Victim r0) = Some 2 ∧ snd (LRU.Victim r1) = Some 3 ∧
  snd (LRU.Victim r2) = None.
Proof. vm_compute. auto. Qed.

(** C5 (amended): starting from an empty LRU replacer whose capacity is at
    least 3, after [Unpin a; Unpin b; Unpin c] with [a], [b], [c] distinct,
    three successive [Victim] calls succeed and return [a], then [b], then
    [c]; and an [Unpin] of a frame that is already present leaves the
    replacer (contents and order) unchanged, hence also what [Victim]
    returns. *)
Theorem lru_unpin_victim_order (cap : nat) (a b c : frame_id_t) :
  3 ≤ cap → a ≠ b → a ≠ c → b ≠ c →
  (∃ r1 r2 r3,
     LRU.Victim (LRU.Unpin c (LRU.Unpin b (LRU.Unpin a (LRU.init cap)))) = (r1, Some a) ∧
     LRU.Victim r1 = (r2, Some b) ∧
     LRU.Victim r2 = (r3, Some c)) ∧
  (∀ r f, f ∈ LRU.buffer r →
     LRU.Unpin f r = r ∧ LRU.Victim (LRU.Unpin f r) = LRU.Victim r).
Proof.
  intros Hcap Hab Hac Hbc. split.
  - unfold LRU.init.
    rewrite (Unpin_fresh a); simpl; [|by inversion 1|lia].
    rewrite (Unpin_fresh b); simpl; [| |lia].
    2:{ intros H. inversion H as [|? ? ? H']; subst; [done|inversion H']. }
    rewrite (Unpin_fresh c); simpl; [| |lia].
    2:{ intros H. inversion H as [|? ? ? H']; subst; [done|].
        inversion H' as [|? ? ? H'']; subst; [done|inversion H'']. }
    exists (LRU.mkLRU cap [c; b]), (LRU.mkLRU cap [c]), (LRU.mkLRU cap []).
    split; [apply (Victim_snoc cap [c; b] a)|].
    split; [apply (Victim_snoc cap [c] b) | apply (Victim_snoc cap [] c)].
  - intros r f Hf. rewrite (Unpin_present f r Hf). done.
Qed.

Lemma lru_unpin_victim_order_witness :
  (∃ r1 r2 r3,
     LRU.Victim (LRU.Unpin 7 (LRU.Unpin 5 (LRU.Unpin 6 (LRU.init 3)))) = (r1, Some 6) ∧
     LRU.Victim r1 = (r2, Some 5) ∧
     LRU.Victim r2 = (r3, Some 7)) ∧
  (∀ r f, f ∈ LRU.buffer r →
     LRU.Unpin f r = r ∧ LRU.Victim (LRU.Unpin f r) = LRU.Victim r).
Proof. apply (lru_unpin_victim_order 3 6 5 7); lia. Defined.

(* ===================================================================== *)
(** * Properties of the buffer pool manager *)
(* ===================================================================== *)

Section BPMFacts.
Context {Data : Type}.
Variable zeroed : Data.
Import LRU Disk BPM.

Abbreviation pool := (@BufferPoolManager Data).

Lemma table_insert_Some p f (t : gmap Z nat) q g :
  table_insert p f t !! q = Some g → t !! q = Some g ∨ (q = p ∧ g = f).
Proof.
  unfold table_insert. destruct (t !! p) eqn:E; [auto|].
  rewrite lookup_insert. case_decide; [|auto].
  intros [= <-]. subst. auto.
Qed.

Lemma table_insert_fresh p f (t : gmap Z nat) :
  t !! p = None → table_insert p f t = <[p := f]> t.
Proof. unfold table_insert. by intros ->. Qed.

Lemma page_update_eq (l : list (@Page Data)) f pg pg' :
  l !! f = Some pg → <[f := pg']> l !! f = Some pg'.
Proof. intros H. apply list_lookup_insert_eq. by eapply lookup_lt_Some. Qed.

Lemma page_update_ne (l : list (@Page Data)) f g pg' :
  g ≠ f → <[f := pg']> l !! g = l !! g.
Proof. intros H. by apply list_lookup_insert_ne. Qed.

(** The invariant holds initially. *)
Lemma bpm_inv_init n d : bpm_inv (init zeroed n d).
Proof.
  split; simpl.
  - apply length_replicate.
  - reflexivity.
  - intros f Hf. inversion Hf.
  - constructor.
  - apply NoDup_seq.
  - intros f Hf. rewrite length_replicate. apply elem_of_seq in Hf. lia.
  - intros f _ Hf. inversion Hf.
  - intros p f Hp. by rewrite lookup_empty in Hp.
  - intros p f Hp. by rewrite lookup_empty in Hp.
Qed.

(** A frame taken from the free list or from the replacer is given a new
    page: the shape shared by the miss paths of [FetchPageImpl] and by
    [NewPageImpl]. *)
Lemma bpm_inv_install (b : pool) f pg' table' free' repl' disk' :
  bpm_inv b →
  f < length (pages_ b) →
  NoDup free' → (∀ g, g ∈ free' → g ∈ free_list_ b) → f ∉ free' →
  NoDup (buffer repl') → (∀ g, g ∈ buffer repl' → g ∈ buffer (replacer_ b)) →
  f ∉ buffer repl' → capacity repl' = capacity (replacer_ b) →
  (∀ p g, table' !! p = Some g →
     (page_table_ b !! p = Some g ∧ g ≠ f) ∨ (g = f ∧ page_id_ pg' = p)) →
  bpm_inv (mkBPM (pool_size_ b) (<[f := pg']> (pages_ b)) table' free' repl' disk').
Proof.
  intros [] Hf Hnd1 Hsub1 Hf1 Hnd2 Hsub2 Hf2 Hcap Htab.
  split; simpl; try done.
  - by rewrite length_insert.
  - congruence.
  - intros g Hg. destruct (inv_replacer_unpinned0 g (Hsub2 g Hg)) as (pg & Hpg & Hpin).
    exists pg. simpl. split; [|done]. rewrite page_update_ne; [done|]. by intros ->.
  - intros g Hg. rewrite length_insert. auto.
  - intros g Hg Hg'. by eapply inv_free_replacer0; eauto.
  - intros p g Hp Hg. destruct (Htab p g Hp) as [[Hold _]|[-> _]]; [|done].
    by eapply inv_table_free0; eauto.
  - intros p g Hp. destruct (Htab p g Hp) as [[Hold Hne]|[-> Hid]].
    + destruct (inv_table_page0 p g Hold) as (pg & Hpg & Hid).
      exists pg. by rewrite page_update_ne.
    + exists pg'. split; [|done].
      apply list_lookup_insert_eq. done.
Qed.

(** A frame that keeps its page is rewritten in place: the shape shared by
    the hit path of [FetchPageImpl], [UnpinPageImpl] and [FlushPageImpl]. *)
Lemma bpm_inv_update (b : pool) f pg pg' repl' disk' :
  bpm_inv b →
  pages_ b !! f = Some pg → page_id_ pg' = page_id_ pg →
  NoDup (buffer repl') → capacity repl' = capacity (replacer_ b) →
  (∀ g, g ∈ buffer repl' → g ≠ f → g ∈ buffer (replacer_ b)) →
  (f ∈ buffer repl' → pin_count_ pg' = 0%Z ∧ f ∉ free_list_ b) →
  bpm_inv (mkBPM (pool_size_ b) (<[f := pg']> (pages_ b)) (page_table_ b)
                 (free_list_ b) repl' disk').
Proof.
  intros [] Hpg Hid Hnd Hcap Hsub Hf.
  split; simpl; try done.
  - by rewrite length_insert.
  - congruence.
  - intros g Hg. destruct (decide (g = f)) as [->|Hne].
    + exists pg'. simpl. split; [by eapply page_update_eq | by apply Hf].
    + destruct (inv_replacer_unpinned0 g (Hsub g Hg Hne)) as (pg0 & Hpg0 & Hpin).
      exists pg0. simpl. by rewrite page_update_ne.
  - intros g Hg. rewrite length_insert. auto.
  - intros g Hg Hg'. destruct (decide (g = f)) as [->|Hne].
    + by apply Hf.
    + by eapply inv_free_replacer0; eauto.
  - intros p g Hp. destruct (decide (g = f)) as [->|Hne].
    + exists pg'. split; [by eapply page_update_eq|].
      destruct (inv_table_page0 p f Hp) as (pg0 & Hpg0 & Hid0). congruence.
    + destruct (inv_table_page0 p g Hp) as (pg0 & Hpg0 & Hid0).
      exists pg0. by rewrite page_update_ne.
Qed.

Lemma Pin_NoDup f r : NoDup (buffer r) → NoDup (buffer (Pin f r)).
Proof. apply erase_first_NoDup. Qed.

Lemma FetchPage_inv p (b b' : pool) r :
  bpm_inv b → FetchPage p b = Some (b', r) → bpm_inv b'.
Proof.
  intros Hinv. unfold FetchPage, FetchPageImpl.
  destruct (page_table_ b !! p) as [f|] eqn:Hp.
  - destruct (pages_ b !! f) as [pg|] eqn:Hpg; simpl; [|done].
    intros [= <- <-].
    eapply bpm_inv_update; eauto.
    + apply Pin_NoDup, Hinv.
    + intros g Hg _. exact (erase_first_subset f g _ Hg).
    + intros Hf. exfalso. simpl in Hf.
      eapply erase_first_not_elem; [apply Hinv | exact Hf].
  - destruct (free_list_ b) as [|f rest] eqn:Hfree.
    + destruct (Victim (replacer_ b)) as [repl' [f|]] eqn:Hv; [|by intros [= <- <-]].
      destruct (pages_ b !! f) as [pg|] eqn:Hpg; simpl; [|done].
      intros [= <- <-].
      apply Victim_Some in Hv as [Hbuf Hcap].
      pose proof (inv_replacer_nodup b Hinv) as Hnd. rewrite Hbuf in Hnd.
      apply NoDup_app in Hnd as (Hnd1 & Hnd2 & _).
      apply bpm_inv_install.
      * done.
      * by eapply lookup_lt_Some.
      * constructor.
      * intros g Hg. inversion Hg.
      * intros Hg. inversion Hg.
      * done.
      * intros g Hg. rewrite Hbuf. apply elem_of_app. by left.
      * intros Hf. apply (Hnd2 f Hf). left.
      * done.
      * intros q g Hq. apply table_insert_Some in Hq as [Hq|[-> ->]]; [|by right].
        left. rewrite lookup_delete in Hq. case_decide as Hne; [done|].
        split; [done|]. intros ->.
        destruct (inv_table_page b Hinv q f Hq) as (pg0 & Hpg0 & Hid). congruence.
    + destruct (pages_ b !! f) as [pg|] eqn:Hpg; simpl; [|done].
      intros [= <- <-].
      pose proof (inv_free_nodup b Hinv) as Hnd. rewrite Hfree in Hnd.
      apply NoDup_cons in Hnd as [Hf Hnd].
      apply bpm_inv_install.
      * done.
      * by eapply lookup_lt_Some.
      * done.
      * intros g Hg. rewrite Hfree. by right.
      * done.
      * apply Hinv.
      * done.
      * intros Hf'. eapply (inv_free_replacer b Hinv f); [|done]. rewrite Hfree. left.
      * done.
      * intros q g Hq. apply table_insert_Some in Hq as [Hq|[-> ->]]; [|by right].
        left. split; [done|]. intros ->.
        eapply (inv_table_free b Hinv q f Hq). rewrite Hfree. left.
Qed.

Lemma UnpinPage_inv p d (b b' : pool) r :
  bpm_inv b → UnpinPage p d b = Some (b', r) → bpm_inv b'.
Proof.
  intros Hinv. unfold UnpinPage, UnpinPageImpl.
  destruct (page_table_ b !! p) as [f|] eqn:Hp; [|by intros [= <- <-]].
  destruct (pages_ b !! f) as [pg|] eqn:Hpg; simpl; [|done].
  case_decide as Hpin; [by intros [= <- <-]|].
  intros [= <- <-].
  eapply bpm_inv_update; [done|exact Hpg|done|..].
  - case_decide; [apply Unpin_NoDup|]; apply Hinv.
  - case_decide; [apply Unpin_capacity|done].
  - intros g Hg Hne. case_decide; [|done].
    apply Unpin_subset in Hg as [->|Hg]; done.
  - intros Hf. simpl. case_decide as Hz.
    + split; [done|]. by eapply inv_table_free.
    + destruct (inv_replacer_unpinned b Hinv f Hf) as (pg0 & Hpg0 & Hpin0).
      rewrite Hpg in Hpg0. injection Hpg0 as <-. lia.
Qed.

Lemma FlushPage_inv p (b b' : pool) r :
  bpm_inv b → FlushPage p b = Some (b', r) → bpm_inv b'.
Proof.
  intros Hinv. unfold FlushPage, FlushPageImpl.
  destruct (page_table_ b !! p) as [f|] eqn:Hp; [|by intros [= <- <-]].
  destruct (pages_ b !! f) as [pg|] eqn:Hpg; simpl; [|done].
  intros [= <- <-].
  eapply bpm_inv_update; [done|exact Hpg|done|apply Hinv|done|done|].
  intros Hf. simpl.
  destruct (inv_replacer_unpinned b Hinv f Hf) as (pg0 & Hpg0 & Hpin0).
  rewrite Hpg in Hpg0. injection Hpg0 as <-.
  split; [done|]. by eapply inv_table_free.
Qed.

Lemma install_new_page_inv (b b' : pool) f free' repl' out r :
  bpm_inv b →
  NoDup free' → (∀ g, g ∈ free' → g ∈ free_list_ b) → f ∉ free' →
  NoDup (buffer repl') → (∀ g, g ∈ buffer repl' → g ∈ buffer (replacer_ b)) →
  f ∉ buffer repl' → capacity repl' = capacity (replacer_ b) →
  f ∈ free_list_ b ∨ f ∈ buffer (replacer_ b) →
  install_new_page zeroed f free' repl' b = Some (b', out, r) → bpm_inv b'.
Proof.
  intros Hinv Hnd1 Hsub1 Hf1 Hnd2 Hsub2 Hf2 Hcap Hwhere.
  unfold install_new_page.
  destruct (pages_ b !! f) as [pg|] eqn:Hpg; simpl; [|done].
  intros [= <- <- <-].
  apply bpm_inv_install; try done.
  - by eapply lookup_lt_Some.
  - intros q g Hq. apply table_insert_Some in Hq as [Hq|[-> ->]]; [|by right].
    left. rewrite lookup_delete in Hq. case_decide as Hne; [done|].
    split; [done|]. intros ->.
    destruct Hwhere as [Hfree|Hrepl].
    + by eapply (inv_table_free b Hinv q f Hq).
    + destruct (inv_table_page b Hinv q f Hq) as (pg0 & Hpg0 & Hid). congruence.
Qed.

Lemma NewPage_inv out (b b' : pool) out' r :
  bpm_inv b → NewPage zeroed out b = Some (b', out', r) → bpm_inv b'.
Proof.
  intros Hinv. unfold NewPage, NewPageImpl.
  destruct (free_list_ b) as [|f rest] eqn:Hfree.
  - destruct (Victim (replacer_ b)) as [repl' [f|]] eqn:Hv; [|by intros [= <- <- <-]].
    apply Victim_Some in Hv as [Hbuf Hcap].
    pose proof (inv_replacer_nodup b Hinv) as Hnd. rewrite Hbuf in Hnd.
    apply NoDup_app in Hnd as (Hnd1 & Hnd2 & _).
    apply install_new_page_inv.
    + done.
    + constructor.
    + intros g Hg. inversion Hg.
    + intros Hg. inversion Hg.
    + done.
    + intros g Hg. rewrite Hbuf. apply elem_of_app. by left.
    + intros Hf. apply (Hnd2 f Hf). left.
    + done.
    + right. rewrite Hbuf. apply elem_of_app. right. left.
  - pose proof (inv_free_nodup b Hinv) as Hnd. rewrite Hfree in Hnd.
    apply NoDup_cons in Hnd as [Hf Hnd].
    apply install_new_page_inv.
    + done.
    + done.
    + intros g Hg. rewrite Hfree. by right.
    + done.
    + apply Hinv.
    + done.
    + intros Hf'. eapply (inv_free_replacer b Hinv f); [|done]. rewrite Hfree. left.
    + done.
    + left. rewrite Hfree. left.
Qed.

Lemma DeletePage_inv p (b b' : pool) r :
  bpm_inv b → DeletePage zeroed p b = Some (b', r) → bpm_inv b'.
Proof.
  intros Hinv. unfold DeletePage, DeletePageImpl.
  destruct (page_table_ b !! p) as [f|] eqn:Hp; [|by intros [= <- <-]].
  destruct (pages_ b !! f) as [pg|] eqn:Hpg; simpl; [|done].
  case_decide as Hpin; [by intros [= <- <-]|].
  intros [= <- <-].
  assert (Hid : page_id_ pg = p).
  { destruct (inv_table_page b Hinv p f Hp) as (pg0 & Hpg0 & Hid). congruence. }
  assert (Hother : ∀ q g, delete p (page_table_ b) !! q = Some g →
                          page_table_ b !! q = Some g ∧ g ≠ f).
  { intros q g Hq. rewrite lookup_delete in Hq. case_decide as Hne; [done|].
    split; [done|]. intros ->.
    destruct (inv_table_page b Hinv q f Hq) as (pg0 & Hpg0 & Hid0). congruence. }
  destruct Hinv. split; simpl; try done.
  - by rewrite length_insert.
  - intros g Hg. pose proof (erase_first_subset _ _ _ Hg) as Hg'.
    destruct (inv_replacer_unpinned0 g Hg') as (pg0 & Hpg0 & Hpin0).
    exists pg0. simpl. split; [|done]. rewrite page_update_ne; [done|].
    intros ->. exact (erase_first_not_elem _ _ inv_replacer_nodup0 Hg).
  - by apply erase_first_NoDup.
  - apply NoDup_app. split; [done|]. split; [|apply NoDup_singleton].
    intros g Hg Hg'. apply list_elem_of_singleton in Hg' as ->.
    by eapply inv_table_free0.
  - intros g Hg. rewrite length_insert. apply elem_of_app in Hg as [Hg|Hg]; [auto|].
    apply list_elem_of_singleton in Hg as ->. by eapply lookup_lt_Some.
  - intros g Hg Hg'. apply elem_of_app in Hg as [Hg|Hg].
    + eapply inv_free_replacer0; [done|]. exact (erase_first_subset _ _ _ Hg').
    + apply list_elem_of_singleton in Hg as ->.
      exact (erase_first_not_elem _ _ inv_replacer_nodup0 Hg').
  - intros q g Hq Hg. apply Hother in Hq as [Hq Hne].
    apply elem_of_app in Hg as [Hg|Hg].
    + by eapply inv_table_free0.
    + by apply list_elem_of_singleton in Hg.
  - intros q g Hq. apply Hother in Hq as [Hq Hne].
    destruct (inv_table_page0 q g Hq) as (pg0 & Hpg0 & Hid0).
    exists pg0. by rewrite page_update_ne.
Qed.

(** Every operation that returns preserves the invariant. *)
Lemma step_inv op (b b' : pool) :
  bpm_inv b → step zeroed op b = Some b' → bpm_inv b'.
Proof.
  intros Hinv. destruct op as [p|p d|out|p|p]; simpl; intros Hs;
    apply fmap_Some in Hs as (r & Hr & ->).
  - destruct r. by eapply FetchPage_inv.
  - destruct r. by eapply UnpinPage_inv.
  - destruct r as [[? ?] ?]. by eapply NewPage_inv.
  - destruct r. by eapply DeletePage_inv.
  - destruct r. by eapply FlushPage_inv.
Qed.

(** Under the invariant no operation leaves the frame array: every
    operation returns. *)
Lemma step_total op (b : pool) : bpm_inv b → is_Some (step zeroed op b).
Proof.
  intros Hinv.
  assert (Htab : ∀ p f, page_table_ b !! p = Some f → is_Some (pages_ b !! f)).
  { intros p f Hp. destruct (inv_table_page b Hinv p f Hp) as (pg & -> & _). by eexists. }
  assert (Hfree : ∀ f rest, free_list_ b = f :: rest → is_Some (pages_ b !! f)).
  { intros f rest Hf. apply lookup_lt_is_Some_2, (inv_free_range b Hinv).
    rewrite Hf. left. }
  assert (Hvic : ∀ r f, Victim (replacer_ b) = (r, Some f) → is_Some (pages_ b !! f)).
  { intros r f Hv. apply Victim_Some in Hv as [Hbuf _].
    destruct (inv_replacer_unpinned b Hinv f) as (pg & -> & _); [|by eexists].
    rewrite Hbuf. apply elem_of_app. right. left. }
  destruct op as [p|p d|out|p|p]; simpl; apply fmap_is_Some.
  - unfold FetchPage, FetchPageImpl.
    destruct (page_table_ b !! p) as [f|] eqn:Hp.
    + destruct (Htab p f Hp) as [pg ->]. by eexists.
    + destruct (free_list_ b) as [|f rest] eqn:Hf.
      * destruct (Victim (replacer_ b)) as [r [f|]] eqn:Hv; [|by eexists].
        destruct (Hvic r f eq_refl) as [pg ->]. by eexists.
      * destruct (Hfree f rest eq_refl) as [pg ->]. by eexists.
  - unfold UnpinPage, UnpinPageImpl.
    destruct (page_table_ b !! p) as [f|] eqn:Hp; [|by eexists].
    destruct (Htab p f Hp) as [pg ->]. simpl. case_decide; by eexists.
  - unfold NewPage, NewPageImpl, install_new_page.
    destruct (free_list_ b) as [|f rest] eqn:Hf.
    + destruct (Victim (replacer_ b)) as [r [f|]] eqn:Hv; [|by eexists].
      destruct (Hvic r f eq_refl) as [pg ->]. by eexists.
    + destruct (Hfree f rest eq_refl) as [pg ->]. by eexists.
  - unfold DeletePage, DeletePageImpl.
    destruct (page_table_ b !! p) as [f|] eqn:Hp; [|by eexists].
    destruct (Htab p f Hp) as [pg ->]. simpl. case_decide; by eexists.
  - unfold FlushPage, FlushPageImpl.
    destruct (page_table_ b !! p) as [f|] eqn:Hp; [|by eexists].
    destruct (Htab p f Hp) as [pg ->]. by eexists.
Qed.

Lemma reachable_inv n d (b : pool) : reachable zeroed n d b → bpm_inv b.
Proof.
  induction 1 as [|b op b' _ IH Hs].
  - apply bpm_inv_init.
  - by eapply step_inv.
Qed.

End BPMFacts.

(** C3: in every buffer-pool state reachable from the initial state by
    FetchPage, UnpinPage, NewPage, DeletePage and FlushPage operations,
    every frame in the replacer has pin count 0. *)
Theorem replacer_frames_unpinned {Data : Type} (zeroed : Data) (pool_size : nat)
    (disk : Disk.DiskManager Data) (b : BPM.BufferPoolManager) :
  BPM.reachable zeroed pool_size disk b →
  ∀ f, f ∈ LRU.buffer (BPM.replacer_ b) →
    ∃ page, BPM.pages_ b !! f = Some page ∧ BPM.pin_count_ page = 0%Z.
Proof.
  intros Hr f Hf. apply reachable_inv in Hr.
  exact (BPM.inv_replacer_unpinned b Hr f Hf).
Qed.

Lemma reachable_run {Data : Type} (zeroed : Data) n d ops (b b' : BPM.BufferPoolManager) :
  BPM.reachable zeroed n d b → BPM.run zeroed ops b = Some b' →
  BPM.reachable zeroed n d b'.
Proof.
  revert b. induction ops as [|op ops IH]; simpl; intros b Hb Hrun.
  - by injection Hrun as <-.
  - destruct (BPM.step zeroed op b) as [b1|] eqn:Hs; simpl in Hrun; [|done].
    eapply IH; [|exact Hrun]. by eapply BPM.reachable_step.
Qed.

Lemma replacer_frames_unpinned_witness :
  ∃ page, BPM.pages_ Scenario.one_unpinned !! 0 = Some page ∧
          BPM.pin_count_ page = 0%Z.
Proof.
  apply (replacer_frames_unpinned tt 2 Scenario.disk0 Scenario.one_unpinned).
  - apply (reachable_run tt 2 Scenario.disk0
             [BPM.OpNewPage 0%Z; BPM.OpUnpinPage 0%Z false] _ _
             (BPM.reachable_init tt 2 Scenario.disk0)).
    vm_compute. reflexivity.
  - vm_compute. left.
Defined.


(** C6: [UnpinPage(page_id, hint)] returns true and changes nothing when
    [page_id] is absent from the page table; returns false and changes
    nothing when the mapped frame has [pin_count <= 0]; otherwise it
    decrements [pin_count] by exactly 1, adds the frame to the replacer
    exactly when the new pin count is 0, sets [is_dirty] to
    [old is_dirty || hint] and returns true.  The replacer's capacity is
    the pool size, as the constructor sets it. *)
Theorem unpin_page_cases {Data : Type} (b : @BPM.BufferPoolManager Data)
    (page_id : page_id_t) (hint : bool) :
  (BPM.page_table_ b !! page_id = None →
     BPM.UnpinPage page_id hint b = Some (b, true)) ∧
  (∀ f page,
     BPM.page_table_ b !! page_id = Some f → BPM.pages_ b !! f = Some page →
     ((BPM.pin_count_ page ≤ 0)%Z →
        BPM.UnpinPage page_id hint b = Some (b, false)) ∧
     ((0 < BPM.pin_count_ page)%Z →
      LRU.capacity (BPM.replacer_ b) = length (BPM.pages_ b) →
        ∃ b', BPM.UnpinPage page_id hint b = Some (b', true) ∧
          BPM.pages_ b' =
            <[f := BPM.mkPage (BPM.page_id_ page) (BPM.pin_count_ page - 1)
                              (BPM.is_dirty_ page || hint) (BPM.data_ page)]>
              (BPM.pages_ b) ∧
          BPM.pool_size_ b' = BPM.pool_size_ b ∧
          BPM.page_table_ b' = BPM.page_table_ b ∧
          BPM.free_list_ b' = BPM.free_list_ b ∧
          BPM.disk_manager_ b' = BPM.disk_manager_ b ∧
          ((BPM.pin_count_ page - 1 = 0)%Z →
             BPM.replacer_ b' = LRU.Unpin f (BPM.replacer_ b) ∧
             f ∈ LRU.buffer (BPM.replacer_ b')) ∧
          ((BPM.pin_count_ page - 1 ≠ 0)%Z →
             BPM.replacer_ b' = BPM.replacer_ b))).
Proof.
  unfold BPM.UnpinPage, BPM.UnpinPageImpl. split.
  - by intros ->.
  - intros f page -> Hpg. rewrite Hpg. simpl. split.
    + intros Hpin. by case_decide.
    + intros Hpin Hcap. case_decide; [lia|].
      eexists. split; [reflexivity|]. simpl.
      split; [by destruct (BPM.is_dirty_ page), hint|].
      do 4 (split; [done|]).
      split; intros Hz; case_decide; try done.
      split; [done|]. apply Unpin_elem.
      apply lookup_lt_Some in Hpg. lia.
Qed.

Lemma unpin_page_cases_witness :
  ∃ b', BPM.UnpinPage 0%Z true Scenario.one_pinned = Some (b', true) ∧
    BPM.pages_ b' =
      <[0 := BPM.mkPage 0%Z (1 - 1) (false || true) tt]>
        (BPM.pages_ Scenario.one_pinned) ∧
    BPM.pool_size_ b' = BPM.pool_size_ Scenario.one_pinned ∧
    BPM.page_table_ b' = BPM.page_table_ Scenario.one_pinned ∧
    BPM.free_list_ b' = BPM.free_list_ Scenario.one_pinned ∧
    BPM.disk_manager_ b' = BPM.disk_manager_ Scenario.one_pinned ∧
    ((1 - 1 = 0)%Z →
       BPM.replacer_ b' = LRU.Unpin 0 (BPM.replacer_ Scenario.one_pinned) ∧
       0 ∈ LRU.buffer (BPM.replacer_ b')) ∧
    ((1 - 1 ≠ 0)%Z → BPM.replacer_ b' = BPM.replacer_ Scenario.one_pinned).
Proof.
  apply (proj2 (unpin_page_cases Scenario.one_pinned 0%Z true) 0
               (BPM.mkPage 0%Z 1 false tt)).
  - vm_compute. reflexivity.
  - vm_compute. reflexivity.
  - simpl. lia.
  - vm_compute. reflexivity.
Defined.

(** C10: when [NewPage] fails (free list empty and the replacer yields no
    victim) it returns null and leaves the buffer pool exactly as it was:
    page table, free list, replacer, every frame, and the disk manager
    with its allocation counter and its history of calls (so
    [AllocatePage] was not called); the output parameter keeps its
    value. *)
Theorem new_page_failure_no_effect {Data : Type} (zeroed : Data)
    (b : @BPM.BufferPoolManager Data) (out : page_id_t) :
  BPM.free_list_ b = [] → snd (LRU.Victim (BPM.replacer_ b)) = None →
  BPM.NewPage zeroed out b = Some (b, out, None) ∧
  ∀ b' out' r, BPM.NewPage zeroed out b = Some (b', out', r) →
    Disk.calls (BPM.disk_manager_ b') = Disk.calls (BPM.disk_manager_ b) ∧
    Disk.next_page_id (BPM.disk_manager_ b') = Disk.next_page_id (BPM.disk_manager_ b).
Proof.
  intros Hfree Hv.
  assert (H : BPM.NewPage zeroed out b = Some (b, out, None)).
  { unfold BPM.NewPage, BPM.NewPageImpl. rewrite Hfree.
    destruct (LRU.Victim (BPM.replacer_ b)) as [r [f|]]; simpl in *; done. }
  split; [done|]. intros b' out' r. rewrite H. by intros [= <- <- <-].
Qed.

Lemma new_page_failure_no_effect_witness :
  BPM.NewPage tt 42%Z Scenario.all_pinned = Some (Scenario.all_pinned, 42%Z, None) ∧
  ∀ b' out' r, BPM.NewPage tt 42%Z Scenario.all_pinned = Some (b', out', r) →
    Disk.calls (BPM.disk_manager_ b') = Disk.calls (BPM.disk_manager_ Scenario.all_pinned) ∧
    Disk.next_page_id (BPM.disk_manager_ b') =
      Disk.next_page_id (BPM.disk_manager_ Scenario.all_pinned).
Proof.
  apply (new_page_failure_no_effect tt Scenario.all_pinned 42%Z).
  - vm_compute. reflexivity.
  - vm_compute. reflexivity.
Defined.

(* ===================================================================== *)
(** * Properties of slot arrays *)
(* ===================================================================== *)

Section SlotFacts.
Context {T : Type}.
Import Tree.
Implicit Types (a : list T) (x : T).

Lemma slot_at_nat a (n : nat) : slot_at a (Z.of_nat n) = a !! n.
Proof.
  unfold slot_at. case_decide; [|lia]. by rewrite Nat2Z.id.
Qed.

Lemma slot_store_nat a (n : nat) x :
  n < length a → slot_store a (Z.of_nat n) x = Some (<[n := x]> a).
Proof.
  intros Hn. unfold slot_store. case_decide; [|lia]. by rewrite Nat2Z.id.
Qed.

(** Appending: [InsertAt(GetSize(), pair)] shifts nothing and writes slot
    [size]. *)
Lemma insert_slot_end a (n : nat) x :
  n < length a →
  insert_slot (Z.of_nat n) (Z.of_nat n) x a = Some (<[n := x]> a).
Proof.
  intros Hn. unfold insert_slot. rewrite Z.sub_diag.
  change (Z.to_nat 0) with 0.
  assert (Hsh : shift_right 0 (Z.of_nat n) (Z.of_nat n) a = Some a).
  { simpl. case_decide; [lia|done]. }
  rewrite Hsh. case_decide; simpl; by apply slot_store_nat.
Qed.

Lemma live_nat (n : nat) a : live (Z.of_nat n) a = take n a.
Proof. unfold live. by rewrite Nat2Z.id. Qed.

Lemma live_snoc a (n : nat) x :
  n < length a → take (S n) (<[n := x]> a) = take n a ++ [x].
Proof.
  intros Hn. rewrite (take_S_r _ _ x) by by apply list_lookup_insert_eq.
  by rewrite take_insert_ge.
Qed.

(** The left-shifting loop: slots [i .. bound) receive their right
    neighbours, every other slot keeps its content. *)
Lemma shift_left_spec fuel : ∀ (i bound : nat) a,
  bound - i ≤ fuel → bound < length a →
  ∃ a', shift_left fuel (Z.of_nat i) (Z.of_nat bound) a = Some a' ∧
        length a' = length a ∧
        ∀ j, a' !! j = if decide (i ≤ j < bound) then a !! S j else a !! j.
Proof.
  induction fuel as [|fuel IH]; intros i bound a Hfuel Hlen.
  - exists a. simpl. case_decide; [lia|]. split; [done|]. split; [done|].
    intros j. case_decide; [lia|done].
  - simpl. case_decide as Hi.
    + assert (Hi' : i < bound) by lia.
      replace (Z.of_nat i + 1)%Z with (Z.of_nat (S i)) by lia.
      rewrite slot_at_nat.
      destruct (lookup_lt_is_Some_2 a (S i)) as [x Hx]; [lia|].
      rewrite Hx. simpl. rewrite slot_store_nat by lia. simpl.
      destruct (IH (S i) bound (<[i := x]> a)) as (a' & Ha' & Hl & Hj).
      { lia. } { by rewrite length_insert. }
      exists a'. split; [done|]. split; [by rewrite Hl, length_insert|].
      intros j. rewrite Hj. repeat case_decide; try lia.
      * by rewrite list_lookup_insert_ne by lia.
      * assert (j = i) as -> by lia. rewrite Hx. apply list_lookup_insert_eq. lia.
      * by rewrite list_lookup_insert_ne by lia.
    + exists a. split; [done|]. split; [done|].
      intros j. case_decide; [lia|done].
Qed.

(** Removing slot 0 of [S m] live slots leaves the other [m], in order. *)
Lemma remove_slot_first a (m : nat) :
  S m ≤ length a →
  ∃ a', remove_slot (Z.of_nat (S m)) 0 a = Some a' ∧
        length a' = length a ∧
        take m a' = drop 1 (take (S m) a).
Proof.
  intros Hlen. unfold remove_slot.
  replace (Z.of_nat (S m) - 1 - 0)%Z with (Z.of_nat m) by lia.
  replace (Z.of_nat (S m) - 1)%Z with (Z.of_nat m) by lia.
  rewrite Nat2Z.id.
  destruct (shift_left_spec m 0 m a) as (a' & Ha' & Hl & Hj); [lia|lia|].
  exists a'. change 0%Z with (Z.of_nat 0). split; [done|]. split; [done|].
  apply list_eq. intros j. rewrite lookup_drop. simpl.
  destruct (decide (j < m)) as [Hlt|Hge].
  - rewrite !lookup_take_lt by lia. rewrite Hj. case_decide; [done|lia].
  - by rewrite !lookup_take_ge by lia.
Qed.

End SlotFacts.

(* ===================================================================== *)
(** * Properties of the leaf page *)
(* ===================================================================== *)

Section LeafFacts.
Context {KeyType ValueType : Type}.
Import Tree Leaf.
Implicit Types (p : @LeafPage KeyType ValueType).

Lemma SetSize_same h : SetSize (size_ h) h = h.
Proof. by destruct h. Qed.

Lemma leaf_InsertAt_end p (n : nat) x :
  GetSize p = Z.of_nat n → n < length (array p) →
  InsertAt (GetSize p) x p =
    Some (mkLeaf (IncreaseSize 1 (header p)) (next_page_id_ p) (<[n := x]> (array p))).
Proof.
  intros Hn Hlen. unfold InsertAt. rewrite Hn.
  by rewrite insert_slot_end.
Qed.

(** [CopyNFrom] appends [items[i .. i+k)] to the live slots. *)
Lemma leaf_CopyNFrom_loop_spec (k : nat) :
  ∀ fuel (i : nat) (size : Z) (items : list (KeyType * ValueType)) (off : nat) p (n : nat),
  k ≤ fuel → size = Z.of_nat (i + k) → off + i + k ≤ length items →
  GetSize p = Z.of_nat n → n + k ≤ length (array p) →
  ∃ p', CopyNFrom_loop fuel (Z.of_nat i) size items (Z.of_nat off) p = Some p' ∧
        header p' = SetSize (Z.of_nat (n + k)) (header p) ∧
        next_page_id_ p' = next_page_id_ p ∧
        length (array p') = length (array p) ∧
        take (n + k) (array p') = take n (array p) ++ take k (drop (off + i) items).
Proof.
  induction k as [|k IH]; intros fuel i size items off p n Hfuel Hsize Hitems Hn Hlen.
  - exists p. destruct fuel; simpl; (case_decide; [lia|]);
      rewrite Nat.add_0_r, <- Hn; unfold GetSize; rewrite SetSize_same;
      by rewrite app_nil_r.
  - destruct fuel as [|fuel]; [lia|]. simpl. case_decide; [|lia].
    replace (Z.of_nat off + Z.of_nat i)%Z with (Z.of_nat (off + i)) by lia.
    rewrite slot_at_nat.
    destruct (lookup_lt_is_Some_2 items (off + i)) as [x Hx]; [lia|].
    rewrite Hx. simpl. rewrite (leaf_InsertAt_end p n x) by (done || lia). simpl.
    replace (Z.of_nat i + 1)%Z with (Z.of_nat (S i)) by lia.
    edestruct (IH fuel (S i) size items off
                 (mkLeaf (IncreaseSize 1 (header p)) (next_page_id_ p) (<[n := x]> (array p)))
                 (S n)) as (p' & Hp' & Hh & Hnx & Hl & Ht).
    { lia. } { lia. } { lia. }
    { unfold GetSize in *. simpl. lia. }
    { simpl. rewrite length_insert. lia. }
    exists p'. split; [done|]. simpl in *.
    split; [|split; [done|split; [by rewrite Hl, length_insert|]]].
    + rewrite Hh. unfold IncreaseSize, SetSize. simpl. f_equal. lia.
    + replace (n + S k) with (S (n + k)) by lia. rewrite Ht.
      rewrite live_snoc by lia. rewrite <- app_assoc. f_equal. simpl.
      rewrite (drop_S _ _ _ Hx). simpl. do 2 f_equal. f_equal. lia.
Qed.

(** [MoveHalfTo] on any two distinct leaf pages with room in the
    recipient. *)
Lemma leaf_MoveHalfTo_spec (this recipient : @LeafPage KeyType ValueType) :
  (0 ≤ GetSize this)%Z → (GetSize this ≤ Z.of_nat (length (array this)))%Z →
  (0 ≤ GetSize recipient)%Z →
  (GetSize recipient + GetSize this / 2 ≤ Z.of_nat (length (array recipient)))%Z →
  ∃ this' recipient',
    MoveHalfTo this recipient = Some (this', recipient') ∧
    entries recipient' =
      entries recipient ++ drop (Z.to_nat (GetSize this - GetSize this / 2)) (entries this) ∧
    length (drop (Z.to_nat (GetSize this - GetSize this / 2)) (entries this)) =
      Z.to_nat (GetSize this / 2) ∧
    GetSize recipient' = (GetSize recipient + GetSize this / 2)%Z ∧
    GetSize this' = (GetSize this - GetSize this / 2)%Z ∧
    entries this' = take (Z.to_nat (GetSize this - GetSize this / 2)) (entries this).
Proof.
  intros Hs Hcap Hr Hroom. unfold MoveHalfTo, CopyNFrom.
  rewrite Z.quot_div_nonneg by lia.
  set (s := GetSize this) in *. set (h := (s / 2)%Z) in *.
  assert (Hh : (0 ≤ h ≤ s)%Z).
  { subst h. clearbody s. Z.to_euclidean_division_equations. lia. }
  destruct (leaf_CopyNFrom_loop_spec (Z.to_nat h) (Z.to_nat h) 0 h (array this)
              (Z.to_nat (s - h)) recipient (Z.to_nat (GetSize recipient)))
    as (r' & Hr' & Hhd & _ & Hl & Ht); try lia.
  change 0%Z with (Z.of_nat 0).
  rewrite (Z2Nat.id (s - h)) in Hr' by lia.
  rewrite Hr'. simpl. eexists _, r'. split; [done|].
  unfold entries, live, GetSize in *. simpl. rewrite Hhd. simpl.
  fold s. fold h.
  assert (Hdrop : drop (Z.to_nat (s - h)) (take (Z.to_nat s) (array this)) =
                  take (Z.to_nat h) (drop (Z.to_nat (s - h) + 0) (array this))).
  { rewrite Nat.add_0_r, take_drop_commute. do 2 f_equal. lia. }
  split; [|split; [|split; [lia|split; [lia|]]]].
  - rewrite Nat2Z.id, Ht. by rewrite Hdrop.
  - rewrite length_drop, length_take. lia.
  - rewrite take_take. f_equal. lia.
Qed.

(** The traced functions compute what the plain ones compute. *)
Section Erasure.
Variable comparator : KeyType → KeyType → Z.

Lemma KeyIndex_loop_reads_erase fuel key (a : list (KeyType * ValueType)) :
  ∀ left right,
  fst <$> KeyIndex_loop_reads comparator fuel key a left right =
  KeyIndex_loop comparator fuel key a left right.
Proof.
  induction fuel as [|fuel IH]; intros left right; simpl.
  - by case_decide.
  - case_decide; [|done].
    destruct (slot_at a _) as [kv|]; simpl; [|done].
    case_decide.
    + rewrite <- IH. by destruct (KeyIndex_loop_reads _ _ _ _ _ _) as [[? ?]|].
    + case_decide; [|done].
      rewrite <- IH. by destruct (KeyIndex_loop_reads _ _ _ _ _ _) as [[? ?]|].
Qed.

Lemma shift_right_reads_erase fuel :
  ∀ i index (a' : list (KeyType * ValueType)),
  fst <$> shift_right_reads fuel i index a' = shift_right fuel i index a'.
Proof.
  induction fuel as [|fuel IH]; intros i index a'; simpl.
  - by case_decide.
  - case_decide; [|done].
    destruct (slot_at a' _) as [x|]; simpl; [|done].
    destruct (slot_store a' i x) as [a1|]; simpl; [|done].
    rewrite <- IH. by destruct (shift_right_reads _ _ _ _) as [[? ?]|].
Qed.

Lemma Insert_reads_erase key value p :
  fst <$> Insert_reads comparator key value p = Insert comparator key value p.
Proof.
  unfold Insert_reads, Insert, KeyIndex.
  rewrite <- KeyIndex_loop_reads_erase.
  destruct (KeyIndex_loop_reads _ _ _ _ _ _) as [[index t1]|]; simpl; [|done].
  destruct (KeyAt index p) as [k|]; simpl; [|done].
  case_decide; [done|].
  unfold InsertAt, insert_slot.
  case_decide.
  - rewrite <- shift_right_reads_erase.
    destruct (shift_right_reads _ _ _ _) as [[a1 t2]|]; simpl; [|done].
    by destruct (slot_store a1 index (key, value)).
  - simpl. by destruct (slot_store (array p) index (key, value)).
Qed.

(** The binary search of [KeyIndex] ends within its fuel and returns an
    index of [0 .. size]. *)
Lemma KeyIndex_loop_total fuel key (a : list (KeyType * ValueType)) :
  ∀ left right,
  (0 ≤ left)%Z → (right < Z.of_nat (length a))%Z → (right - left + 1 ≤ Z.of_nat fuel)%Z →
  ∃ i, KeyIndex_loop comparator fuel key a left right = Some i ∧
       (left ≤ i)%Z ∧ (i ≤ Z.max left (right + 1))%Z.
Proof.
  induction fuel as [|fuel IH]; intros left right Hl Hr Hfuel; simpl.
  - case_decide; [lia|]. exists left. split; [done|lia].
  - case_decide as Hlr; [|exists left; split; [done|lia]].
    assert (Hmid : (left ≤ left + (right - left) ÷ 2 ≤ right)%Z).
    { rewrite Z.quot_div_nonneg by lia.
      Z.to_euclidean_division_equations. lia. }
    set (mid := (left + (right - left) ÷ 2)%Z) in *.
    unfold slot_at. case_decide; [|lia].
    destruct (lookup_lt_is_Some_2 a (Z.to_nat mid)) as [kv Hkv]; [lia|].
    rewrite Hkv. simpl. case_decide.
    + destruct (IH (mid + 1)%Z right) as (i & Hi & ?); [lia..|].
      exists i. split; [done|lia].
    + case_decide.
      * destruct (IH left (mid - 1)%Z) as (i & Hi & ?); [lia..|].
        exists i. split; [done|lia].
      * exists mid. split; [done|lia].
Qed.

Lemma KeyIndex_total key p :
  (0 ≤ GetSize p ≤ Z.of_nat (length (array p)))%Z →
  ∃ i, KeyIndex comparator key p = Some i ∧ (0 ≤ i ≤ GetSize p)%Z.
Proof.
  intros Hs. unfold KeyIndex.
  destruct (KeyIndex_loop_total (Z.to_nat (GetSize p)) key (array p) 0 (GetSize p - 1))
    as (i & Hi & ?); [lia..|].
  exists i. split; [done|lia].
Qed.

End Erasure.
End LeafFacts.

(** C8: [MoveHalfTo(recipient)] appends exactly the trailing
    [floor(size/2)] pairs of the source, in order, to the recipient and
    decreases the source's size by [floor(size/2)], leaving the leading
    pairs unchanged (the recipient is another page with room for them);
    a leaf holding keys [10,20,30,40] keeps [10,20] and an initially empty
    recipient ends with [30,40], so [Lookup(30)] misses on the source and
    hits on the recipient. *)
Theorem leaf_move_half_to :
  (∀ (KeyType ValueType : Type) (this recipient : @Leaf.LeafPage KeyType ValueType),
     (2 ≤ Leaf.GetSize this)%Z →
     (Leaf.GetSize this ≤ Z.of_nat (length (Leaf.array this)))%Z →
     (0 ≤ Leaf.GetSize recipient)%Z →
     (Leaf.GetSize recipient + Leaf.GetSize this / 2
        ≤ Z.of_nat (length (Leaf.array recipient)))%Z →
     ∃ this' recipient',
       Leaf.MoveHalfTo this recipient = Some (this', recipient') ∧
       Leaf.entries recipient' =
         Leaf.entries recipient ++
         drop (Z.to_nat (Leaf.GetSize this - Leaf.GetSize this / 2)) (Leaf.entries this) ∧
       length (drop (Z.to_nat (Leaf.GetSize this - Leaf.GetSize this / 2))
                    (Leaf.entries this)) = Z.to_nat (Leaf.GetSize this / 2) ∧
       Leaf.GetSize recipient' = (Leaf.GetSize recipient + Leaf.GetSize this / 2)%Z ∧
       Leaf.GetSize this' = (Leaf.GetSize this - Leaf.GetSize this / 2)%Z ∧
       Leaf.entries this' =
         take (Z.to_nat (Leaf.GetSize this - Leaf.GetSize this / 2)) (Leaf.entries this)) ∧
  (Scenario.leaf_inserts [10; 20; 30; 40]%Z Scenario.leaf_empty = Some Scenario.leaf_four ∧
   (Leaf.entries Scenario.leaf_four).*1 = [10; 20; 30; 40]%Z ∧
   Leaf.MoveHalfTo Scenario.leaf_four Scenario.leaf_recipient = Some Scenario.leaf_split ∧
   (Leaf.entries (fst Scenario.leaf_split)).*1 = [10; 20]%Z ∧
   (Leaf.entries (snd Scenario.leaf_split)).*1 = [30; 40]%Z ∧
   Leaf.Lookup IntegerComparator 30%Z (fst Scenario.leaf_split) = Some None ∧
   Leaf.Lookup IntegerComparator 30%Z (snd Scenario.leaf_split)
     = Some (Some (Scenario.rid 30))).
Proof.
  split.
  - intros K V this recipient Hs Hcap Hr Hroom.
    apply leaf_MoveHalfTo_spec; lia.
  - vm_compute. repeat split; reflexivity.
Qed.

Lemma leaf_move_half_to_witness :
  ∃ this' recipient',
    Leaf.MoveHalfTo Scenario.leaf_four Scenario.leaf_recipient = Some (this', recipient') ∧
    Leaf.entries recipient' =
      Leaf.entries Scenario.leaf_recipient ++
      drop (Z.to_nat (Leaf.GetSize Scenario.leaf_four - Leaf.GetSize Scenario.leaf_four / 2))
           (Leaf.entries Scenario.leaf_four) ∧
    length (drop (Z.to_nat (Leaf.GetSize Scenario.leaf_four
                            - Leaf.GetSize Scenario.leaf_four / 2))
                 (Leaf.entries Scenario.leaf_four))
      = Z.to_nat (Leaf.GetSize Scenario.leaf_four / 2) ∧
    Leaf.GetSize recipient' =
      (Leaf.GetSize Scenario.leaf_recipient + Leaf.GetSize Scenario.leaf_four / 2)%Z ∧
    Leaf.GetSize this' =
      (Leaf.GetSize Scenario.leaf_four - Leaf.GetSize Scenario.leaf_four / 2)%Z ∧
    Leaf.entries this' =
      take (Z.to_nat (Leaf.GetSize Scenario.leaf_four - Leaf.GetSize Scenario.leaf_four / 2))
           (Leaf.entries Scenario.leaf_four).
Proof.
  apply (proj1 leaf_move_half_to Z (Z * Z)%type Scenario.leaf_four Scenario.leaf_recipient).
  - vm_compute. discriminate.
  - vm_compute. discriminate.
  - vm_compute. discriminate.
  - vm_compute. discriminate.
Defined.

(** C4 (the code at a failing input): leaf 1 receives [Insert(10)],
    [Insert(20)], [RemoveAndDeleteRecord(20)].  It is then a sorted leaf
    with the single key 10, below its capacity, and 20 is not present; yet
    [Insert(20, v)] returns the unchanged size 1 and leaves the page as it
    was, so the following [Lookup(20)] misses. *)
Theorem leaf_insert_after_remove_is_lost :
  Scenario.leaf_inserts [10; 20]%Z Scenario.leaf_empty = Some Scenario.leaf_two ∧
  Leaf.RemoveAndDeleteRecord IntegerComparator 20%Z Scenario.leaf_two
    = Some (Scenario.leaf_stale, 1%Z) ∧
  Leaf.entries Scenario.leaf_stale = [(10%Z, Scenario.rid 10)] ∧
  (Leaf.GetSize Scenario.leaf_stale < Z.of_nat (length (Leaf.array Scenario.leaf_stale)))%Z ∧
  Leaf.Lookup IntegerComparator 20%Z Scenario.leaf_stale = Some None ∧
  Leaf.Insert IntegerComparator 20%Z (9%Z, 9%Z) Scenario.leaf_stale
    = Some (Scenario.leaf_stale, 1%Z) ∧
  (Leaf.Insert IntegerComparator 20%Z (9%Z, 9%Z) Scenario.leaf_stale
     ≫= λ r, Leaf.Lookup IntegerComparator 20%Z (fst r)) = Some None.
Proof. vm_compute. repeat split; reflexivity. Qed.

(** C9 (the code at a failing input): on the leaf holding the single key
    10, [Insert(20, v)] reads slots 0 and 1, and slot 1 is slot [size],
    outside the initialized slots [0, size); on the empty leaf it reads
    slot 0 = [size]. *)
Theorem leaf_insert_reads_slot_at_size :
  Leaf.GetSize Scenario.leaf_one = 1%Z ∧
  (Leaf.entries Scenario.leaf_one).*1 = [10%Z] ∧
  snd <$> Leaf.Insert_reads IntegerComparator 20%Z (Scenario.rid 20) Scenario.leaf_one
    = Some [0; 1]%Z ∧
  Leaf.GetSize Scenario.leaf_empty = 0%Z ∧
  snd <$> Leaf.Insert_reads IntegerComparator 10%Z (Scenario.rid 10) Scenario.leaf_empty
    = Some [0]%Z.
Proof. vm_compute. repeat split; reflexivity. Qed.

(** C1 (the code at a failing input): on the internal page with separator
    keys 10 and 20 and children 100, 101, 102, the greatest slot whose key
    is at most 20 (or 25) is slot 2, child 102; [Lookup] returns child
    101. *)
Theorem internal_lookup_misses_last_child :
  Internal.entries Scenario.internal_three = [(0, 100); (10, 101); (20, 102)]%Z ∧
  Internal.Lookup IntegerComparator 20%Z Scenario.internal_three = Some 101%Z ∧
  Internal.Lookup IntegerComparator 25%Z Scenario.internal_three = Some 101%Z.
Proof. vm_compute. repeat split; reflexivity. Qed.

(* ===================================================================== *)
(** * Lossless eviction: page images across buffer pool operations *)
(* ===================================================================== *)

Section BPMImages.
Context {Data : Type}.
Variable zeroed : Data.
Import LRU Disk BPM.

Abbreviation pool := (@BufferPoolManager Data).

Lemma bpm_wf_init n d : bpm_wf (init zeroed n d).
Proof.
  split.
  - apply bpm_inv_init.
  - intros p f page Hp. simpl in Hp. by rewrite lookup_empty in Hp.
  - intros f page Hf. inversion Hf.
  - intros f page Hf. inversion Hf.
Qed.

(** A frame that keeps its page is rewritten in place and the disk is
    left alone. *)
Lemma bpm_wf_update (b : pool) f pg pg' repl' :
  bpm_wf b →
  pages_ b !! f = Some pg → page_id_ pg' = page_id_ pg →
  (0 ≤ pin_count_ pg')%Z →
  NoDup (buffer repl') → capacity repl' = capacity (replacer_ b) →
  (∀ g, g ∈ buffer repl' → g ≠ f → g ∈ buffer (replacer_ b)) →
  (f ∈ buffer repl' →
     pin_count_ pg' = 0%Z ∧ (f ∉ free_list_ b) ∧
     page_table_ b !! page_id_ pg = Some f ∧
     (is_dirty_ pg' = false →
        data_ pg' = contents (disk_manager_ b) (page_id_ pg))) →
  bpm_wf (mkBPM (pool_size_ b) (<[f := pg']> (pages_ b)) (page_table_ b)
                (free_list_ b) repl' (disk_manager_ b)).
Proof.
  intros [Hinv Hpins Htab Hclean] Hpg Hid Hpin Hnd Hcap Hsub Hf.
  split; simpl.
  - eapply bpm_inv_update; try done. intros Hf'. by destruct (Hf Hf') as (? & ? & _).
  - intros q g page Hq Hg. destruct (decide (g = f)) as [->|Hne].
    + rewrite (page_update_eq _ _ _ _ Hpg) in Hg. by injection Hg as <-.
    + rewrite page_update_ne in Hg by done. by eapply Hpins.
  - intros g page Hg Hpage. destruct (decide (g = f)) as [->|Hne].
    + rewrite (page_update_eq _ _ _ _ Hpg) in Hpage. injection Hpage as <-.
      rewrite Hid. by destruct (Hf Hg) as (_ & _ & ? & _).
    + rewrite page_update_ne in Hpage by done. by eapply Htab; eauto.
  - intros g page Hg Hpage Hcl. destruct (decide (g = f)) as [->|Hne].
    + rewrite (page_update_eq _ _ _ _ Hpg) in Hpage. injection Hpage as <-.
      rewrite Hid. destruct (Hf Hg) as (_ & _ & _ & Hd). by apply Hd.
    + rewrite page_update_ne in Hpage by done. by eapply Hclean; eauto.
Qed.

(** In a well-formed pool a pinned frame is not in the replacer. *)
Lemma pinned_not_evictable (b : pool) f pg :
  bpm_inv b → pages_ b !! f = Some pg → (pin_count_ pg ≠ 0)%Z →
  f ∉ buffer (replacer_ b).
Proof.
  intros Hinv Hpg Hpin Hf.
  destruct (inv_replacer_unpinned b Hinv f Hf) as (pg0 & Hpg0 & Hz). congruence.
Qed.

(** Images are read through the table: rewriting frame [f] in place
    changes the image of the page mapped to [f] only. *)
Lemma page_image_update (b : pool) f pg pg' repl' disk' q :
  bpm_inv b → pages_ b !! f = Some pg →
  contents disk' = contents (disk_manager_ b) →
  page_image (mkBPM (pool_size_ b) (<[f := pg']> (pages_ b)) (page_table_ b)
                    (free_list_ b) repl' disk') q =
  if decide (page_table_ b !! q = Some f) then Some (data_ pg')
  else page_image b q.
Proof.
  intros Hinv Hpg Hd. unfold page_image. simpl.
  destruct (page_table_ b !! q) as [g|] eqn:Hq.
  - case_decide as Hg.
    + injection Hg as ->. by rewrite (page_update_eq _ _ _ _ Hpg).
    + rewrite page_update_ne; [done|]. congruence.
  - case_decide; [done|]. by rewrite Hd.
Qed.

(** What [FetchPage c] guarantees when it hands out frame [f]. *)
Abbreviation fetched b c b1 f :=
  (bpm_wf b1 ∧ page_table_ b1 !! c = Some f ∧
   (∃ pg, pages_ b1 !! f = Some pg ∧ (1 ≤ pin_count_ pg)%Z ∧
          (pin_count_ pg = 1%Z ∨ frame_available b1)) ∧
   (∀ q, page_image b1 q = page_image b q)).


Lemma FetchPage_hit_spec (b : pool) c f :
  bpm_wf b → frame_available b → page_table_ b !! c = Some f →
  ∃ b1, FetchPage c b = Some (b1, Some f) ∧ fetched b c b1 f.
Proof.
  intros Hwf Hav Hc.
  destruct (inv_table_page b (wf_inv b Hwf) c f Hc) as (pg & Hpg & Hid).
  eexists. split.
  { unfold FetchPage, FetchPageImpl. rewrite Hc, Hpg. simpl. reflexivity. }
  assert (Hk : (0 ≤ pin_count_ pg)%Z) by by eapply wf_pins.
  split; [|split; [done|split]].
  - eapply bpm_wf_update; try done; simpl.
    + lia.
    + apply erase_first_NoDup, Hwf.
    + intros g Hg _. exact (erase_first_subset f g _ Hg).
    + intros Hf. exfalso.
      exact (erase_first_not_elem f _ (inv_replacer_nodup b (wf_inv b Hwf)) Hf).
  - eexists. simpl. split; [by eapply page_update_eq|]. simpl. split; [lia|].
    destruct (decide (pin_count_ pg = 0%Z)) as [Hz|Hnz]; [left; lia|right].
    unfold frame_available. simpl.
    rewrite erase_first_absent; [done|].
    eapply pinned_not_evictable; [apply Hwf|exact Hpg|done].
  - intros q. rewrite (page_image_update b f pg) by (done || apply Hwf).
    case_decide as Hq; [|done]. simpl. unfold page_image. by rewrite Hq, Hpg.
Qed.

Lemma FetchPage_free_spec (b : pool) c f rest :
  bpm_wf b → page_table_ b !! c = None → free_list_ b = f :: rest →
  ∃ b1, FetchPage c b = Some (b1, Some f) ∧ fetched b c b1 f.
Proof.
  intros Hwf Hc Hfree. pose proof (wf_inv b Hwf) as Hinv.
  assert (Hin : f ∈ free_list_ b) by (rewrite Hfree; left).
  destruct (lookup_lt_is_Some_2 (pages_ b) f) as [pg Hpg];
    [by apply (inv_free_range b Hinv)|].
  assert (Hfetch : FetchPage c b =
    Some (mkBPM (pool_size_ b)
            (<[f := mkPage c 1 false (contents (disk_manager_ b) c)]> (pages_ b))
            (<[c := f]> (page_table_ b)) rest (replacer_ b)
            (fst (ReadPage c (disk_manager_ b))), Some f)).
  { unfold FetchPage, FetchPageImpl. rewrite Hc, Hfree, Hpg. simpl.
    by rewrite table_insert_fresh. }
  eexists. split; [exact Hfetch|].
  assert (Hother : ∀ q g, page_table_ b !! q = Some g → g ≠ f).
  { intros q g Hq ->. by eapply (inv_table_free b Hinv q f). }
  assert (Hrepl : ∀ g, g ∈ buffer (replacer_ b) → g ≠ f).
  { intros g Hg ->. by eapply (inv_free_replacer b Hinv f). }
  split; [split|split; [|split]]; simpl.
  - by eapply FetchPage_inv.
  - intros q g page Hq Hg. rewrite lookup_insert in Hq. case_decide as Hqc.
    + injection Hq as <-. rewrite (page_update_eq _ _ _ _ Hpg) in Hg.
      by injection Hg as <-.
    + rewrite page_update_ne in Hg by by eapply Hother. by eapply (wf_pins b Hwf).
  - intros g page Hg Hpage. rewrite page_update_ne in Hpage by by apply Hrepl.
    pose proof (wf_replacer_table b Hwf g page Hg Hpage) as Ht.
    rewrite lookup_insert_ne; [done|]. intros Heq. rewrite <- Heq in Ht. congruence.
  - intros g page Hg Hpage Hcl. rewrite page_update_ne in Hpage by by apply Hrepl.
    exact (wf_clean b Hwf g page Hg Hpage Hcl).
  - apply lookup_insert_eq.
  - eexists. split; [by eapply page_update_eq|]. simpl. split; [lia|by left].
  - intros q. unfold page_image. simpl. rewrite lookup_insert. case_decide as Hqc.
    + subst q. rewrite (page_update_eq _ _ _ _ Hpg). simpl. by rewrite Hc.
    + destruct (page_table_ b !! q) as [g|] eqn:Hq; [|done].
      rewrite page_update_ne; [done|]. by eapply Hother.
Qed.

Lemma FetchPage_victim_spec (b : pool) c :
  bpm_wf b → page_table_ b !! c = None → free_list_ b = [] →
  buffer (replacer_ b) ≠ [] →
  ∃ b1 f, FetchPage c b = Some (b1, Some f) ∧ fetched b c b1 f.
Proof.
  intros Hwf Hc Hfree Hbuf. pose proof (wf_inv b Hwf) as Hinv.
  destruct (snoc_inv (buffer (replacer_ b))) as [?|(l & f & Hl)]; [done|].
  assert (Hv : Victim (replacer_ b) = (mkLRU (capacity (replacer_ b)) l, Some f)).
  { destruct (replacer_ b) as [cap buf]. simpl in Hl. subst buf. apply Victim_snoc. }
  assert (Hin : f ∈ buffer (replacer_ b)).
  { rewrite Hl. apply elem_of_app. right. left. }
  destruct (inv_replacer_unpinned b Hinv f Hin) as (pg & Hpg & Hpin).
  pose proof (wf_replacer_table b Hwf f pg Hin Hpg) as Hq0.
  assert (Hne : page_id_ pg ≠ c) by congruence.
  pose proof (inv_replacer_nodup b Hinv) as Hnd. rewrite Hl in Hnd.
  apply NoDup_app in Hnd as (Hnd1 & Hnd2 & _).
  set (disk1 := if is_dirty_ pg
                then WritePage (page_id_ pg) (data_ pg) (disk_manager_ b)
                else disk_manager_ b).
  assert (Hdisk : ∀ q, q ≠ page_id_ pg → contents disk1 q = contents (disk_manager_ b) q).
  { intros q Hq. subst disk1. destruct (is_dirty_ pg); [|done]. simpl. by case_decide. }
  assert (Hevict : contents disk1 (page_id_ pg) = data_ pg).
  { subst disk1. destruct (is_dirty_ pg) eqn:Hd.
    - simpl. case_decide; done.
    - symmetry. by apply (wf_clean b Hwf f pg). }
  assert (Hfetch : FetchPage c b =
    Some (mkBPM (pool_size_ b)
            (<[f := mkPage c 1 false (contents disk1 c)]> (pages_ b))
            (<[c := f]> (delete (page_id_ pg) (page_table_ b))) (free_list_ b)
            (mkLRU (capacity (replacer_ b)) l)
            (fst (ReadPage c disk1)), Some f)).
  { unfold FetchPage, FetchPageImpl. rewrite Hc, Hv. rewrite Hfree at 1. rewrite Hpg. simpl.
    rewrite table_insert_fresh; [done|]. rewrite lookup_delete. by case_decide. }
  eexists _, f. split; [exact Hfetch|].
  assert (Hother : ∀ q g, page_table_ b !! q = Some g → q ≠ page_id_ pg → g ≠ f).
  { intros q g Hq Hqne ->.
    destruct (inv_table_page b Hinv q f Hq) as (pg0 & Hpg0 & Hid). congruence. }
  assert (Hrepl : ∀ g, g ∈ l → g ≠ f ∧ g ∈ buffer (replacer_ b)).
  { intros g Hg. split.
    - intros ->. apply (Hnd2 f Hg). left.
    - rewrite Hl. apply elem_of_app. by left. }
  split; [split|split; [|split]]; simpl.
  - by eapply FetchPage_inv.
  - intros q g page Hq Hg. rewrite lookup_insert in Hq. case_decide as Hqc.
    + injection Hq as <-. rewrite (page_update_eq _ _ _ _ Hpg) in Hg.
      by injection Hg as <-.
    + rewrite lookup_delete in Hq. case_decide as Hqd; [done|].
      rewrite page_update_ne in Hg by (eapply Hother; [done|congruence]).
      by eapply (wf_pins b Hwf).
  - intros g page Hg Hpage. destruct (Hrepl g Hg) as [Hgf Hgb].
    rewrite page_update_ne in Hpage by done.
    pose proof (wf_replacer_table b Hwf g page Hgb Hpage) as Ht.
    rewrite lookup_insert_ne by (intros Heq; rewrite <- Heq in Ht; congruence).
    rewrite lookup_delete_ne by (intros Heq; rewrite <- Heq in Ht; congruence).
    done.
  - intros g page Hg Hpage Hcl. destruct (Hrepl g Hg) as [Hgf Hgb].
    rewrite page_update_ne in Hpage by done.
    pose proof (wf_replacer_table b Hwf g page Hgb Hpage) as Ht.
    rewrite Hdisk by (intros Heq; rewrite Heq in Ht; congruence).
    exact (wf_clean b Hwf g page Hgb Hpage Hcl).
  - apply lookup_insert_eq.
  - eexists. split; [by eapply page_update_eq|]. simpl. split; [lia|by left].
  - intros q. unfold page_image. simpl. rewrite lookup_insert. case_decide as Hqc.
    + subst q. rewrite (page_update_eq _ _ _ _ Hpg). simpl.
      rewrite Hc. by rewrite Hdisk.
    + rewrite lookup_delete. case_decide as Hqd.
      * subst q. rewrite Hq0, Hpg. simpl. by rewrite Hevict.
      * destruct (page_table_ b !! q) as [g|] eqn:Hq.
        -- rewrite page_update_ne; [done|]. eapply Hother; [done|congruence].
        -- by rewrite Hdisk by congruence.
Qed.

(** [FetchPage] hands out a frame whenever one is available. *)
Lemma FetchPage_spec (b : pool) c :
  bpm_wf b → frame_available b →
  ∃ b1 f, FetchPage c b = Some (b1, Some f) ∧ fetched b c b1 f.
Proof.
  intros Hwf Hav.
  destruct (page_table_ b !! c) as [f|] eqn:Hc.
  - destruct (FetchPage_hit_spec b c f Hwf Hav Hc) as (b1 & H1 & H2). by exists b1, f.
  - destruct (free_list_ b) as [|f rest] eqn:Hfree.
    + destruct Hav as [Hav|Hav]; [done|].
      by apply FetchPage_victim_spec.
    + destruct (FetchPage_free_spec b c f rest Hwf Hc Hfree) as (b1 & H1 & H2).
      by exists b1, f.
Qed.

Lemma FetchPage_wf (b b1 : pool) c r :
  bpm_wf b → frame_available b → FetchPage c b = Some (b1, r) → bpm_wf b1.
Proof.
  intros Hwf Hav H.
  destruct (FetchPage_spec b c Hwf Hav) as (b1' & f & H' & Hw & _).
  rewrite H' in H. by injection H as <- <-.
Qed.

Lemma table_frame_unique (b : pool) c q f :
  bpm_inv b → page_table_ b !! c = Some f → page_table_ b !! q = Some f → q = c.
Proof.
  intros Hinv Hc Hq.
  destruct (inv_table_page b Hinv c f Hc) as (pg1 & Hpg1 & Hid1).
  destruct (inv_table_page b Hinv q f Hq) as (pg2 & Hpg2 & Hid2). congruence.
Qed.

(** The holder of a pin writes the buffer of its frame. *)
Lemma write_frame_spec (b : pool) c f pg d' :
  bpm_wf b → page_table_ b !! c = Some f → pages_ b !! f = Some pg →
  (1 ≤ pin_count_ pg)%Z →
  bpm_wf (mkBPM (pool_size_ b)
            (<[f := mkPage (page_id_ pg) (pin_count_ pg) (is_dirty_ pg) d']> (pages_ b))
            (page_table_ b) (free_list_ b) (replacer_ b) (disk_manager_ b)) ∧
  ∀ q, page_image
         (mkBPM (pool_size_ b)
            (<[f := mkPage (page_id_ pg) (pin_count_ pg) (is_dirty_ pg) d']> (pages_ b))
            (page_table_ b) (free_list_ b) (replacer_ b) (disk_manager_ b)) q =
       if decide (q = c) then Some d' else page_image b q.
Proof.
  intros Hwf Hc Hpg Hpin. pose proof (wf_inv b Hwf) as Hinv.
  assert (Hnot : f ∉ buffer (replacer_ b)).
  { eapply pinned_not_evictable; [done|exact Hpg|lia]. }
  split.
  - eapply bpm_wf_update; try done; simpl.
    + lia.
    + apply Hinv.
  - intros q. rewrite (page_image_update b f pg) by done. simpl.
    destruct (decide (q = c)) as [->|Hqc].
    + by rewrite decide_True.
    + rewrite decide_False; [done|]. intros Hq. apply Hqc. by eapply table_frame_unique.
Qed.


Lemma UnpinPage_dirty_spec (b : pool) c f pg :
  bpm_wf b → page_table_ b !! c = Some f → pages_ b !! f = Some pg →
  (1 ≤ pin_count_ pg)%Z → (pin_count_ pg = 1%Z ∨ frame_available b) →
  ∃ b3, UnpinPage c true b = Some (b3, true) ∧ bpm_wf b3 ∧ frame_available b3 ∧
        ∀ q, page_image b3 q = page_image b q.
Proof.
  intros Hwf Hc Hpg Hpin Hav. pose proof (wf_inv b Hwf) as Hinv.
  assert (Hid : page_id_ pg = c).
  { destruct (inv_table_page b Hinv c f Hc) as (pg0 & Hpg0 & Hid0). congruence. }
  eexists. split.
  { unfold UnpinPage, UnpinPageImpl. rewrite Hc, Hpg. simpl.
    case_decide; [lia|]. reflexivity. }
  split; [|split].
  - eapply bpm_wf_update; try done; simpl.
    + lia.
    + case_decide; [apply Unpin_NoDup|]; apply Hinv.
    + case_decide; [apply Unpin_capacity|done].
    + intros g Hg Hgf. case_decide; [|done].
      apply Unpin_subset in Hg as [->|Hg]; done.
    + intros Hf. case_decide as Hz.
      * split; [done|]. split; [by eapply (inv_table_free b Hinv)|].
        split; [by rewrite Hid|]. by destruct (is_dirty_ pg).
      * exfalso. revert Hf. eapply pinned_not_evictable; [done|exact Hpg|lia].
  - unfold frame_available. simpl. case_decide as Hz.
    + right. intros Hnil.
      assert (Hf : f ∈ buffer (Unpin f (replacer_ b))).
      { apply Unpin_elem. rewrite (inv_capacity b Hinv), <- (inv_pool b Hinv).
        apply lookup_lt_Some in Hpg. lia. }
      rewrite Hnil in Hf. inversion Hf.
    + destruct Hav as [?|Hav]; [lia|exact Hav].
  - intros q. rewrite (page_image_update b f pg) by done. simpl.
    case_decide as Hq; [|done]. unfold page_image. by rewrite Hq, Hpg.
Qed.

End BPMImages.

(* ===================================================================== *)
(** * Properties of the internal page *)
(* ===================================================================== *)

Section InternalFacts.
Context {KeyType : Type}.
Import Tree Internal.
Implicit Types (p : @InternalPage KeyType) (b : @BPM.BufferPoolManager RawPage).

(** Adopting child [c]: the pool stays well formed, a frame stays
    available, and only the image of [c] changes, in its parent field. *)
Lemma SetParentToMe_spec me c b :
  BPM.bpm_wf b → BPM.frame_available b →
  ∃ b', SetParentToMe me c b = Some b' ∧ BPM.bpm_wf b' ∧ BPM.frame_available b' ∧
        ∀ q, stored_parent b' q =
             if decide (q = c) then Some me else stored_parent b q.
Proof.
  intros Hwf Hav.
  destruct (FetchPage_spec b c Hwf Hav)
    as (b1 & f & Hfetch & Hwf1 & Hc1 & (pg & Hpg & Hpin & Hav1) & Himg1).
  destruct (write_frame_spec b1 c f pg (raw_set_parent me (BPM.data_ pg))
              Hwf1 Hc1 Hpg Hpin) as [Hwf2 Himg2].
  destruct (UnpinPage_dirty_spec _ c f
               (BPM.mkPage (BPM.page_id_ pg) (BPM.pin_count_ pg) (BPM.is_dirty_ pg)
                           (raw_set_parent me (BPM.data_ pg))) Hwf2)
    as (b3 & Hunpin & Hwf3 & Hav3 & Himg3).
  { exact Hc1. }
  { simpl. exact (page_update_eq _ _ _ _ Hpg). }
  { exact Hpin. }
  { exact Hav1. }
  exists b3. split.
  { unfold SetParentToMe. rewrite Hfetch. simpl. rewrite Hpg. simpl.
    by rewrite Hunpin. }
  split; [done|]. split; [done|].
  intros q. unfold stored_parent. rewrite Himg3, Himg2.
  case_decide; [done|]. by rewrite Himg1.
Qed.

Lemma internal_InsertAt_end p (n : nat) x :
  GetSize p = Z.of_nat n → n < length (array p) →
  InsertAt (GetSize p) x p =
    Some (mkInternal (IncreaseSize 1 (header p)) (<[n := x]> (array p))).
Proof.
  intros Hn Hlen. unfold InsertAt. rewrite Hn.
  by rewrite insert_slot_end.
Qed.

(** [CopyNFrom] appends [items[i .. i+k)] to the live slots and adopts
    each child it appends. *)
Lemma internal_CopyNFrom_loop_spec (k : nat) :
  ∀ fuel (i : nat) (size : Z) (items : list (KeyType * Z)) (off : nat) p (n : nat) b,
  k ≤ fuel → size = Z.of_nat (i + k) → off + i + k ≤ length items →
  GetSize p = Z.of_nat n → n + k ≤ length (array p) →
  BPM.bpm_wf b → BPM.frame_available b →
  ∃ p' b', CopyNFrom_loop fuel (Z.of_nat i) size items (Z.of_nat off) p b = Some (p', b') ∧
        header p' = SetSize (Z.of_nat (n + k)) (header p) ∧
        length (array p') = length (array p) ∧
        take (n + k) (array p') = take n (array p) ++ take k (drop (off + i) items) ∧
        BPM.bpm_wf b' ∧ BPM.frame_available b' ∧
        ∀ q, stored_parent b' q =
             if decide (q ∈ (take k (drop (off + i) items)).*2)
             then Some (GetPageId p) else stored_parent b q.
Proof.
  induction k as [|k IH];
    intros fuel i size items off p n b Hfuel Hsize Hitems Hn Hlen Hwf Hav.
  - exists p, b. split.
    { destruct fuel; simpl; (case_decide; [lia|done]). }
    rewrite Nat.add_0_r, <- Hn. unfold GetSize. rewrite SetSize_same, app_nil_r.
    do 5 (split; [done|]). intros q.
    rewrite decide_False; [done|]. intros Hq. inversion Hq.
  - destruct fuel as [|fuel]; [lia|]. simpl. case_decide; [|lia].
    replace (Z.of_nat off + Z.of_nat i)%Z with (Z.of_nat (off + i)) by lia.
    rewrite slot_at_nat.
    destruct (lookup_lt_is_Some_2 items (off + i)) as [x Hx]; [lia|].
    rewrite Hx. simpl. unfold CopyLastFrom.
    destruct (SetParentToMe_spec (GetPageId p) (snd x) b Hwf Hav)
      as (b1 & Hset & Hwf1 & Hav1 & Himg1).
    rewrite Hset. simpl.
    rewrite (internal_InsertAt_end p n x) by (done || lia). simpl.
    replace (Z.of_nat i + 1)%Z with (Z.of_nat (S i)) by lia.
    edestruct (IH fuel (S i) size items off
                 (mkInternal (IncreaseSize 1 (header p)) (<[n := x]> (array p)))
                 (S n) b1) as (p' & b' & Hp' & Hh & Hl & Ht & Hwf' & Hav' & Himg').
    { lia. } { lia. } { lia. }
    { unfold GetSize in *. simpl. lia. }
    { simpl. rewrite length_insert. lia. }
    { done. } { done. }
    exists p', b'. split; [done|]. simpl in *.
    split; [|split; [by rewrite Hl, length_insert|split; [|split; [done|split; [done|]]]]].
    + rewrite Hh. unfold IncreaseSize, SetSize. simpl. f_equal. lia.
    + replace (n + S k) with (S (n + k)) by lia. rewrite Ht.
      rewrite live_snoc by lia. rewrite <- app_assoc. f_equal. simpl.
      rewrite (drop_S _ _ _ Hx). simpl. do 2 f_equal. f_equal. lia.
    + intros q. rewrite Himg', Himg1. rewrite (drop_S _ _ _ Hx). simpl.
      replace (off + S i) with (S (off + i)) by lia.
      unfold GetPageId. simpl.
      destruct (decide (q = snd x)) as [->|Hqx].
      * rewrite (decide_True (P := _ ∈ _ :: _)) by left. by case_decide.
      * case_decide as Hq.
        -- rewrite decide_True; [done|]. by right.
        -- rewrite decide_False; [done|]. intros Hq'. inversion Hq'; subst; done.
Qed.

Lemma internal_Remove_first p (m : nat) :
  GetSize p = Z.of_nat (S m) → S m ≤ length (array p) →
  ∃ a', Remove 0 p = Some (mkInternal (IncreaseSize (-1) (header p)) a') ∧
        length a' = length (array p) ∧
        take m a' = drop 1 (take (S m) (array p)).
Proof.
  intros Hn Hlen. unfold Remove. rewrite Hn.
  destruct (remove_slot_first (array p) m Hlen) as (a' & Ha' & Hl & Ht).
  exists a'. rewrite Ha'. done.
Qed.

End InternalFacts.

(** C2: for every internal page with [size >= 1] and every [middle_key],
    [MoveAllTo(recipient, middle_key, bpm)] appends to the recipient, in
    order, the pair [(middle_key, source's original first child)] followed
    by the source's original entries at indices [1..size); the source's
    size becomes 0; and every moved child's stored parent page id is the
    recipient's page id.  The recipient is another page with room for the
    entries, and the buffer pool is well formed and has a frame to give. *)
Theorem internal_move_all_to {KeyType : Type}
    (this recipient : @Internal.InternalPage KeyType) (middle_key : KeyType)
    (bpm : @BPM.BufferPoolManager Tree.RawPage) :
  (1 ≤ Internal.GetSize this)%Z →
  (Internal.GetSize this ≤ Z.of_nat (length (Internal.array this)))%Z →
  (0 ≤ Internal.GetSize recipient)%Z →
  (Internal.GetSize recipient + Internal.GetSize this
     ≤ Z.of_nat (length (Internal.array recipient)))%Z →
  BPM.bpm_wf bpm → BPM.frame_available bpm →
  ∃ key0 child0 rest this' recipient' bpm',
    Internal.entries this = (key0, child0) :: rest ∧
    Internal.MoveAllTo this recipient middle_key bpm = Some (this', recipient', bpm') ∧
    Internal.entries recipient' =
      Internal.entries recipient ++ (middle_key, child0) :: rest ∧
    Internal.GetSize this' = 0%Z ∧
    ∀ c, c ∈ child0 :: rest.*2 →
         Internal.stored_parent bpm' c = Some (Internal.GetPageId recipient).
Proof.
  intros Hs Hcap Hr Hroom Hwf Hav.
  destruct (Z_of_nat_complete (Internal.GetSize this - 1)) as [m Hm]; [lia|].
  destruct (Z_of_nat_complete (Internal.GetSize recipient)) as [n Hn]; [lia|].
  assert (Hsize : Internal.GetSize this = Z.of_nat (S m)) by lia.
  destruct (lookup_lt_is_Some_2 (Internal.array this) 0) as [[key0 child0] H0]; [lia|].
  destruct (internal_Remove_first this m Hsize) as (a' & Hrem & Hla' & Hta'); [lia|].
  destruct (SetParentToMe_spec (Internal.GetPageId recipient) child0 bpm Hwf Hav)
    as (b1 & Hset & Hwf1 & Hav1 & Himg1).
  destruct (internal_CopyNFrom_loop_spec m m 0 (Z.of_nat m) a' 0
              (Internal.mkInternal (Tree.IncreaseSize 1 (Internal.header recipient))
                 (<[n := (middle_key, child0)]> (Internal.array recipient)))
              (S n) b1)
    as (r2 & b2 & Hcopy & Hh2 & Hl2 & Ht2 & Hwf2 & Hav2 & Himg2);
    try done; try (simpl; lia).
  { unfold Internal.GetSize in *. simpl. lia. }
  { simpl. rewrite length_insert. lia. }
  assert (Hentries : Internal.entries this = (key0, child0) :: take m a').
  { unfold Internal.entries. rewrite Hsize, live_nat, Hta'.
    destruct (Internal.array this) as [|x arr]; [done|].
    simpl in H0. injection H0 as ->. simpl. by rewrite drop_0. }
  exists key0, child0, (take m a'). eexists _, r2, b2.
  split; [exact Hentries|]. split.
  { unfold Internal.MoveAllTo, Internal.MoveFirstToEndOf, Internal.ValueAt,
      Internal.CopyLastFrom.
    change 0%Z with (Z.of_nat 0). rewrite slot_at_nat, H0. simpl.
    rewrite Hset. simpl.
    rewrite (internal_InsertAt_end recipient n) by (done || lia). simpl.
    change (Z.of_nat 0) with 0%Z. rewrite Hrem. simpl.
    unfold Internal.CopyNFrom, Internal.GetSize. simpl.
    unfold Internal.GetSize in Hsize. rewrite Hsize.
    replace (Z.of_nat (S m) + -1)%Z with (Z.of_nat m) by lia.
    rewrite Nat2Z.id. change 0%Z with (Z.of_nat 0). rewrite Hcopy. done. }
  split; [|split; [done|]].
  - unfold Internal.entries, Internal.GetSize in *. rewrite Hh2. simpl.
    rewrite !live_nat, Hn, live_nat.
    change (S (n + m)) with (S n + m). rewrite Ht2. simpl.
    rewrite live_snoc by lia. rewrite <- app_assoc. simpl. by rewrite drop_0.
  - intros c Hc. rewrite Himg2. simpl. rewrite drop_0.
    change (Internal.GetPageId _) with (Internal.GetPageId recipient).
    case_decide as Hc'; [done|]. rewrite Himg1.
    inversion Hc; subst; [by rewrite decide_True | done].
Qed.

Lemma internal_move_all_to_witness :
  ∃ key0 child0 rest this' recipient' bpm',
    Internal.entries Scenario.internal_three = (key0, child0) :: rest ∧
    Internal.MoveAllTo Scenario.internal_three Scenario.internal_recipient 7%Z
                       Scenario.pool_raw = Some (this', recipient', bpm') ∧
    Internal.entries recipient' =
      Internal.entries Scenario.internal_recipient ++ (7%Z, child0) :: rest ∧
    Internal.GetSize this' = 0%Z ∧
    ∀ c, c ∈ child0 :: rest.*2 →
         Internal.stored_parent bpm' c = Some (Internal.GetPageId Scenario.internal_recipient).
Proof.
  apply (internal_move_all_to Scenario.internal_three Scenario.internal_recipient
           7%Z Scenario.pool_raw).
  - vm_compute. discriminate.
  - vm_compute. discriminate.
  - vm_compute. discriminate.
  - vm_compute. discriminate.
  - apply (FetchPage_wf Scenario.pool_five Scenario.pool_raw 6%Z (Some 1)).
    + apply (FetchPage_wf (BPM.init Tree.zeroed 3 Scenario.disk_raw)
               Scenario.pool_five 5%Z (Some 0)).
      * apply bpm_wf_init.
      * left. vm_compute. discriminate.
      * vm_compute. reflexivity.
    + left. vm_compute. discriminate.
    + vm_compute. reflexivity.
  - left. vm_compute. discriminate.
Defined.

(* ===================================================================== *)
(** * Further properties of the LRU replacer *)
(* ===================================================================== *)

Section LRUMore.
Import LRU Runs.

Lemma pop_back_length l : length (pop_back l) = length l - 1.
Proof.
  destruct (snoc_inv l) as [->|(l' & x & ->)]; [done|].
  rewrite pop_back_snoc, length_app. simpl. lia.
Qed.

Lemma erase_first_length f l : length (erase_first f l) ≤ length l.
Proof.
  induction l as [|x l IH]; simpl; [done|]. case_decide; simpl; lia.
Qed.

Lemma erase_first_length_elem f l :
  f ∈ l → S (length (erase_first f l)) = length l.
Proof.
  induction l as [|x l IH]; simpl; [inversion 1|].
  intros Hf. case_decide as E; [done|]. simpl. f_equal. apply IH.
  inversion Hf; subst; done.
Qed.

Lemma erase_first_filter f l :
  NoDup l → erase_first f l = filter (λ g, g ≠ f) l.
Proof.
  induction 1 as [|x l Hx Hl IH]; simpl; [done|].
  case_decide as E.
  - subst. rewrite filter_cons_False by (intros Hn; by apply Hn).
    rewrite <- IH. symmetry. by apply erase_first_absent.
  - rewrite filter_cons_True by done. by rewrite IH.
Qed.

Lemma replacer_step_bounded r op :
  NoDup (buffer r) ∧ length (buffer r) ≤ capacity r →
  NoDup (buffer (replacer_step r op)) ∧
  length (buffer (replacer_step r op)) ≤ capacity (replacer_step r op) ∧
  capacity (replacer_step r op) = capacity r.
Proof.
  intros [Hnd Hlen]. destruct op as [|f|f]; simpl.
  - destruct r as [c b]. destruct (snoc_inv b) as [->|(l & x & ->)].
    + by rewrite Victim_nil.
    + rewrite Victim_snoc. simpl in *. rewrite length_app in Hlen. simpl in Hlen.
      apply NoDup_app in Hnd as (? & _ & _). split; [done|]. split; [lia|done].
  - split; [by apply erase_first_NoDup|]. split; [|done].
    pose proof (erase_first_length f (buffer r)). lia.
  - split; [by apply Unpin_NoDup|]. rewrite Unpin_capacity. split; [|done].
    unfold Unpin. destruct (scan f (buffer r)); [done|].
    case_decide as Hc; simpl in *.
    + rewrite pop_back_length. simpl. lia.
    + lia.
Qed.

Lemma unpin_all_fresh cap l :
  NoDup l → length l ≤ cap →
  unpin_all l (init cap) = mkLRU cap (reverse l).
Proof.
  induction l as [|x l IH] using rev_ind; intros Hnd Hlen; [done|].
  unfold unpin_all in *. rewrite foldl_snoc.
  apply NoDup_app in Hnd as (Hl & Hx & _).
  rewrite length_app in Hlen. simpl in Hlen.
  rewrite IH by (done || lia). rewrite reverse_snoc.
  rewrite Unpin_fresh; simpl; [done| |rewrite length_reverse; lia].
  rewrite elem_of_reverse. intros Hin. apply (Hx x Hin). left.
Qed.

Lemma victims_reverse cap l n :
  length l ≤ n → victims n (mkLRU cap (reverse l)) = l.
Proof.
  revert n. induction l as [|x l IH]; intros n Hn.
  - destruct n; reflexivity.
  - destruct n as [|n]; [simpl in Hn; lia|].
    simpl. rewrite reverse_cons, Victim_snoc. f_equal. apply IH. simpl in Hn. lia.
Qed.

End LRUMore.

(** X1: frames unpinned into an empty replacer leave it in the order they
    entered: for any list of distinct frames that fits the capacity,
    successive [Victim] calls return exactly that list, and the next call
    fails. *)
Theorem lru_victims_in_unpin_order (cap : nat) (l : list frame_id_t) (n : nat) :
  NoDup l → length l ≤ cap → length l ≤ n →
  Runs.victims n (Runs.unpin_all l (LRU.init cap)) = l.
Proof.
  intros Hnd Hcap Hn. rewrite unpin_all_fresh by done. by apply victims_reverse.
Qed.

Lemma lru_victims_in_unpin_order_witness :
  Runs.victims 7 (Runs.unpin_all [4; 2; 9; 0] (LRU.init 5)) = [4; 2; 9; 0].
Proof.
  apply (lru_victims_in_unpin_order 5 [4; 2; 9; 0] 7).
  - apply (bool_decide_unpack _). vm_compute. exact I.
  - simpl. lia.
  - simpl. lia.
Defined.

(** X2: whatever sequence of [Victim], [Pin] and [Unpin] calls a replacer
    created with [LRUReplacer(cap)] receives, its vector never holds a frame
    twice and never holds more than [cap] frames. *)
Theorem lru_never_duplicates_or_overflows (cap : nat) (ops : list Runs.ReplacerOp) :
  NoDup (LRU.buffer (Runs.replacer_run ops (LRU.init cap))) ∧
  LRU.Size (Runs.replacer_run ops (LRU.init cap)) ≤ cap ∧
  LRU.capacity (Runs.replacer_run ops (LRU.init cap)) = cap.
Proof.
  unfold Runs.replacer_run, LRU.Size.
  induction ops as [|op ops IH] using rev_ind.
  - simpl. split; [constructor|]. split; [lia|done].
  - rewrite foldl_snoc. destruct IH as (Hnd & Hlen & Hcap).
    destruct (replacer_step_bounded (foldl Runs.replacer_step (LRU.init cap) ops) op)
      as (H1 & H2 & H3); [split; [done|lia]|].
    split; [done|]. rewrite H3 in H2. rewrite H3, Hcap. split; [lia|done].
Qed.

(** X3: on a replacer without duplicates [Pin(f)] removes [f] and keeps the
    other frames in their order (so no later [Victim] returns [f]); a
    following [Unpin(f)] puts [f] at the most recent end, behind every
    frame that was already evictable. *)
Theorem lru_pin_then_unpin (r : LRU.LRUReplacer) (f : frame_id_t) :
  NoDup (LRU.buffer r) → length (LRU.buffer r) ≤ LRU.capacity r →
  f ∈ LRU.buffer r →
  LRU.buffer (LRU.Pin f r) = filter (λ g, g ≠ f) (LRU.buffer r) ∧
  (f ∉ LRU.buffer (LRU.Pin f r)) ∧
  LRU.buffer (LRU.Unpin f (LRU.Pin f r)) = f :: filter (λ g, g ≠ f) (LRU.buffer r).
Proof.
  intros Hnd Hlen Hf.
  assert (Hpin : LRU.buffer (LRU.Pin f r) = filter (λ g, g ≠ f) (LRU.buffer r)).
  { simpl. by apply erase_first_filter. }
  assert (Hnot : f ∉ LRU.buffer (LRU.Pin f r)) by by apply erase_first_not_elem.
  split; [done|]. split; [done|].
  rewrite Unpin_fresh; simpl.
  - by rewrite <- Hpin.
  - exact Hnot.
  - pose proof (erase_first_length_elem f _ Hf). lia.
Qed.

Lemma lru_pin_then_unpin_witness :
  LRU.buffer (LRU.Pin 2 (LRU.mkLRU 3 [3; 2; 1])) = filter (λ g, g ≠ 2) [3; 2; 1] ∧
  (2 ∉ LRU.buffer (LRU.Pin 2 (LRU.mkLRU 3 [3; 2; 1]))) ∧
  LRU.buffer (LRU.Unpin 2 (LRU.Pin 2 (LRU.mkLRU 3 [3; 2; 1])))
    = 2 :: filter (λ g, g ≠ 2) [3; 2; 1].
Proof.
  apply (lru_pin_then_unpin (LRU.mkLRU 3 [3; 2; 1]) 2).
  - apply (bool_decide_unpack _). vm_compute. exact I.
  - simpl. lia.
  - simpl. right. left.
Defined.

(* ===================================================================== *)
(** * Further properties of the buffer pool manager *)
(* ===================================================================== *)

Section BPMMore.
Context {Data : Type}.
Variable zeroed : Data.
Import LRU Disk BPM.

Lemma step_pool_size op (b b' : @BufferPoolManager Data) :
  step zeroed op b = Some b' → pool_size_ b' = pool_size_ b.
Proof.
  destruct op as [p|p d|out|p|p]; simpl; intros Hs;
    apply fmap_Some in Hs as (r & Hr & ->).
  - unfold FetchPage, FetchPageImpl in Hr.
    destruct (page_table_ b !! p) as [f|].
    + destruct (pages_ b !! f); simpl in Hr; [|done]. by injection Hr as <-.
    + destruct (free_list_ b) as [|f rest].
      * destruct (Victim (replacer_ b)) as [r' [f|]]; [|by injection Hr as <-].
        destruct (pages_ b !! f); simpl in Hr; [|done]. by injection Hr as <-.
      * destruct (pages_ b !! f); simpl in Hr; [|done]. by injection Hr as <-.
  - unfold UnpinPage, UnpinPageImpl in Hr.
    destruct (page_table_ b !! p) as [f|]; [|by injection Hr as <-].
    destruct (pages_ b !! f); simpl in Hr; [|done].
    case_decide; by injection Hr as <-.
  - unfold NewPage, NewPageImpl, install_new_page in Hr.
    destruct (free_list_ b) as [|f rest].
    + destruct (Victim (replacer_ b)) as [r' [f|]]; [|by injection Hr as <-].
      destruct (pages_ b !! f); simpl in Hr; [|done]. by injection Hr as <-.
    + destruct (pages_ b !! f); simpl in Hr; [|done]. by injection Hr as <-.
  - unfold DeletePage, DeletePageImpl in Hr.
    destruct (page_table_ b !! p) as [f|]; [|by injection Hr as <-].
    destruct (pages_ b !! f); simpl in Hr; [|done].
    case_decide; by injection Hr as <-.
  - unfold FlushPage, FlushPageImpl in Hr.
    destruct (page_table_ b !! p) as [f|]; [|by injection Hr as <-].
    destruct (pages_ b !! f); simpl in Hr; [|done]. by injection Hr as <-.
Qed.

Lemma reachable_pool_size n d (b : @BufferPoolManager Data) :
  reachable zeroed n d b → pool_size_ b = n.
Proof.
  induction 1 as [|b op b' _ IH Hs]; [done|].
  by rewrite (step_pool_size op b b' Hs).
Qed.

(** Distinct frame indices below [n] are at most [n]. *)
Lemma frames_bounded (l : list frame_id_t) n :
  NoDup l → (∀ f, f ∈ l → f < n) → length l ≤ n.
Proof.
  intros Hnd Hlt.
  assert (H : l ⊆+ seq 0 n).
  { apply NoDup_submseteq; [done|].
    intros f Hf. apply elem_of_seq. specialize (Hlt f Hf). lia. }
  apply submseteq_length in H. by rewrite length_seq in H.
Qed.

Lemma inv_lists_bounded (b : @BufferPoolManager Data) :
  bpm_inv b →
  length (free_list_ b) + length (buffer (replacer_ b)) ≤ pool_size_ b.
Proof.
  intros Hinv. rewrite <- length_app. apply frames_bounded.
  - apply NoDup_app. split; [apply Hinv|]. split; [apply Hinv|apply Hinv].
  - intros f Hf. rewrite <- (inv_pool b Hinv).
    apply elem_of_app in Hf as [Hf|Hf]; [by apply (inv_free_range b Hinv)|].
    destruct (inv_replacer_unpinned b Hinv f Hf) as (pg & Hpg & _).
    by eapply lookup_lt_Some.
Qed.

Lemma Pin_absent f r : f ∉ buffer r → Pin f r = r.
Proof. intros H. unfold Pin. rewrite erase_first_absent by done. by destruct r. Qed.

End BPMMore.

(** X4: in every reachable buffer-pool state the frame array has
    [pool_size] frames, every page-table entry [(p, f)] points at a frame
    of the array whose [page_id] is [p], and no frame is the target of two
    entries. *)
Theorem bpm_table_entries_consistent {Data : Type} (zeroed : Data) (pool_size : nat)
    (disk : Disk.DiskManager Data) (b : BPM.BufferPoolManager) :
  BPM.reachable zeroed pool_size disk b →
  length (BPM.pages_ b) = pool_size ∧
  (∀ p f, BPM.page_table_ b !! p = Some f →
     ∃ page, BPM.pages_ b !! f = Some page ∧ BPM.page_id_ page = p) ∧
  (∀ p q f, BPM.page_table_ b !! p = Some f → BPM.page_table_ b !! q = Some f → p = q).
Proof.
  intros Hr. pose proof (reachable_inv zeroed _ _ _ Hr) as Hinv.
  split; [|split].
  - rewrite (BPM.inv_pool b Hinv). by eapply reachable_pool_size.
  - apply Hinv.
  - intros p q f Hp Hq. by eapply table_frame_unique.
Qed.

Lemma bpm_table_entries_consistent_witness :
  length (BPM.pages_ Scenario.one_unpinned) = 2 ∧
  (∀ p f, BPM.page_table_ Scenario.one_unpinned !! p = Some f →
     ∃ page, BPM.pages_ Scenario.one_unpinned !! f = Some page ∧ BPM.page_id_ page = p) ∧
  (∀ p q f, BPM.page_table_ Scenario.one_unpinned !! p = Some f →
     BPM.page_table_ Scenario.one_unpinned !! q = Some f → p = q).
Proof.
  apply (bpm_table_entries_consistent tt 2 Scenario.disk0 Scenario.one_unpinned).
  apply (reachable_run tt 2 Scenario.disk0
           [BPM.OpNewPage 0%Z; BPM.OpUnpinPage 0%Z false] _ _
           (BPM.reachable_init tt 2 Scenario.disk0)).
  vm_compute. reflexivity.
Defined.

(** X5: in every reachable buffer-pool state the free list and the
    replacer hold no frame twice and share no frame, no page-table frame is
    on the free list, and together the two lists hold at most [pool_size]
    frames. *)
Theorem bpm_free_and_evictable_disjoint {Data : Type} (zeroed : Data) (pool_size : nat)
    (disk : Disk.DiskManager Data) (b : BPM.BufferPoolManager) :
  BPM.reachable zeroed pool_size disk b →
  NoDup (BPM.free_list_ b) ∧ NoDup (LRU.buffer (BPM.replacer_ b)) ∧
  (∀ f, f ∈ BPM.free_list_ b → f ∉ LRU.buffer (BPM.replacer_ b)) ∧
  (∀ p f, BPM.page_table_ b !! p = Some f → f ∉ BPM.free_list_ b) ∧
  length (BPM.free_list_ b) + LRU.Size (BPM.replacer_ b) ≤ pool_size.
Proof.
  intros Hr. pose proof (reachable_inv zeroed _ _ _ Hr) as Hinv.
  split; [apply Hinv|]. split; [apply Hinv|]. split; [apply Hinv|].
  split; [apply Hinv|].
  rewrite <- (reachable_pool_size zeroed _ _ _ Hr). by apply inv_lists_bounded.
Qed.

Lemma bpm_free_and_evictable_disjoint_witness :
  NoDup (BPM.free_list_ Scenario.one_unpinned) ∧
  NoDup (LRU.buffer (BPM.replacer_ Scenario.one_unpinned)) ∧
  (∀ f, f ∈ BPM.free_list_ Scenario.one_unpinned →
        f ∉ LRU.buffer (BPM.replacer_ Scenario.one_unpinned)) ∧
  (∀ p f, BPM.page_table_ Scenario.one_unpinned !! p = Some f →
          f ∉ BPM.free_list_ Scenario.one_unpinned) ∧
  length (BPM.free_list_ Scenario.one_unpinned)
    + LRU.Size (BPM.replacer_ Scenario.one_unpinned) ≤ 2.
Proof.
  apply (bpm_free_and_evictable_disjoint tt 2 Scenario.disk0 Scenario.one_unpinned).
  apply (reachable_run tt 2 Scenario.disk0
           [BPM.OpNewPage 0%Z; BPM.OpUnpinPage 0%Z false] _ _
           (BPM.reachable_init tt 2 Scenario.disk0)).
  vm_compute. reflexivity.
Defined.

(** X6: in a reachable state no operation indexes outside the frame
    array: [FetchPage], [UnpinPage], [NewPage], [DeletePage] and
    [FlushPage] all return. *)
Theorem bpm_operations_stay_in_pool {Data : Type} (zeroed : Data) (pool_size : nat)
    (disk : Disk.DiskManager Data) (b : BPM.BufferPoolManager) (op : BPM.Op) :
  BPM.reachable zeroed pool_size disk b →
  ∃ b', BPM.step zeroed op b = Some b' ∧ BPM.reachable zeroed pool_size disk b'.
Proof.
  intros Hr. pose proof (reachable_inv zeroed _ _ _ Hr) as Hinv.
  destruct (step_total zeroed op b Hinv) as [b' Hb'].
  exists b'. split; [done|]. by eapply BPM.reachable_step.
Qed.

Lemma bpm_operations_stay_in_pool_witness :
  ∃ b', BPM.step tt (BPM.OpDeletePage 0%Z) Scenario.one_unpinned = Some b' ∧
        BPM.reachable tt 2 Scenario.disk0 b'.
Proof.
  apply (bpm_operations_stay_in_pool tt 2 Scenario.disk0 Scenario.one_unpinned).
  apply (reachable_run tt 2 Scenario.disk0
           [BPM.OpNewPage 0%Z; BPM.OpUnpinPage 0%Z false] _ _
           (BPM.reachable_init tt 2 Scenario.disk0)).
  vm_compute. reflexivity.
Defined.

(** X7: in a reachable state the replacer is never full when a frame
    becomes evictable: the [UnpinPage] that releases the last pin puts the
    frame at the most recent end and drops no other frame. *)
Theorem bpm_unpin_last_pin_enqueues {Data : Type} (zeroed : Data) (pool_size : nat)
    (disk : Disk.DiskManager Data) (b : BPM.BufferPoolManager)
    (p : page_id_t) (f : frame_id_t) (page : BPM.Page) (hint : bool) :
  BPM.reachable zeroed pool_size disk b →
  BPM.page_table_ b !! p = Some f → BPM.pages_ b !! f = Some page →
  BPM.pin_count_ page = 1%Z →
  ∃ b', BPM.UnpinPage p hint b = Some (b', true) ∧
        LRU.buffer (BPM.replacer_ b') = f :: LRU.buffer (BPM.replacer_ b).
Proof.
  intros Hr Hp Hpg Hpin. pose proof (reachable_inv zeroed _ _ _ Hr) as Hinv.
  assert (Hnot : f ∉ LRU.buffer (BPM.replacer_ b)).
  { eapply pinned_not_evictable; [done|exact Hpg|lia]. }
  assert (Hlen : length (LRU.buffer (BPM.replacer_ b)) < LRU.capacity (BPM.replacer_ b)).
  { rewrite (BPM.inv_capacity b Hinv), <- (BPM.inv_pool b Hinv).
    change (length (f :: LRU.buffer (BPM.replacer_ b)) ≤ length (BPM.pages_ b)).
    apply frames_bounded.
    - constructor; [done|apply Hinv].
    - intros g Hg. apply elem_of_cons in Hg as [->|Hg]; [by eapply lookup_lt_Some|].
      destruct (BPM.inv_replacer_unpinned b Hinv g Hg) as (pg & Hg' & _).
      by eapply lookup_lt_Some. }
  eexists. split.
  { unfold BPM.UnpinPage, BPM.UnpinPageImpl. rewrite Hp, Hpg. simpl.
    case_decide; [lia|]. reflexivity. }
  simpl. case_decide; [|lia]. by rewrite Unpin_fresh.
Qed.

Lemma bpm_unpin_last_pin_enqueues_witness :
  ∃ b', BPM.UnpinPage 0%Z true Scenario.one_pinned = Some (b', true) ∧
        LRU.buffer (BPM.replacer_ b') = 0 :: LRU.buffer (BPM.replacer_ Scenario.one_pinned).
Proof.
  apply (bpm_unpin_last_pin_enqueues tt 2 Scenario.disk0 Scenario.one_pinned 0%Z 0
           (BPM.mkPage 0%Z 1 false tt) true).
  - apply (reachable_run tt 2 Scenario.disk0 [BPM.OpNewPage 0%Z] _ _
             (BPM.reachable_init tt 2 Scenario.disk0)).
    vm_compute. reflexivity.
  - vm_compute. reflexivity.
  - vm_compute. reflexivity.
  - reflexivity.
Defined.

(** X8: [DeletePage] in a reachable state.  It refuses a page that is
    pinned and changes nothing.  For a cached, unpinned page it succeeds:
    the page leaves the table, no table entry refers to its frame any
    more, the frame is reset, leaves the replacer and joins the back of
    the free list, a dirty page's bytes are on disk, and the last disk
    call is [DeallocatePage]. *)
Theorem bpm_delete_page {Data : Type} (zeroed : Data) (pool_size : nat)
    (disk : Disk.DiskManager Data) (b : BPM.BufferPoolManager)
    (p : page_id_t) (f : frame_id_t) (page : BPM.Page) :
  BPM.reachable zeroed pool_size disk b →
  BPM.page_table_ b !! p = Some f → BPM.pages_ b !! f = Some page →
  ((0 < BPM.pin_count_ page)%Z → BPM.DeletePage zeroed p b = Some (b, false)) ∧
  ((BPM.pin_count_ page ≤ 0)%Z →
     ∃ b', BPM.DeletePage zeroed p b = Some (b', true) ∧
       BPM.page_table_ b' !! p = None ∧
       (∀ q, BPM.page_table_ b' !! q ≠ Some f) ∧
       BPM.pages_ b' !! f
         = Some (BPM.mkPage INVALID_PAGE_ID (BPM.pin_count_ page) false zeroed) ∧
       BPM.free_list_ b' = BPM.free_list_ b ++ [f] ∧
       (f ∉ LRU.buffer (BPM.replacer_ b')) ∧
       (BPM.is_dirty_ page = true →
          Disk.contents (BPM.disk_manager_ b') p = BPM.data_ page) ∧
       last (Disk.calls (BPM.disk_manager_ b')) = Some (Disk.CallDeallocatePage p)).
Proof.
  intros Hr Hp Hpg. pose proof (reachable_inv zeroed _ _ _ Hr) as Hinv.
  unfold BPM.DeletePage, BPM.DeletePageImpl. rewrite Hp, Hpg. simpl. split.
  - intros Hpin. case_decide; [done|lia].
  - intros Hpin. case_decide; [lia|].
    assert (Hid : BPM.page_id_ page = p).
    { destruct (BPM.inv_table_page b Hinv p f Hp) as (pg0 & Hpg0 & Hid0). congruence. }
    eexists. split; [reflexivity|]. simpl.
    split; [apply lookup_delete_eq|].
    split.
    { intros q Hq. rewrite lookup_delete in Hq. case_decide as Hne; [done|].
      apply Hne. symmetry. by eapply table_frame_unique. }
    split; [by eapply page_update_eq|].
    split; [done|].
    split; [apply erase_first_not_elem, Hinv|].
    split.
    + intros Hd. rewrite Hd, Hid. simpl. by case_decide.
    + by rewrite last_snoc.
Qed.

Lemma bpm_delete_page_witness :
  ((0 < 0)%Z → BPM.DeletePage tt 0%Z Scenario.one_unpinned
                 = Some (Scenario.one_unpinned, false)) ∧
  ((0 ≤ 0)%Z →
     ∃ b', BPM.DeletePage tt 0%Z Scenario.one_unpinned = Some (b', true) ∧
       BPM.page_table_ b' !! 0%Z = None ∧
       (∀ q, BPM.page_table_ b' !! q ≠ Some 0) ∧
       BPM.pages_ b' !! 0 = Some (BPM.mkPage INVALID_PAGE_ID 0 false tt) ∧
       BPM.free_list_ b' = BPM.free_list_ Scenario.one_unpinned ++ [0] ∧
       (0 ∉ LRU.buffer (BPM.replacer_ b')) ∧
       (false = true → Disk.contents (BPM.disk_manager_ b') 0%Z = tt) ∧
       last (Disk.calls (BPM.disk_manager_ b')) = Some (Disk.CallDeallocatePage 0%Z)).
Proof.
  apply (bpm_delete_page tt 2 Scenario.disk0 Scenario.one_unpinned 0%Z 0
           (BPM.mkPage 0%Z 0 false tt)).
  - apply (reachable_run tt 2 Scenario.disk0
             [BPM.OpNewPage 0%Z; BPM.OpUnpinPage 0%Z false] _ _
             (BPM.reachable_init tt 2 Scenario.disk0)).
    vm_compute. reflexivity.
  - vm_compute. reflexivity.
  - vm_compute. reflexivity.
Defined.

(** X9: pins balance.  In a reachable state, [FetchPage] of a page that
    is cached and already pinned, with a pin count below [INT_MAX] so that
    [pin_count_++] does not overflow, followed by [UnpinPage(p, false)]
    leaves the buffer pool exactly as it was: no disk call, same frames,
    same replacer.  In between the pin count is one higher and still in
    the range of [int]. *)
Theorem bpm_fetch_then_unpin_restores {Data : Type} (zeroed : Data) (pool_size : nat)
    (disk : Disk.DiskManager Data) (b : BPM.BufferPoolManager)
    (p : page_id_t) (f : frame_id_t) (page : BPM.Page) :
  BPM.reachable zeroed pool_size disk b →
  BPM.page_table_ b !! p = Some f → BPM.pages_ b !! f = Some page →
  (1 ≤ BPM.pin_count_ page)%Z → (BPM.pin_count_ page < INT_MAX)%Z →
  ∃ b1, BPM.FetchPage p b = Some (b1, Some f) ∧
        (∃ page1, BPM.pages_ b1 !! f = Some page1 ∧
           BPM.pin_count_ page1 = (BPM.pin_count_ page + 1)%Z ∧
           (BPM.pin_count_ page1 ≤ INT_MAX)%Z) ∧
        BPM.UnpinPage p false b1 = Some (b, true).
Proof.
  intros Hr Hp Hpg Hpin Hmax. pose proof (reachable_inv zeroed _ _ _ Hr) as Hinv.
  assert (Hnot : f ∉ LRU.buffer (BPM.replacer_ b)).
  { eapply pinned_not_evictable; [done|exact Hpg|lia]. }
  eexists. split.
  { unfold BPM.FetchPage, BPM.FetchPageImpl. rewrite Hp, Hpg. simpl. reflexivity. }
  split.
  { simpl. eexists. split; [exact (page_update_eq _ _ _ _ Hpg)|]. simpl.
    split; [done|lia]. }
  unfold BPM.UnpinPage, BPM.UnpinPageImpl. simpl. rewrite Hp.
  rewrite (page_update_eq _ _ _ _ Hpg). simpl.
  case_decide; [lia|]. case_decide; [lia|].
  rewrite list_insert_insert_eq, Pin_absent by done.
  replace (BPM.pin_count_ page + 1 - 1)%Z with (BPM.pin_count_ page) by lia.
  rewrite andb_false_r.
  rewrite list_insert_id by (rewrite Hpg; by destruct page).
  by destruct b.
Qed.

Lemma bpm_fetch_then_unpin_restores_witness :
  ∃ b1, BPM.FetchPage 0%Z Scenario.one_pinned = Some (b1, Some 0) ∧
        (∃ page1, BPM.pages_ b1 !! 0 = Some page1 ∧
           BPM.pin_count_ page1 = (BPM.pin_count_ (BPM.mkPage 0%Z 1 false tt) + 1)%Z ∧
           (BPM.pin_count_ page1 ≤ INT_MAX)%Z) ∧
        BPM.UnpinPage 0%Z false b1 = Some (Scenario.one_pinned, true).
Proof.
  apply (bpm_fetch_then_unpin_restores tt 2 Scenario.disk0 Scenario.one_pinned 0%Z 0
           (BPM.mkPage 0%Z 1 false tt)).
  - apply (reachable_run tt 2 Scenario.disk0 [BPM.OpNewPage 0%Z] _ _
             (BPM.reachable_init tt 2 Scenario.disk0)).
    vm_compute. reflexivity.
  - vm_compute. reflexivity.
  - vm_compute. reflexivity.
  - simpl. lia.
  - vm_compute. reflexivity.
Defined.

(* ===================================================================== *)
(** * Page contents across fetches, unpins, flushes and new pages *)
(* ===================================================================== *)

Section BPMLossless.
Context {Data : Type}.
Variable zeroed : Data.
Import LRU Disk BPM Runs.

Abbreviation pool := (@BufferPoolManager Data).

Lemma FetchPage_hit_lossless (b : pool) c f :
  bpm_wf b → page_table_ b !! c = Some f →
  ∃ b1, FetchPage c b = Some (b1, Some f) ∧ bpm_wf b1 ∧
        page_table_ b1 = page_table_ b ∧
        (∃ pg, pages_ b1 !! f = Some pg ∧ (1 ≤ pin_count_ pg)%Z) ∧
        (∀ g, g ≠ f → pages_ b1 !! g = pages_ b !! g) ∧
        (∀ q, page_image b1 q = page_image b q).
Proof.
  intros Hwf Hc.
  destruct (inv_table_page b (wf_inv b Hwf) c f Hc) as (pg & Hpg & Hid).
  eexists. split.
  { unfold FetchPage, FetchPageImpl. rewrite Hc, Hpg. simpl. reflexivity. }
  assert (Hk : (0 ≤ pin_count_ pg)%Z) by by eapply wf_pins.
  split; [|split; [done|split; [|split]]].
  - eapply bpm_wf_update; try done; simpl.
    + lia.
    + apply erase_first_NoDup, Hwf.
    + intros g Hg _. exact (erase_first_subset f g _ Hg).
    + intros Hf. exfalso.
      exact (erase_first_not_elem f _ (inv_replacer_nodup b (wf_inv b Hwf)) Hf).
  - eexists. simpl. split; [by eapply page_update_eq|]. simpl. lia.
  - intros g Hg. simpl. by apply page_update_ne.
  - intros q. rewrite (page_image_update b f pg) by (done || apply Hwf).
    case_decide as Hq; [|done]. simpl. unfold page_image. by rewrite Hq, Hpg.
Qed.

(** [FetchPage] on a well-formed pool: it returns, the pool stays well
    formed, no page's image changes, and a frame it hands out is mapped to
    the page and pinned. *)
Lemma FetchPage_lossless (b : pool) c :
  bpm_wf b →
  ∃ b1 r, FetchPage c b = Some (b1, r) ∧ bpm_wf b1 ∧
          (∀ q, page_image b1 q = page_image b q) ∧
          (∀ f, r = Some f →
             page_table_ b1 !! c = Some f ∧
             ∃ pg, pages_ b1 !! f = Some pg ∧ (1 ≤ pin_count_ pg)%Z).
Proof.
  intros Hwf.
  destruct (page_table_ b !! c) as [f|] eqn:Hc.
  - destruct (FetchPage_hit_lossless b c f Hwf Hc)
      as (b1 & H1 & Hw & Ht & Hpg & _ & Himg).
    exists b1, (Some f). split; [done|]. split; [done|]. split; [done|].
    intros f' [= <-]. split; [by rewrite Ht|done].
  - destruct (free_list_ b) as [|f rest] eqn:Hfree.
    + destruct (buffer (replacer_ b)) as [|x l] eqn:Hbuf.
      * exists b, None. split.
        { unfold FetchPage, FetchPageImpl. rewrite Hc, Hfree.
          destruct (replacer_ b) as [cap buf]. simpl in Hbuf. subst buf.
          by rewrite Victim_nil. }
        split; [done|]. split; [done|]. intros f [=].
      * destruct (FetchPage_victim_spec b c Hwf Hc Hfree)
          as (b1 & f & H1 & Hw & Ht & (pg & Hpg & Hpin & _) & Himg).
        { by rewrite Hbuf. }
        exists b1, (Some f). split; [done|]. split; [done|]. split; [done|].
        intros f' [= <-]. split; [done|]. by exists pg.
    + destruct (FetchPage_free_spec b c f rest Hwf Hc Hfree)
        as (b1 & H1 & Hw & Ht & (pg & Hpg & Hpin & _) & Himg).
      exists b1, (Some f). split; [done|]. split; [done|]. split; [done|].
      intros f' [= <-]. split; [done|]. by exists pg.
Qed.

Lemma UnpinPage_dirty_lossless (b : pool) c f pg :
  bpm_wf b → page_table_ b !! c = Some f → pages_ b !! f = Some pg →
  (1 ≤ pin_count_ pg)%Z →
  ∃ b3, UnpinPage c true b = Some (b3, true) ∧ bpm_wf b3 ∧
        ∀ q, page_image b3 q = page_image b q.
Proof.
  intros Hwf Hc Hpg Hpin. pose proof (wf_inv b Hwf) as Hinv.
  assert (Hid : page_id_ pg = c).
  { destruct (inv_table_page b Hinv c f Hc) as (pg0 & Hpg0 & Hid0). congruence. }
  eexists. split.
  { unfold UnpinPage, UnpinPageImpl. rewrite Hc, Hpg. simpl.
    case_decide; [lia|]. reflexivity. }
  split.
  - eapply bpm_wf_update; try done; simpl.
    + lia.
    + case_decide; [apply Unpin_NoDup|]; apply Hinv.
    + case_decide; [apply Unpin_capacity|done].
    + intros g Hg Hgf. case_decide; [|done].
      apply Unpin_subset in Hg as [->|Hg]; done.
    + intros Hf. case_decide as Hz.
      * split; [done|]. split; [by eapply (inv_table_free b Hinv)|].
        split; [by rewrite Hid|]. by destruct (is_dirty_ pg).
      * exfalso. revert Hf. eapply pinned_not_evictable; [done|exact Hpg|lia].
  - intros q. rewrite (page_image_update b f pg) by done. simpl.
    case_decide as Hq; [|done]. unfold page_image. by rewrite Hq, Hpg.
Qed.

Lemma UnpinPage_true_lossless (b : pool) c :
  bpm_wf b →
  ∃ b' r, UnpinPage c true b = Some (b', r) ∧ bpm_wf b' ∧
          ∀ q, page_image b' q = page_image b q.
Proof.
  intros Hwf.
  destruct (page_table_ b !! c) as [f|] eqn:Hc.
  - destruct (inv_table_page b (wf_inv b Hwf) c f Hc) as (pg & Hpg & Hid).
    destruct (decide (pin_count_ pg ≤ 0)%Z) as [Hle|Hgt].
    + exists b, false. split; [|done].
      unfold UnpinPage, UnpinPageImpl. rewrite Hc, Hpg. simpl. by case_decide.
    + destruct (UnpinPage_dirty_lossless b c f pg Hwf Hc Hpg) as (b3 & H3 & Hw & Hi);
        [lia|]. by exists b3, true.
  - exists b, true. split; [|done].
    unfold UnpinPage, UnpinPageImpl. by rewrite Hc.
Qed.

Lemma access_all_lossless ops : ∀ (b : pool),
  bpm_wf b →
  ∃ b', access_all ops b = Some b' ∧ bpm_wf b' ∧
        ∀ q, page_image b' q = page_image b q.
Proof.
  induction ops as [|[c|c] ops IH]; intros b Hwf; simpl.
  - by exists b.
  - destruct (FetchPage_lossless b c Hwf) as (b1 & r & H1 & Hw1 & Himg1 & _).
    rewrite H1. simpl.
    destruct (IH b1 Hw1) as (b' & H' & Hw' & Himg').
    exists b'. split; [done|]. split; [done|].
    intros q. by rewrite Himg', Himg1.
  - destruct (UnpinPage_true_lossless b c Hwf) as (b1 & r & H1 & Hw1 & Himg1).
    rewrite H1. simpl.
    destruct (IH b1 Hw1) as (b' & H' & Hw' & Himg').
    exists b'. split; [done|]. split; [done|].
    intros q. by rewrite Himg', Himg1.
Qed.

(** The frame [FetchPage] hands out is pinned, and its pin count is in
    the range of [int] when the count of a cached page was below
    [INT_MAX]. *)
Lemma FetchPage_pin_range (b b1 : @BufferPoolManager Data) c f :
  bpm_wf b →
  (∀ g page, page_table_ b !! c = Some g → pages_ b !! g = Some page →
     (pin_count_ page < INT_MAX)%Z) →
  FetchPage c b = Some (b1, Some f) →
  ∃ page1, pages_ b1 !! f = Some page1 ∧ (1 ≤ pin_count_ page1 ≤ INT_MAX)%Z.
Proof.
  intros Hwf Hmax. unfold FetchPage, FetchPageImpl.
  destruct (page_table_ b !! c) as [g|] eqn:Hc.
  - destruct (pages_ b !! g) as [pg|] eqn:Hpg; simpl; [|done].
    intros [= <- <-]. simpl. eexists. split; [exact (page_update_eq _ _ _ _ Hpg)|].
    simpl. pose proof (wf_pins b Hwf c g pg Hc Hpg).
    pose proof (Hmax g pg eq_refl Hpg). lia.
  - destruct (free_list_ b) as [|g rest].
    + destruct (Victim (replacer_ b)) as [repl' [g|]]; [|by intros [=]].
      destruct (pages_ b !! g) as [pg|] eqn:Hpg; simpl; [|done].
      intros [= <- <-]. simpl. eexists. split; [exact (page_update_eq _ _ _ _ Hpg)|].
      simpl. unfold INT_MAX. lia.
    + destruct (pages_ b !! g) as [pg|] eqn:Hpg; simpl; [|done].
      intros [= <- <-]. simpl. eexists. split; [exact (page_update_eq _ _ _ _ Hpg)|].
      simpl. unfold INT_MAX. lia.
Qed.

End BPMLossless.

(** X10: [FetchPage] loses nothing.  On a well-formed pool, the requested
    page, when it is cached, having a pin count below [INT_MAX] so that
    [pin_count_++] does not overflow: [FetchPage] returns, keeps the pool
    well formed and leaves the current image of every page as it was (a
    dirty victim is written back, a clean one equals its disk copy); the
    frame it hands out holds the image of the requested page and has a pin
    count between 1 and [INT_MAX]. *)
Theorem bpm_fetch_page_lossless {Data : Type} (b : @BPM.BufferPoolManager Data)
    (c : page_id_t) :
  BPM.bpm_wf b →
  (∀ g page, BPM.page_table_ b !! c = Some g → BPM.pages_ b !! g = Some page →
     (BPM.pin_count_ page < INT_MAX)%Z) →
  ∃ b1 r, BPM.FetchPage c b = Some (b1, r) ∧ BPM.bpm_wf b1 ∧
    (∀ q, BPM.page_image b1 q = BPM.page_image b q) ∧
    (∀ f, r = Some f →
       BPM.page_table_ b1 !! c = Some f ∧
       BPM.data_ <$> BPM.pages_ b1 !! f = BPM.page_image b c ∧
       ∃ page1, BPM.pages_ b1 !! f = Some page1 ∧
                (1 ≤ BPM.pin_count_ page1 ≤ INT_MAX)%Z).
Proof.
  intros Hwf Hmax.
  destruct (FetchPage_lossless b c Hwf) as (b1 & r & H1 & Hw1 & Himg & Hr).
  exists b1, r. split; [done|]. split; [done|]. split; [done|].
  intros f Hf. destruct (Hr f Hf) as (Ht & _). split; [done|]. split.
  { rewrite <- Himg. unfold BPM.page_image. by rewrite Ht. }
  subst r. exact (FetchPage_pin_range b b1 c f Hwf Hmax H1).
Qed.

Lemma bpm_fetch_page_lossless_witness :
  ∃ b1 r, BPM.FetchPage 5%Z Scenario.pool_five = Some (b1, r) ∧
    BPM.bpm_wf b1 ∧
    (∀ q, BPM.page_image b1 q = BPM.page_image Scenario.pool_five q) ∧
    (∀ f, r = Some f →
       BPM.page_table_ b1 !! 5%Z = Some f ∧
       BPM.data_ <$> BPM.pages_ b1 !! f = BPM.page_image Scenario.pool_five 5%Z ∧
       ∃ page1, BPM.pages_ b1 !! f = Some page1 ∧
                (1 ≤ BPM.pin_count_ page1 ≤ INT_MAX)%Z).
Proof.
  apply (bpm_fetch_page_lossless Scenario.pool_five 5%Z).
  - apply (FetchPage_wf (BPM.init Tree.zeroed 3 Scenario.disk_raw)
             Scenario.pool_five 5%Z (Some 0)).
    + apply bpm_wf_init.
    + left. vm_compute. discriminate.
    + vm_compute. reflexivity.
  - intros g page Hg Hpage. vm_compute in Hg. injection Hg as <-.
    vm_compute in Hpage. injection Hpage as <-. vm_compute. reflexivity.
Defined.

(** X11: dirty write-back.  The holder of a pin stores [bytes] in the
    frame of page [p] and unpins it dirty.  Whatever pages are fetched and
    released (dirty) afterwards, evicting [p] or not, a later
    [FetchPage(p)] that hands out a frame hands out one holding
    [bytes]. *)
Theorem bpm_dirty_page_survives_eviction {Data : Type} (b : @BPM.BufferPoolManager Data)
    (p : page_id_t) (f : frame_id_t) (page : BPM.Page) (bytes : Data)
    (ops : list Runs.Access) :
  BPM.bpm_wf b →
  BPM.page_table_ b !! p = Some f → BPM.pages_ b !! f = Some page →
  (1 ≤ BPM.pin_count_ page)%Z →
  ∃ b1 b2 b3 b4 r,
    Runs.write_data f bytes b = Some b1 ∧
    BPM.UnpinPage p true b1 = Some (b2, true) ∧
    Runs.access_all ops b2 = Some b3 ∧
    BPM.FetchPage p b3 = Some (b4, r) ∧
    ∀ f', r = Some f' → BPM.data_ <$> BPM.pages_ b4 !! f' = Some bytes.
Proof.
  intros Hwf Hp Hpg Hpin.
  destruct (write_frame_spec b p f page bytes Hwf Hp Hpg Hpin) as [Hwf1 Himg1].
  destruct (UnpinPage_dirty_lossless _ p f
              (BPM.mkPage (BPM.page_id_ page) (BPM.pin_count_ page)
                          (BPM.is_dirty_ page) bytes) Hwf1)
    as (b2 & H2 & Hwf2 & Himg2); [done| |done|].
  { simpl. exact (page_update_eq _ _ _ _ Hpg). }
  destruct (access_all_lossless ops b2 Hwf2) as (b3 & H3 & Hwf3 & Himg3).
  destruct (FetchPage_lossless b3 p Hwf3) as (b4 & r & H4 & Hwf4 & Himg4 & Hr).
  eexists _, b2, b3, b4, r.
  split; [unfold Runs.write_data; rewrite Hpg; reflexivity|].
  split; [done|]. split; [done|]. split; [done|].
  intros f' Hf'. destruct (Hr f' Hf') as (Ht & _).
  assert (Him : BPM.page_image b4 p = Some bytes).
  { rewrite Himg4, Himg3, Himg2, Himg1. by rewrite decide_True. }
  unfold BPM.page_image in Him. by rewrite Ht in Him.
Qed.

Lemma bpm_dirty_page_survives_eviction_witness :
  ∃ b1 b2 b3 b4 r,
    Runs.write_data 0 (Tree.raw_set_parent 77 Tree.zeroed) Scenario.pool_five = Some b1 ∧
    BPM.UnpinPage 5%Z true b1 = Some (b2, true) ∧
    Runs.access_all [Runs.Fetch 6; Runs.Fetch 7; Runs.Fetch 8; Runs.Release 6]%Z b2
      = Some b3 ∧
    BPM.FetchPage 5%Z b3 = Some (b4, r) ∧
    ∀ f', r = Some f' →
      BPM.data_ <$> BPM.pages_ b4 !! f' = Some (Tree.raw_set_parent 77 Tree.zeroed).
Proof.
  apply (bpm_dirty_page_survives_eviction Scenario.pool_five 5%Z 0
           (BPM.mkPage 5%Z 1 false Tree.zeroed)).
  - apply (FetchPage_wf (BPM.init Tree.zeroed 3 Scenario.disk_raw)
             Scenario.pool_five 5%Z (Some 0)).
    + apply bpm_wf_init.
    + left. vm_compute. discriminate.
    + vm_compute. reflexivity.
  - vm_compute. reflexivity.
  - vm_compute. reflexivity.
  - simpl. lia.
Defined.

Section BPMNewPage.
Context {Data : Type}.
Variable zeroed : Data.
Import LRU Disk BPM Runs.

Abbreviation pool := (@BufferPoolManager Data).

(** What a successful [NewPage] guarantees. *)
Abbreviation new_page_ok b b' f :=
  (bpm_wf b' ∧
   page_table_ b' !! next_page_id (disk_manager_ b) = Some f ∧
   pages_ b' !! f = Some (mkPage (next_page_id (disk_manager_ b)) 1 false zeroed) ∧
   next_page_id (disk_manager_ b') = Z.add (next_page_id (disk_manager_ b)) 1 ∧
   (∀ q, q ≠ next_page_id (disk_manager_ b) → page_image b' q = page_image b q) ∧
   (∀ q g pg, page_table_ b !! q = Some g → pages_ b !! g = Some pg →
      (0 < pin_count_ pg)%Z →
      page_table_ b' !! q = Some g ∧ pages_ b' !! g = Some pg)).

Lemma init_free_frames_blank n d : free_frames_blank (init zeroed n d).
Proof.
  intros f page _ Hpg. simpl in Hpg. apply lookup_replicate in Hpg as [-> _].
  split; [done|]. simpl. apply lookup_empty.
Qed.

Lemma NewPage_free_lossless (b : pool) out f rest :
  bpm_wf b → free_frames_blank b →
  page_table_ b !! next_page_id (disk_manager_ b) = None →
  free_list_ b = f :: rest →
  ∃ b', NewPage zeroed out b = Some (b', next_page_id (disk_manager_ b), Some f) ∧
        new_page_ok b b' f.
Proof.
  intros Hwf Hblank Hk Hfree. pose proof (wf_inv b Hwf) as Hinv.
  set (k := next_page_id (disk_manager_ b)) in *.
  assert (Hin : f ∈ free_list_ b) by (rewrite Hfree; left).
  destruct (lookup_lt_is_Some_2 (pages_ b) f) as [pg Hpg];
    [by apply (inv_free_range b Hinv)|].
  destruct (Hblank f pg Hin Hpg) as [Hclean Hstale].
  assert (Htab : ∀ q, q ≠ k →
            (<[k := f]> (delete (page_id_ pg) (page_table_ b))) !! q = page_table_ b !! q).
  { intros q Hq. rewrite lookup_insert_ne by done.
    rewrite lookup_delete. case_decide; [|done]. by subst q. }
  assert (Hnew : NewPage zeroed out b =
    Some (mkBPM (pool_size_ b) (<[f := mkPage k 1 false zeroed]> (pages_ b))
            (<[k := f]> (delete (page_id_ pg) (page_table_ b))) rest (replacer_ b)
            (fst (AllocatePage (disk_manager_ b))), k, Some f)).
  { unfold NewPage, NewPageImpl, install_new_page. rewrite Hfree, Hpg. simpl.
    rewrite Hclean. simpl. fold k.
    rewrite table_insert_fresh; [done|]. rewrite lookup_delete. by case_decide. }
  eexists. split; [exact Hnew|].
  assert (Hother : ∀ q g, page_table_ b !! q = Some g → g ≠ f ∧ q ≠ k).
  { intros q g Hq. split.
    - intros ->. by eapply (inv_table_free b Hinv q f).
    - intros ->. congruence. }
  assert (Hrepl : ∀ g, g ∈ buffer (replacer_ b) → g ≠ f).
  { intros g Hg ->. by eapply (inv_free_replacer b Hinv f). }
  split; [split|split; [|split; [|split; [|split]]]]; simpl.
  - by eapply NewPage_inv.
  - intros q g page Hq Hg. destruct (decide (q = k)) as [->|Hqk].
    + rewrite lookup_insert_eq in Hq. injection Hq as <-.
      rewrite (page_update_eq _ _ _ _ Hpg) in Hg. by injection Hg as <-.
    + rewrite Htab in Hq by done. destruct (Hother q g Hq) as [Hgf _].
      rewrite page_update_ne in Hg by done. by eapply (wf_pins b Hwf).
  - intros g page Hg Hpage. rewrite page_update_ne in Hpage by by apply Hrepl.
    pose proof (wf_replacer_table b Hwf g page Hg Hpage) as Ht.
    rewrite Htab; [done|]. by apply (Hother _ g).
  - intros g page Hg Hpage Hcl. rewrite page_update_ne in Hpage by by apply Hrepl.
    exact (wf_clean b Hwf g page Hg Hpage Hcl).
  - apply lookup_insert_eq.
  - by eapply page_update_eq.
  - done.
  - intros q Hq. unfold page_image. simpl. rewrite Htab by done.
    destruct (page_table_ b !! q) as [g|] eqn:Hqg; [|done].
    rewrite page_update_ne; [done|]. by apply (Hother q g).
  - intros q g pg0 Hq Hg _. destruct (Hother q g Hq) as [Hgf Hqk].
    rewrite Htab by done. by rewrite page_update_ne.
Qed.

Lemma NewPage_victim_lossless (b : pool) out :
  bpm_wf b → page_table_ b !! next_page_id (disk_manager_ b) = None →
  free_list_ b = [] → buffer (replacer_ b) ≠ [] →
  ∃ b' f, NewPage zeroed out b = Some (b', next_page_id (disk_manager_ b), Some f) ∧
          new_page_ok b b' f.
Proof.
  intros Hwf Hk Hfree Hbuf. pose proof (wf_inv b Hwf) as Hinv.
  set (k := next_page_id (disk_manager_ b)) in *.
  destruct (snoc_inv (buffer (replacer_ b))) as [?|(l & f & Hl)]; [done|].
  assert (Hv : Victim (replacer_ b) = (mkLRU (capacity (replacer_ b)) l, Some f)).
  { destruct (replacer_ b) as [cap buf]. simpl in Hl. subst buf. apply Victim_snoc. }
  assert (Hin : f ∈ buffer (replacer_ b)).
  { rewrite Hl. apply elem_of_app. right. left. }
  destruct (inv_replacer_unpinned b Hinv f Hin) as (pg & Hpg & Hpin).
  pose proof (wf_replacer_table b Hwf f pg Hin Hpg) as Hq0.
  assert (Hne : page_id_ pg ≠ k) by congruence.
  pose proof (inv_replacer_nodup b Hinv) as Hnd. rewrite Hl in Hnd.
  apply NoDup_app in Hnd as (Hnd1 & Hnd2 & _).
  set (disk1 := if is_dirty_ pg
                then WritePage (page_id_ pg) (data_ pg) (disk_manager_ b)
                else disk_manager_ b).
  assert (Hnext : next_page_id disk1 = k).
  { subst disk1. by destruct (is_dirty_ pg). }
  assert (Hdisk : ∀ q, q ≠ page_id_ pg → contents disk1 q = contents (disk_manager_ b) q).
  { intros q Hq. subst disk1. destruct (is_dirty_ pg); [|done]. simpl. by case_decide. }
  assert (Hevict : contents disk1 (page_id_ pg) = data_ pg).
  { subst disk1. destruct (is_dirty_ pg) eqn:Hd.
    - simpl. case_decide; done.
    - symmetry. by apply (wf_clean b Hwf f pg). }
  assert (Hnew : NewPage zeroed out b =
    Some (mkBPM (pool_size_ b) (<[f := mkPage k 1 false zeroed]> (pages_ b))
            (<[k := f]> (delete (page_id_ pg) (page_table_ b))) (free_list_ b)
            (mkLRU (capacity (replacer_ b)) l)
            (fst (AllocatePage disk1)), k, Some f)).
  { unfold NewPage, NewPageImpl, install_new_page. rewrite Hv. rewrite Hfree at 1.
    rewrite Hpg. simpl. fold disk1. rewrite Hnext.
    rewrite table_insert_fresh; [done|]. rewrite lookup_delete. by case_decide. }
  eexists _, f. split; [exact Hnew|].
  assert (Hother : ∀ q g, page_table_ b !! q = Some g → q ≠ page_id_ pg → g ≠ f).
  { intros q g Hq Hqne ->.
    destruct (inv_table_page b Hinv q f Hq) as (pg0 & Hpg0 & Hid). congruence. }
  assert (Hrepl : ∀ g, g ∈ l → g ≠ f ∧ g ∈ buffer (replacer_ b)).
  { intros g Hg. split.
    - intros ->. apply (Hnd2 f Hg). left.
    - rewrite Hl. apply elem_of_app. by left. }
  split; [split|split; [|split; [|split; [|split]]]]; simpl.
  - by eapply NewPage_inv.
  - intros q g page Hq Hg. rewrite lookup_insert in Hq. case_decide as Hqc.
    + injection Hq as <-. rewrite (page_update_eq _ _ _ _ Hpg) in Hg.
      by injection Hg as <-.
    + rewrite lookup_delete in Hq. case_decide as Hqd; [done|].
      rewrite page_update_ne in Hg by (eapply Hother; [done|congruence]).
      by eapply (wf_pins b Hwf).
  - intros g page Hg Hpage. destruct (Hrepl g Hg) as [Hgf Hgb].
    rewrite page_update_ne in Hpage by done.
    pose proof (wf_replacer_table b Hwf g page Hgb Hpage) as Ht.
    rewrite lookup_insert_ne by (intros Heq; rewrite <- Heq in Ht; congruence).
    rewrite lookup_delete_ne by (intros Heq; rewrite <- Heq in Ht; congruence).
    done.
  - intros g page Hg Hpage Hcl. destruct (Hrepl g Hg) as [Hgf Hgb].
    rewrite page_update_ne in Hpage by done.
    pose proof (wf_replacer_table b Hwf g page Hgb Hpage) as Ht.
    rewrite Hdisk by (intros Heq; rewrite Heq in Ht; congruence).
    exact (wf_clean b Hwf g page Hgb Hpage Hcl).
  - apply lookup_insert_eq.
  - by eapply page_update_eq.
  - by rewrite Hnext.
  - intros q Hqk. unfold page_image. simpl. rewrite lookup_insert_ne by done.
    rewrite lookup_delete. case_decide as Hqd.
    + subst q. rewrite Hq0, Hpg. simpl. by rewrite Hevict.
    + destruct (page_table_ b !! q) as [g|] eqn:Hq.
      * rewrite page_update_ne; [done|]. eapply Hother; [done|congruence].
      * by rewrite Hdisk by congruence.
  - intros q g pg0 Hq Hg Hpin0.
    assert (Hgf : g ≠ f).
    { intros ->. rewrite Hpg in Hg. injection Hg as <-. lia. }
    assert (Hqd : q ≠ page_id_ pg) by (intros ->; congruence).
    assert (Hqk : q ≠ k) by (intros ->; congruence).
    rewrite lookup_insert_ne, lookup_delete_ne by done.
    by rewrite page_update_ne.
Qed.

End BPMNewPage.

(** X12: [NewPage] on a well-formed pool with a frame to give, whose free
    frames are blank and whose next disk page id is not cached: it returns
    the id [AllocatePage] hands out, in a zeroed clean frame pinned once
    and entered in the table; the image of every other page is as before
    (a dirty victim was written back), and every pinned page keeps its
    table entry and its frame. *)
Theorem bpm_new_page_lossless {Data : Type} (zeroed : Data)
    (b : @BPM.BufferPoolManager Data) (out : page_id_t) :
  BPM.bpm_wf b → Runs.free_frames_blank b →
  BPM.page_table_ b !! Disk.next_page_id (BPM.disk_manager_ b) = None →
  BPM.frame_available b →
  ∃ b' f,
    BPM.NewPage zeroed out b
      = Some (b', Disk.next_page_id (BPM.disk_manager_ b), Some f) ∧
    BPM.bpm_wf b' ∧
    BPM.page_table_ b' !! Disk.next_page_id (BPM.disk_manager_ b) = Some f ∧
    BPM.pages_ b' !! f
      = Some (BPM.mkPage (Disk.next_page_id (BPM.disk_manager_ b)) 1 false zeroed) ∧
    Disk.next_page_id (BPM.disk_manager_ b')
      = (Disk.next_page_id (BPM.disk_manager_ b) + 1)%Z ∧
    (∀ q, q ≠ Disk.next_page_id (BPM.disk_manager_ b) →
          BPM.page_image b' q = BPM.page_image b q) ∧
    (∀ q g pg, BPM.page_table_ b !! q = Some g → BPM.pages_ b !! g = Some pg →
       (0 < BPM.pin_count_ pg)%Z →
       BPM.page_table_ b' !! q = Some g ∧ BPM.pages_ b' !! g = Some pg).
Proof.
  intros Hwf Hblank Hk Hav.
  destruct (BPM.free_list_ b) as [|f rest] eqn:Hfree.
  - destruct Hav as [Hav|Hav]; [done|].
    destruct (NewPage_victim_lossless zeroed b out Hwf Hk Hfree Hav) as (b' & f & H & Hok).
    by exists b', f.
  - destruct (NewPage_free_lossless zeroed b out f rest Hwf Hblank Hk Hfree) as (b' & H & Hok).
    by exists b', f.
Qed.

Lemma bpm_new_page_lossless_witness :
  ∃ b' f,
    BPM.NewPage tt 0%Z (BPM.init tt 2 Scenario.disk0)
      = Some (b', Disk.next_page_id (BPM.disk_manager_ (BPM.init tt 2 Scenario.disk0)),
              Some f) ∧
    BPM.bpm_wf b' ∧
    BPM.page_table_ b'
      !! Disk.next_page_id (BPM.disk_manager_ (BPM.init tt 2 Scenario.disk0)) = Some f ∧
    BPM.pages_ b' !! f
      = Some (BPM.mkPage
                (Disk.next_page_id (BPM.disk_manager_ (BPM.init tt 2 Scenario.disk0)))
                1 false tt) ∧
    Disk.next_page_id (BPM.disk_manager_ b')
      = (Disk.next_page_id (BPM.disk_manager_ (BPM.init tt 2 Scenario.disk0)) + 1)%Z ∧
    (∀ q, q ≠ Disk.next_page_id (BPM.disk_manager_ (BPM.init tt 2 Scenario.disk0)) →
          BPM.page_image b' q = BPM.page_image (BPM.init tt 2 Scenario.disk0) q) ∧
    (∀ q g pg, BPM.page_table_ (BPM.init tt 2 Scenario.disk0) !! q = Some g →
       BPM.pages_ (BPM.init tt 2 Scenario.disk0) !! g = Some pg →
       (0 < BPM.pin_count_ pg)%Z →
       BPM.page_table_ b' !! q = Some g ∧ BPM.pages_ b' !! g = Some pg).
Proof.
  apply (bpm_new_page_lossless tt (BPM.init tt 2 Scenario.disk0) 0%Z).
  - apply bpm_wf_init.
  - apply init_free_frames_blank.
  - vm_compute. reflexivity.
  - left. vm_compute. discriminate.
Defined.

(** X13: a pinned page is never evicted.  On a well-formed pool, whatever
    page [FetchPage] is asked for, a page whose pin count is positive and
    below [INT_MAX] (so that [pin_count_++] does not overflow) keeps its
    table entry, its frame and its bytes, and its pin count does not
    decrease and stays in the range of [int]. *)
Theorem bpm_fetch_keeps_pinned_pages {Data : Type} (b b1 : @BPM.BufferPoolManager Data)
    (q c : page_id_t) (g : frame_id_t) (pg : BPM.Page) (r : option frame_id_t) :
  BPM.bpm_wf b →
  BPM.page_table_ b !! q = Some g → BPM.pages_ b !! g = Some pg →
  (0 < BPM.pin_count_ pg)%Z → (BPM.pin_count_ pg < INT_MAX)%Z →
  BPM.FetchPage c b = Some (b1, r) →
  BPM.page_table_ b1 !! q = Some g ∧
  ∃ pg1, BPM.pages_ b1 !! g = Some pg1 ∧
         BPM.page_id_ pg1 = BPM.page_id_ pg ∧ BPM.data_ pg1 = BPM.data_ pg ∧
         BPM.is_dirty_ pg1 = BPM.is_dirty_ pg ∧
         (BPM.pin_count_ pg ≤ BPM.pin_count_ pg1 ≤ INT_MAX)%Z.
Proof.
  intros Hwf Hq Hg Hpin Hmax. pose proof (BPM.wf_inv b Hwf) as Hinv.
  assert (Hgfree : g ∉ BPM.free_list_ b) by by eapply (BPM.inv_table_free b Hinv).
  assert (Hgrepl : g ∉ LRU.buffer (BPM.replacer_ b)).
  { eapply pinned_not_evictable; [done|exact Hg|lia]. }
  assert (Hsame : ∃ pg1, BPM.pages_ b !! g = Some pg1 ∧
            BPM.page_id_ pg1 = BPM.page_id_ pg ∧ BPM.data_ pg1 = BPM.data_ pg ∧
            BPM.is_dirty_ pg1 = BPM.is_dirty_ pg ∧
            (BPM.pin_count_ pg ≤ BPM.pin_count_ pg1 ≤ INT_MAX)%Z).
  { exists pg. repeat split; (done || lia). }
  unfold BPM.FetchPage, BPM.FetchPageImpl.
  destruct (BPM.page_table_ b !! c) as [f|] eqn:Hc.
  - destruct (BPM.pages_ b !! f) as [pf|] eqn:Hpf; simpl; [|done].
    intros [= <- <-]. simpl. split; [done|].
    destruct (decide (g = f)) as [->|Hne].
    + rewrite (page_update_eq _ _ _ _ Hpf). eexists. split; [done|]. simpl.
      rewrite Hg in Hpf. injection Hpf as <-. repeat split; (done || lia).
    + by rewrite page_update_ne.
  - destruct (BPM.free_list_ b) as [|f rest] eqn:Hfree.
    + destruct (LRU.Victim (BPM.replacer_ b)) as [repl' [f|]] eqn:Hv;
        [|by intros [= <- <-]].
      destruct (BPM.pages_ b !! f) as [pf|] eqn:Hpf; simpl; [|done].
      intros [= <- <-]. simpl.
      apply Victim_Some in Hv as [Hbuf _].
      assert (Hf : f ∈ LRU.buffer (BPM.replacer_ b)).
      { rewrite Hbuf. apply elem_of_app. right. left. }
      assert (Hne : g ≠ f) by (intros ->; done).
      pose proof (BPM.wf_replacer_table b Hwf f pf Hf Hpf) as Hq0.
      rewrite table_insert_fresh by (rewrite lookup_delete; by case_decide).
      rewrite lookup_insert_ne by (intros <-; congruence).
      rewrite lookup_delete_ne by (intros Heq; rewrite Heq in Hq0; congruence).
      split; [done|]. by rewrite page_update_ne.
    + destruct (BPM.pages_ b !! f) as [pf|] eqn:Hpf; simpl; [|done].
      intros [= <- <-]. simpl.
      assert (Hne : g ≠ f) by (intros ->; apply Hgfree; left).
      rewrite table_insert_fresh by done.
      rewrite lookup_insert_ne by (intros <-; congruence).
      split; [done|]. by rewrite page_update_ne.
Qed.

Lemma bpm_fetch_keeps_pinned_pages_witness :
  BPM.page_table_ Scenario.pool_raw !! 5%Z = Some 0 ∧
  ∃ pg1, BPM.pages_ Scenario.pool_raw !! 0 = Some pg1 ∧
         BPM.page_id_ pg1 = BPM.page_id_ (BPM.mkPage 5%Z 1 false Tree.zeroed) ∧
         BPM.data_ pg1 = BPM.data_ (BPM.mkPage 5%Z 1 false Tree.zeroed) ∧
         BPM.is_dirty_ pg1 = BPM.is_dirty_ (BPM.mkPage 5%Z 1 false Tree.zeroed) ∧
         (BPM.pin_count_ (BPM.mkPage 5%Z 1 false Tree.zeroed) ≤ BPM.pin_count_ pg1
            ≤ INT_MAX)%Z.
Proof.
  apply (bpm_fetch_keeps_pinned_pages Scenario.pool_five Scenario.pool_raw 5%Z 6%Z 0
           (BPM.mkPage 5%Z 1 false Tree.zeroed) (Some 1)).
  - apply (FetchPage_wf (BPM.init Tree.zeroed 3 Scenario.disk_raw)
             Scenario.pool_five 5%Z (Some 0)).
    + apply bpm_wf_init.
    + left. vm_compute. discriminate.
    + vm_compute. reflexivity.
  - vm_compute. reflexivity.
  - vm_compute. reflexivity.
  - simpl. lia.
  - vm_compute. reflexivity.
  - vm_compute. reflexivity.
Defined.

(** X14: [FlushPage] of a cached page on a well-formed pool writes the
    frame's bytes to the disk under the page's id, marks the frame clean,
    keeps the pin count, and leaves the pool well formed with the image of
    every page unchanged; for a page that is not cached it returns false
    and changes nothing. *)
Theorem bpm_flush_page {Data : Type} (b : @BPM.BufferPoolManager Data) (p : page_id_t) :
  BPM.bpm_wf b →
  (BPM.page_table_ b !! p = None → BPM.FlushPage p b = Some (b, false)) ∧
  (∀ f pg, BPM.page_table_ b !! p = Some f → BPM.pages_ b !! f = Some pg →
     ∃ b', BPM.FlushPage p b = Some (b', true) ∧ BPM.bpm_wf b' ∧
       Disk.contents (BPM.disk_manager_ b') p = BPM.data_ pg ∧
       (∀ q, q ≠ p → Disk.contents (BPM.disk_manager_ b') q
                     = Disk.contents (BPM.disk_manager_ b) q) ∧
       BPM.pages_ b' !! f
         = Some (BPM.mkPage p (BPM.pin_count_ pg) false (BPM.data_ pg)) ∧
       (∀ q, BPM.page_image b' q = BPM.page_image b q)).
Proof.
  intros Hwf. pose proof (BPM.wf_inv b Hwf) as Hinv. split.
  { intros Hp. unfold BPM.FlushPage, BPM.FlushPageImpl. by rewrite Hp. }
  intros f pg Hp Hpg.
  assert (Hid : BPM.page_id_ pg = p).
  { destruct (BPM.inv_table_page b Hinv p f Hp) as (pg0 & Hpg0 & Hid0). congruence. }
  assert (Hflush : BPM.FlushPage p b =
    Some (BPM.mkBPM (BPM.pool_size_ b)
            (<[f := BPM.mkPage (BPM.page_id_ pg) (BPM.pin_count_ pg) false (BPM.data_ pg)]>
               (BPM.pages_ b))
            (BPM.page_table_ b) (BPM.free_list_ b) (BPM.replacer_ b)
            (Disk.WritePage p (BPM.data_ pg) (BPM.disk_manager_ b)), true)).
  { unfold BPM.FlushPage, BPM.FlushPageImpl. by rewrite Hp, Hpg. }
  eexists. split; [exact Hflush|].
  split; [split|split; [|split; [|split]]]; simpl.
  - by eapply FlushPage_inv.
  - intros q g page Hq Hg. destruct (decide (g = f)) as [->|Hne].
    + rewrite (page_update_eq _ _ _ _ Hpg) in Hg. injection Hg as <-. simpl.
      by eapply (BPM.wf_pins b Hwf).
    + rewrite page_update_ne in Hg by done. by eapply (BPM.wf_pins b Hwf).
  - intros g page Hg Hpage. destruct (decide (g = f)) as [->|Hne].
    + rewrite (page_update_eq _ _ _ _ Hpg) in Hpage. injection Hpage as <-. simpl.
      by rewrite Hid.
    + rewrite page_update_ne in Hpage by done. by eapply (BPM.wf_replacer_table b Hwf).
  - intros g page Hg Hpage Hcl. destruct (decide (g = f)) as [->|Hne].
    + rewrite (page_update_eq _ _ _ _ Hpg) in Hpage. injection Hpage as <-. simpl.
      rewrite Hid. by case_decide.
    + rewrite page_update_ne in Hpage by done.
      pose proof (BPM.wf_replacer_table b Hwf g page Hg Hpage) as Ht.
      case_decide as Heq; [|by eapply (BPM.wf_clean b Hwf)].
      rewrite Heq in Ht. congruence.
  - by case_decide.
  - intros q Hq. by case_decide.
  - rewrite Hid. by eapply page_update_eq.
  - intros q. unfold BPM.page_image. simpl.
    destruct (BPM.page_table_ b !! q) as [g|] eqn:Hqg.
    + destruct (decide (g = f)) as [->|Hne].
      * rewrite (page_update_eq _ _ _ _ Hpg), Hpg. done.
      * by rewrite page_update_ne.
    + case_decide as Heq; [|done]. subst q. congruence.
Qed.

Lemma bpm_flush_page_witness :
  (BPM.page_table_ Scenario.pool_five !! 5%Z = None →
     BPM.FlushPage 5%Z Scenario.pool_five = Some (Scenario.pool_five, false)) ∧
  (∀ f pg, BPM.page_table_ Scenario.pool_five !! 5%Z = Some f →
     BPM.pages_ Scenario.pool_five !! f = Some pg →
     ∃ b', BPM.FlushPage 5%Z Scenario.pool_five = Some (b', true) ∧ BPM.bpm_wf b' ∧
       Disk.contents (BPM.disk_manager_ b') 5%Z = BPM.data_ pg ∧
       (∀ q, q ≠ 5%Z → Disk.contents (BPM.disk_manager_ b') q
                        = Disk.contents (BPM.disk_manager_ Scenario.pool_five) q) ∧
       BPM.pages_ b' !! f
         = Some (BPM.mkPage 5%Z (BPM.pin_count_ pg) false (BPM.data_ pg)) ∧
       (∀ q, BPM.page_image b' q = BPM.page_image Scenario.pool_five q)).
Proof.
  apply (bpm_flush_page Scenario.pool_five 5%Z).
  apply (FetchPage_wf (BPM.init Tree.zeroed 3 Scenario.disk_raw)
           Scenario.pool_five 5%Z (Some 0)).
  - apply bpm_wf_init.
  - left. vm_compute. discriminate.
  - vm_compute. reflexivity.
Defined.

(* ===================================================================== *)
(** * Slot arrays: insertion and removal at any index *)
(* ===================================================================== *)

Section SlotMore.
Context {T : Type}.
Import Tree.
Implicit Types (a : list T) (x : T).

(** The right-shifting loop: slots [(index .. i]] receive their left
    neighbours, every other slot keeps its content. *)
Lemma shift_right_spec fuel : ∀ (i index : nat) a,
  index ≤ i → i - index ≤ fuel → i < length a →
  ∃ a', shift_right fuel (Z.of_nat i) (Z.of_nat index) a = Some a' ∧
        length a' = length a ∧
        ∀ j, a' !! j = if decide (index < j ≤ i) then a !! (j - 1) else a !! j.
Proof.
  induction fuel as [|fuel IH]; intros i index a Hle Hfuel Hlen.
  - exists a. simpl. case_decide; [lia|]. split; [done|]. split; [done|].
    intros j. case_decide; [lia|done].
  - simpl. case_decide as Hi.
    + replace (Z.of_nat i - 1)%Z with (Z.of_nat (i - 1)) by lia.
      rewrite slot_at_nat.
      destruct (lookup_lt_is_Some_2 a (i - 1)) as [x Hx]; [lia|].
      rewrite Hx. simpl. rewrite slot_store_nat by lia. simpl.
      destruct (IH (i - 1) index (<[i := x]> a)) as (a' & Ha' & Hl & Hj).
      { lia. } { lia. } { rewrite length_insert. lia. }
      exists a'. split; [done|]. split; [by rewrite Hl, length_insert|].
      intros j. rewrite Hj. repeat case_decide; try lia.
      * by rewrite list_lookup_insert_ne by lia.
      * assert (j = i) as -> by lia. rewrite Hx. apply list_lookup_insert_eq. lia.
      * by rewrite list_lookup_insert_ne by lia.
    + exists a. split; [done|]. split; [done|].
      intros j. case_decide; [lia|done].
Qed.

(** [InsertAt(index, pair)] on [n] live slots: the pair lands at [index],
    the live slots from [index] on move one place right. *)
Lemma insert_slot_spec a (n i : nat) x :
  i ≤ n → n < length a →
  ∃ a', insert_slot (Z.of_nat n) (Z.of_nat i) x a = Some a' ∧
        length a' = length a ∧
        take (S n) a' = take i (take n a) ++ x :: drop i (take n a).
Proof.
  intros Hi Hn. unfold insert_slot.
  assert (Hsh : ∃ a1, (if decide (Z.of_nat n ≠ 0%Z)
                       then shift_right (Z.to_nat (Z.of_nat n - Z.of_nat i))
                                        (Z.of_nat n) (Z.of_nat i) a
                       else Some a) = Some a1 ∧
            length a1 = length a ∧
            ∀ j, a1 !! j = if decide (i < j ≤ n) then a !! (j - 1) else a !! j).
  { case_decide as Hz.
    - apply shift_right_spec; lia.
    - exists a. split; [done|]. split; [done|].
      intros j. case_decide; [lia|done]. }
  destruct Hsh as (a1 & -> & Hl1 & Hj1). simpl.
  rewrite slot_store_nat by lia.
  exists (<[i := x]> a1). split; [done|]. split; [by rewrite length_insert|].
  apply list_eq. intros j.
  destruct (decide (j < S n)) as [Hlt|Hge].
  - rewrite lookup_take_lt by done.
    destruct (decide (j < i)) as [Hji|Hji].
    + rewrite list_lookup_insert_ne by lia. rewrite Hj1.
      case_decide; [lia|].
      rewrite lookup_app_l by (rewrite !length_take; lia).
      by rewrite !lookup_take_lt by lia.
    + rewrite lookup_app_r by (rewrite !length_take; lia).
      rewrite !length_take.
      replace (j - i `min` (n `min` length a)) with (j - i) by lia.
      destruct (decide (j = i)) as [->|Hne].
      * rewrite Nat.sub_diag. simpl. apply list_lookup_insert_eq. lia.
      * rewrite list_lookup_insert_ne by lia. rewrite Hj1. case_decide; [|lia].
        destruct (j - i) as [|d] eqn:Hd; [lia|]. simpl.
        rewrite lookup_drop, lookup_take_lt by lia. f_equal. lia.
  - rewrite lookup_take_ge by lia. symmetry. apply lookup_ge_None.
    rewrite length_app. simpl. rewrite length_drop, !length_take. lia.
Qed.

(** [RemoveAt(index)] on [n] live slots: the live slots behind [index]
    move one place left. *)
Lemma remove_slot_spec a (n i : nat) :
  i < n → n ≤ length a →
  ∃ a', remove_slot (Z.of_nat n) (Z.of_nat i) a = Some a' ∧
        length a' = length a ∧
        take (n - 1) a' = take i (take n a) ++ drop (S i) (take n a).
Proof.
  intros Hi Hn. unfold remove_slot.
  replace (Z.of_nat n - 1 - Z.of_nat i)%Z with (Z.of_nat (n - 1 - i)) by lia.
  replace (Z.of_nat n - 1)%Z with (Z.of_nat (n - 1)) by lia.
  rewrite Nat2Z.id.
  destruct (shift_left_spec (n - 1 - i) i (n - 1) a) as (a' & Ha' & Hl & Hj); [lia..|].
  exists a'. split; [done|]. split; [done|].
  apply list_eq. intros j.
  destruct (decide (j < n - 1)) as [Hlt|Hge].
  - rewrite lookup_take_lt by done. rewrite Hj.
    destruct (decide (j < i)) as [Hji|Hji].
    + case_decide; [lia|].
      rewrite lookup_app_l by (rewrite !length_take; lia).
      by rewrite !lookup_take_lt by lia.
    + case_decide; [|lia].
      rewrite lookup_app_r by (rewrite !length_take; lia).
      rewrite !length_take.
      replace (j - i `min` (n `min` length a)) with (j - i) by lia.
      rewrite lookup_drop, lookup_take_lt by lia. f_equal. lia.
  - rewrite lookup_take_ge by lia. symmetry. apply lookup_ge_None.
    rewrite length_app, length_drop, !length_take. lia.
Qed.

Lemma sorted_lookup (R : relation T) l :
  StronglySorted R l →
  ∀ i j x y, i < j → l !! i = Some x → l !! j = Some y → R x y.
Proof.
  induction 1 as [|a l Hl IH Hall]; intros i j x y Hij Hi Hj; [done|].
  destruct j as [|j]; [lia|]. simpl in Hj.
  destruct i as [|i]; simpl in Hi.
  - injection Hi as <-. by eapply Forall_lookup_1.
  - eapply IH; [|done..]. lia.
Qed.

Lemma filter_all (P : T → Prop) `{∀ x, Decision (P x)} l :
  Forall P l → filter P l = l.
Proof.
  induction 1 as [|x l Hx Hl IH]; [done|].
  rewrite filter_cons_True by done. by rewrite IH.
Qed.

End SlotMore.

(* ===================================================================== *)
(** * The leaf page as an ordered map *)
(* ===================================================================== *)

Section LeafOrder.
Context {KeyType ValueType : Type}.
Variable comparator : KeyType → KeyType → Z.
Variable rank : KeyType → Z.
Hypothesis Hcmp : Order.three_way comparator rank.
Import Tree Leaf Order.
Implicit Types (p : @LeafPage KeyType ValueType).

Lemma cmp_lt a b : (comparator a b < 0)%Z ↔ (rank a < rank b)%Z.
Proof. rewrite Hcmp. unfold IntegerComparator. repeat case_decide; lia. Qed.

Lemma cmp_gt a b : (comparator a b > 0)%Z ↔ (rank a > rank b)%Z.
Proof. rewrite Hcmp. unfold IntegerComparator. repeat case_decide; lia. Qed.

Lemma cmp_eq a b : comparator a b = 0%Z ↔ rank a = rank b.
Proof. rewrite Hcmp. unfold IntegerComparator. repeat case_decide; lia. Qed.

(** The invariant of the binary search: everything left of [left] is
    smaller than the key, everything right of [right] is greater. *)
Lemma KeyIndex_loop_bound fuel key (a : list (KeyType * ValueType)) (n : nat) :
  keys_increasing rank (take n a) → n ≤ length a →
  ∀ left right,
  (0 ≤ left)%Z → (right < Z.of_nat n)%Z → (left ≤ right + 1)%Z →
  (right - left + 1 ≤ Z.of_nat fuel)%Z →
  (∀ j kv, (Z.of_nat j < left)%Z → a !! j = Some kv → (rank (fst kv) < rank key)%Z) →
  (∀ j kv, (right < Z.of_nat j)%Z → j < n → a !! j = Some kv →
           (rank key < rank (fst kv))%Z) →
  ∃ i : nat, KeyIndex_loop comparator fuel key a left right = Some (Z.of_nat i) ∧
    i ≤ n ∧
    (∀ j kv, j < i → a !! j = Some kv → (rank (fst kv) < rank key)%Z) ∧
    (∀ j kv, i ≤ j → j < n → a !! j = Some kv → (rank key ≤ rank (fst kv))%Z).
Proof.
  intros Hsorted Hn.
  assert (Hord : ∀ i j x y, i < j → j < n → a !! i = Some x → a !! j = Some y →
                            (rank (fst x) < rank (fst y))%Z).
  { intros i j x y Hij Hj Hx Hy.
    apply (sorted_lookup _ _ Hsorted i j x y Hij); by rewrite lookup_take_lt by lia. }
  induction fuel as [|fuel IH]; intros left right Hl Hr Hlr Hfuel Hbefore Hafter; simpl.
  - case_decide; [lia|]. exists (Z.to_nat left). rewrite Z2Nat.id by lia.
    split; [done|]. split; [lia|]. split.
    + intros j kv Hj. apply Hbefore. lia.
    + intros j kv Hj Hjn Hkv. apply Z.lt_le_incl. eapply Hafter; [|done..]. lia.
  - case_decide as Hcond.
    + assert (Hmid : (left ≤ left + (right - left) ÷ 2 ≤ right)%Z).
      { rewrite Z.quot_div_nonneg by lia.
        Z.to_euclidean_division_equations. lia. }
      set (mid := (left + (right - left) ÷ 2)%Z) in *.
      unfold slot_at. case_decide; [|lia].
      destruct (lookup_lt_is_Some_2 a (Z.to_nat mid)) as [kv Hkv]; [lia|].
      rewrite Hkv. simpl. case_decide as Hlt.
      * apply cmp_lt in Hlt.
        apply IH; try lia; [|done].
        intros j kv' Hj Hkv'.
        destruct (decide (j = Z.to_nat mid)) as [->|Hne]; [congruence|].
        assert ((rank (fst kv') < rank (fst kv))%Z)
          by (apply (Hord j (Z.to_nat mid)); (done || lia)).
        lia.
      * case_decide as Hgt.
        -- apply cmp_gt in Hgt.
           apply IH; try lia; [done|].
           intros j kv' Hj Hjn Hkv'.
           destruct (decide (j = Z.to_nat mid)) as [->|Hne].
           ++ rewrite Hkv in Hkv'. injection Hkv' as <-. lia.
           ++ assert ((rank (fst kv) < rank (fst kv'))%Z)
                by (apply (Hord (Z.to_nat mid) j); (done || lia)).
              lia.
        -- assert (Heq : rank (fst kv) = rank key).
           { pose proof (proj2 (cmp_lt (fst kv) key)).
             pose proof (proj2 (cmp_gt (fst kv) key)). lia. }
           exists (Z.to_nat mid). rewrite Z2Nat.id by lia.
           split; [done|]. split; [lia|]. split.
           ++ intros j kv' Hj Hkv'.
              assert ((rank (fst kv') < rank (fst kv))%Z)
                by (apply (Hord j (Z.to_nat mid)); (done || lia)).
              lia.
           ++ intros j kv' Hj Hjn Hkv'.
              destruct (decide (j = Z.to_nat mid)) as [->|Hne].
              ** rewrite Hkv in Hkv'. injection Hkv' as <-. lia.
              ** assert ((rank (fst kv) < rank (fst kv'))%Z)
                   by (apply (Hord (Z.to_nat mid) j); (done || lia)).
                 lia.
    + exists (Z.to_nat left). rewrite Z2Nat.id by lia.
      split; [done|]. split; [lia|]. split.
      * intros j kv Hj. apply Hbefore. lia.
      * intros j kv Hj Hjn Hkv. apply Z.lt_le_incl. eapply Hafter; [|done..]. lia.
Qed.

(** [KeyIndex] on a sorted leaf: the first slot whose key is not below
    the key, [size] when there is none. *)
Lemma KeyIndex_spec key p (n : nat) :
  GetSize p = Z.of_nat n → n ≤ length (array p) →
  keys_increasing rank (entries p) →
  ∃ i : nat, KeyIndex comparator key p = Some (Z.of_nat i) ∧ i ≤ n ∧
    (∀ j kv, j < i → entries p !! j = Some kv → (rank (fst kv) < rank key)%Z) ∧
    (∀ j kv, i ≤ j → entries p !! j = Some kv → (rank key ≤ rank (fst kv))%Z).
Proof.
  intros Hsize Hlen Hsorted. unfold entries in *. rewrite Hsize, live_nat in *.
  unfold KeyIndex. rewrite Hsize, Nat2Z.id.
  destruct (KeyIndex_loop_bound n key (array p) n Hsorted Hlen 0 (Z.of_nat n - 1))
    as (i & Hi & Hin & Hb & Ha); [lia..|].
  exists i. split; [done|]. split; [done|]. split.
  - intros j kv Hj Hkv. apply lookup_take_Some in Hkv as [Hkv _]. by eapply Hb.
  - intros j kv Hj Hkv. apply lookup_take_Some in Hkv as [Hkv Hjn]. by eapply Ha.
Qed.

End LeafOrder.

Section LeafMap.
Context {KeyType ValueType : Type}.
Variable comparator : KeyType → KeyType → Z.
Variable rank : KeyType → Z.
Hypothesis Hcmp : Order.three_way comparator rank.
Import Tree Leaf Order.
Implicit Types (p : @LeafPage KeyType ValueType).

Lemma entries_length p (n : nat) :
  GetSize p = Z.of_nat n → n ≤ length (array p) → length (entries p) = n.
Proof.
  intros Hs Hl. unfold entries. rewrite Hs, live_nat, length_take. lia.
Qed.

Lemma entries_lookup_lt p (n j : nat) :
  GetSize p = Z.of_nat n → j < n → entries p !! j = array p !! j.
Proof.
  intros Hs Hj. unfold entries. rewrite Hs, live_nat. by apply lookup_take_lt.
Qed.

(** The outcome of [KeyIndex] on a sorted leaf: the lower bound [i], and
    either slot [i] holds the key or no slot does. *)
Lemma KeyIndex_cases key p (n : nat) :
  GetSize p = Z.of_nat n → n ≤ length (array p) →
  keys_increasing rank (entries p) →
  ∃ i : nat, KeyIndex comparator key p = Some (Z.of_nat i) ∧ i ≤ n ∧
    (∀ j kv, j < i → entries p !! j = Some kv → (rank (fst kv) < rank key)%Z) ∧
    (∀ j kv, i ≤ j → entries p !! j = Some kv → (rank key ≤ rank (fst kv))%Z) ∧
    ((∃ kv, entries p !! i = Some kv ∧ rank (fst kv) = rank key) ∨
     (∀ kv, kv ∈ entries p → rank (fst kv) ≠ rank key)).
Proof.
  intros Hs Hl Hsorted.
  destruct (KeyIndex_spec comparator rank Hcmp key p n Hs Hl Hsorted)
    as (i & Hi & Hin & Hb & Ha).
  exists i. do 4 (split; [done|]).
  destruct (entries p !! i) as [kv|] eqn:Hkv.
  - destruct (decide (rank (fst kv) = rank key)) as [Heq|Hne]; [left; by exists kv|].
    right. intros kv' Hin'. apply list_elem_of_lookup in Hin' as [j Hj].
    destruct (decide (j < i)) as [Hlt|Hge].
    + specialize (Hb j kv' Hlt Hj). lia.
    + destruct (decide (j = i)) as [->|Hji]; [congruence|].
      pose proof (Ha i kv (le_n _) Hkv).
      assert ((rank (fst kv) < rank (fst kv'))%Z)
        by (apply (sorted_lookup _ _ Hsorted i j); (done || lia)).
      lia.
  - right. intros kv' Hin'. apply list_elem_of_lookup in Hin' as [j Hj].
    assert (j < i).
    { apply lookup_ge_None in Hkv. apply lookup_lt_Some in Hj. lia. }
    specialize (Hb j kv' H Hj). lia.
Qed.

Lemma Lookup_spec key p (n : nat) :
  GetSize p = Z.of_nat n → n ≤ length (array p) →
  keys_increasing rank (entries p) →
  ∃ r, Lookup comparator key p = Some r ∧
       ∀ v, r = Some v ↔ ∃ k, (k, v) ∈ entries p ∧ rank k = rank key.
Proof.
  intros Hs Hl Hsorted.
  destruct (KeyIndex_cases key p n Hs Hl Hsorted) as (i & Hi & Hin & Hb & Ha & Hc).
  pose proof (entries_length p n Hs Hl) as Hlen.
  assert (Hmiss : (∀ kv, kv ∈ entries p → rank (fst kv) ≠ rank key) →
            ∀ v, None = Some v ↔ ∃ k, (k, v) ∈ entries p ∧ rank k = rank key).
  { intros Hno v. split; [done|]. intros (k & Hk & Hr).
    exfalso. exact (Hno _ Hk Hr). }
  unfold Lookup. rewrite Hi, Hs. simpl. case_decide as Hge.
  - exists None. split; [done|]. apply Hmiss.
    destruct Hc as [(kv & Hkv & _)|Hno]; [|done].
    apply lookup_lt_Some in Hkv. lia.
  - rewrite slot_at_nat, <- (entries_lookup_lt p n i Hs) by lia.
    destruct (lookup_lt_is_Some_2 (entries p) i) as [kv Hkv]; [lia|].
    rewrite Hkv. simpl. case_decide as Hne.
    + exists None. split; [done|]. apply Hmiss.
      destruct Hc as [(kv' & Hkv' & Heq)|Hno]; [|done].
      rewrite Hkv in Hkv'. injection Hkv' as <-.
      exfalso. apply Hne. by apply (cmp_eq comparator rank Hcmp).
    + assert (Heq : rank (fst kv) = rank key).
      { apply (cmp_eq comparator rank Hcmp).
        destruct (decide (comparator (fst kv) key = 0%Z)); done. }
      exists (Some (snd kv)). split; [done|]. intros v. split.
      * intros [= <-]. exists (fst kv). split; [|done].
        apply list_elem_of_lookup. exists i. by destruct kv.
      * intros (k & Hk & Hr). apply list_elem_of_lookup in Hk as [j Hj].
        destruct (decide (j = i)) as [->|Hji].
        { rewrite Hkv in Hj. by injection Hj as ->. }
        exfalso. destruct (decide (j < i)) as [Hlt|Hgt].
        -- specialize (Hb j _ Hlt Hj). simpl in Hb. lia.
        -- assert ((rank (fst kv) < rank k)%Z)
             by (apply (sorted_lookup _ _ Hsorted i j kv (k, v)); (done || lia)).
           lia.
Qed.

Lemma insert_sorted (e : list (KeyType * ValueType)) (i : nat) x :
  keys_increasing rank e →
  (∀ j kv, j < i → e !! j = Some kv → (rank (fst kv) < rank (fst x))%Z) →
  (∀ j kv, i ≤ j → e !! j = Some kv → (rank (fst x) < rank (fst kv))%Z) →
  keys_increasing rank (take i e ++ x :: drop i e).
Proof.
  intros Hsorted Hb Ha. unfold keys_increasing in *.
  rewrite <- (take_drop i e) in Hsorted.
  apply StronglySorted_app in Hsorted as (Hcross & H1 & H2).
  apply StronglySorted_app. split; [|split; [done|]].
  - intros x1 x2 Hx1 Hx2. apply elem_of_take in Hx1 as (j & Hj & Hji).
    apply elem_of_cons in Hx2 as [->|Hx2].
    + by eapply Hb.
    + apply Hcross; [|done]. apply elem_of_take. by exists j.
  - apply StronglySorted_cons. split; [|done].
    apply Forall_lookup. intros j kv Hj. rewrite lookup_drop in Hj.
    eapply Ha; [|done]. lia.
Qed.

(** [Insert] of a key the leaf does not hold, when the slot behind the
    live ones does not hold it either. *)
Lemma Insert_absent_spec key value p (n : nat) :
  GetSize p = Z.of_nat n → n < length (array p) →
  keys_increasing rank (entries p) →
  (∀ kv, kv ∈ entries p → rank (fst kv) ≠ rank key) →
  (∀ kv, array p !! n = Some kv → rank (fst kv) ≠ rank key) →
  ∃ p' (i : nat), Insert comparator key value p = Some (p', Z.of_nat (S n)) ∧
     GetSize p' = Z.of_nat (S n) ∧ length (array p') = length (array p) ∧
     entries p' = take i (entries p) ++ (key, value) :: drop i (entries p) ∧
     keys_increasing rank (entries p').
Proof.
  intros Hs Hl Hsorted Habsent Hguard.
  destruct (KeyIndex_cases key p n Hs ltac:(lia) Hsorted)
    as (i & Hi & Hin & Hb & Ha & _).
  destruct (lookup_lt_is_Some_2 (array p) i) as [kv Hkv]; [lia|].
  assert (Hne : rank (fst kv) ≠ rank key).
  { destruct (decide (i < n)) as [Hlt|Hge].
    - apply Habsent. apply list_elem_of_lookup. exists i.
      by rewrite (entries_lookup_lt p n i Hs Hlt).
    - apply Hguard. by replace n with i by lia. }
  destruct (insert_slot_spec (array p) n i (key, value)) as (a' & Ha' & Hla' & Hta');
    [lia..|].
  exists (mkLeaf (IncreaseSize 1 (header p)) (next_page_id_ p) a'), i.
  assert (Hsize' : GetSize (mkLeaf (IncreaseSize 1 (header p)) (next_page_id_ p) a')
                   = Z.of_nat (S n)).
  { unfold GetSize in *. simpl. lia. }
  assert (Hent : entries (mkLeaf (IncreaseSize 1 (header p)) (next_page_id_ p) a')
                 = take i (entries p) ++ (key, value) :: drop i (entries p)).
  { unfold entries at 1. rewrite Hsize', live_nat. simpl. rewrite Hta'.
    unfold entries. by rewrite Hs, live_nat. }
  split.
  { unfold Insert, KeyAt. rewrite Hi. simpl. rewrite slot_at_nat, Hkv. simpl.
    case_decide as Heq.
    - apply (cmp_eq comparator rank Hcmp) in Heq. congruence.
    - unfold InsertAt. rewrite Hs, Ha'. simpl. by rewrite Hsize'. }
  split; [done|]. split; [done|]. split; [done|].
  rewrite Hent. apply insert_sorted; [done|..].
  - intros j kv' Hj Hkv'. simpl. by eapply Hb.
  - intros j kv' Hj Hkv'. simpl.
    pose proof (Ha j kv' Hj Hkv').
    assert (rank (fst kv') ≠ rank key).
    { apply Habsent. by eapply list_elem_of_lookup_2. }
    lia.
Qed.

Lemma Insert_present_spec key value p (n : nat) :
  GetSize p = Z.of_nat n → n ≤ length (array p) →
  keys_increasing rank (entries p) →
  (∃ kv, kv ∈ entries p ∧ rank (fst kv) = rank key) →
  Insert comparator key value p = Some (p, Z.of_nat n).
Proof.
  intros Hs Hl Hsorted (kv0 & Hin0 & Heq0).
  destruct (KeyIndex_cases key p n Hs Hl Hsorted) as (i & Hi & Hin & Hb & Ha & Hc).
  destruct Hc as [(kv & Hkv & Heq)|Hno]; [|by destruct (Hno kv0 Hin0)].
  assert (Hlt : i < n).
  { apply lookup_lt_Some in Hkv. by rewrite (entries_length p n Hs Hl) in Hkv. }
  rewrite (entries_lookup_lt p n i Hs Hlt) in Hkv.
  unfold Insert, KeyAt. rewrite Hi. simpl. rewrite slot_at_nat, Hkv. simpl.
  case_decide as Hz; [by rewrite Hs|].
  exfalso. apply Hz. by apply (cmp_eq comparator rank Hcmp).
Qed.

Lemma without_key_absent key (e : list (KeyType * ValueType)) :
  (∀ kv, kv ∈ e → rank (fst kv) ≠ rank key) → without_key rank key e = e.
Proof. intros H. apply filter_all. by apply Forall_forall. Qed.

(** [RemoveAndDeleteRecord] keeps exactly the pairs whose key differs. *)
Lemma Remove_spec key p (n : nat) :
  GetSize p = Z.of_nat n → n ≤ length (array p) →
  keys_increasing rank (entries p) →
  ∃ p', RemoveAndDeleteRecord comparator key p = Some (p', GetSize p') ∧
     entries p' = without_key rank key (entries p) ∧
     GetSize p' = Z.of_nat (length (entries p')) ∧
     length (array p') = length (array p) ∧
     next_page_id_ p' = next_page_id_ p.
Proof.
  intros Hs Hl Hsorted.
  destruct (KeyIndex_cases key p n Hs Hl Hsorted) as (i & Hi & Hin & Hb & Ha & Hc).
  pose proof (entries_length p n Hs Hl) as Hlen.
  assert (Hsame : (∀ kv, kv ∈ entries p → rank (fst kv) ≠ rank key) →
            entries p = without_key rank key (entries p) ∧
            GetSize p = Z.of_nat (length (entries p)) ∧
            length (array p) = length (array p) ∧ next_page_id_ p = next_page_id_ p).
  { intros Hno. rewrite without_key_absent by done. by rewrite Hlen. }
  unfold RemoveAndDeleteRecord. rewrite Hi, Hs. simpl. case_decide as Hge.
  - exists p. rewrite Hs. split; [done|]. rewrite <- Hs. apply Hsame.
    destruct Hc as [(kv & Hkv & _)|Hno]; [|done].
    apply lookup_lt_Some in Hkv. lia.
  - rewrite slot_at_nat, <- (entries_lookup_lt p n i Hs) by lia.
    destruct (lookup_lt_is_Some_2 (entries p) i) as [kv Hkv]; [lia|].
    rewrite Hkv. simpl. case_decide as Hne.
    + exists p. rewrite Hs. split; [done|]. rewrite <- Hs. apply Hsame.
      destruct Hc as [(kv' & Hkv' & Heq)|Hno]; [|done].
      rewrite Hkv in Hkv'. injection Hkv' as <-.
      exfalso. apply Hne. by apply (cmp_eq comparator rank Hcmp).
    + assert (Heq : rank (fst kv) = rank key).
      { apply (cmp_eq comparator rank Hcmp).
        destruct (decide (comparator (fst kv) key = 0%Z)); done. }
      destruct (remove_slot_spec (array p) n i) as (a' & Ha' & Hla' & Hta'); [lia..|].
      unfold RemoveAt. rewrite Hs, Ha'. simpl.
      eexists. split; [reflexivity|].
      assert (Hent : entries (mkLeaf (IncreaseSize (-1) (header p)) (next_page_id_ p) a')
                     = take i (entries p) ++ drop (S i) (entries p)).
      { unfold entries at 1, GetSize. simpl. unfold GetSize in Hs. rewrite Hs.
        replace (Z.of_nat n + -1)%Z with (Z.of_nat (n - 1)) by lia.
        rewrite live_nat, Hta'. unfold entries, GetSize. by rewrite Hs, live_nat. }
      split; [|split; [|done]].
      * rewrite Hent. unfold without_key.
        rewrite <- (take_drop_middle (entries p) i kv Hkv) at 3.
        rewrite filter_app, filter_cons_False by (intros Hn; by apply Hn).
        f_equal; symmetry; apply filter_all, Forall_lookup; intros j kv' Hj.
        -- apply lookup_take_Some in Hj as [Hj Hji].
           specialize (Hb j kv' Hji Hj). lia.
        -- rewrite lookup_drop in Hj.
           assert ((rank (fst kv) < rank (fst kv'))%Z)
             by (apply (sorted_lookup _ _ Hsorted i (S i + j)); (done || lia)).
           lia.
      * rewrite Hent, length_app, length_take, length_drop, Hlen.
        unfold GetSize in *. simpl. lia.
Qed.

End LeafMap.

Lemma sorted_filter {T : Type} (R : relation T) (P : T → Prop) `{∀ x, Decision (P x)}
    (l : list T) :
  StronglySorted R l → StronglySorted R (filter P l).
Proof.
  induction 1 as [|x l Hl IH Hall]; [constructor|].
  destruct (decide (P x)).
  - rewrite filter_cons_True by done. constructor; [done|].
    apply Forall_forall. intros y Hy. apply list_elem_of_filter in Hy as [_ Hy].
    by eapply Forall_forall in Hall.
  - by rewrite filter_cons_False.
Qed.

(** X15: on a leaf whose keys increase strictly and whose comparator is a
    three-way comparison, [KeyIndex] returns the first slot whose key is
    not below the given key, and [size] when every key is below it. *)
Theorem leaf_key_index_is_lower_bound {KeyType ValueType : Type}
    (comparator : KeyType → KeyType → Z) (rank : KeyType → Z)
    (p : @Leaf.LeafPage KeyType ValueType) (key : KeyType) :
  Order.three_way comparator rank →
  (0 ≤ Leaf.GetSize p ≤ Z.of_nat (length (Leaf.array p)))%Z →
  Order.keys_increasing rank (Leaf.entries p) →
  ∃ i : nat, Leaf.KeyIndex comparator key p = Some (Z.of_nat i) ∧
    (Z.of_nat i ≤ Leaf.GetSize p)%Z ∧
    (∀ j kv, j < i → Leaf.entries p !! j = Some kv → (rank (fst kv) < rank key)%Z) ∧
    (∀ j kv, i ≤ j → Leaf.entries p !! j = Some kv → (rank key ≤ rank (fst kv))%Z).
Proof.
  intros Hcmp Hs Hsorted.
  destruct (KeyIndex_spec comparator rank Hcmp key p (Z.to_nat (Leaf.GetSize p)))
    as (i & Hi & Hin & Hb & Ha); [lia|lia|done|].
  exists i. split; [done|]. split; [lia|]. by split.
Qed.

Lemma leaf_key_index_is_lower_bound_witness :
  ∃ i : nat, Leaf.KeyIndex IntegerComparator 25%Z Scenario.leaf_four = Some (Z.of_nat i) ∧
    (Z.of_nat i ≤ Leaf.GetSize Scenario.leaf_four)%Z ∧
    (∀ j kv, j < i → Leaf.entries Scenario.leaf_four !! j = Some kv → (fst kv < 25)%Z) ∧
    (∀ j kv, i ≤ j → Leaf.entries Scenario.leaf_four !! j = Some kv → (25 ≤ fst kv)%Z).
Proof.
  apply (leaf_key_index_is_lower_bound IntegerComparator (λ k, k) Scenario.leaf_four 25%Z).
  - intros a b. reflexivity.
  - vm_compute. split; discriminate.
  - unfold Order.keys_increasing. apply (bool_decide_unpack _). vm_compute. exact I.
Defined.

(** X16: on such a leaf [Lookup] hits exactly when the key is stored, and
    then returns the value stored with it; it misses otherwise. *)
Theorem leaf_lookup_finds_stored_keys {KeyType ValueType : Type}
    (comparator : KeyType → KeyType → Z) (rank : KeyType → Z)
    (p : @Leaf.LeafPage KeyType ValueType) (key : KeyType) :
  Order.three_way comparator rank →
  (0 ≤ Leaf.GetSize p ≤ Z.of_nat (length (Leaf.array p)))%Z →
  Order.keys_increasing rank (Leaf.entries p) →
  ∃ r, Leaf.Lookup comparator key p = Some r ∧
       ∀ v, r = Some v ↔ ∃ k, (k, v) ∈ Leaf.entries p ∧ rank k = rank key.
Proof.
  intros Hcmp Hs Hsorted.
  apply (Lookup_spec comparator rank Hcmp key p (Z.to_nat (Leaf.GetSize p))); (done || lia).
Qed.

Lemma leaf_lookup_finds_stored_keys_witness :
  ∃ r, Leaf.Lookup IntegerComparator 30%Z Scenario.leaf_four = Some r ∧
       ∀ v, r = Some v ↔ ∃ k, (k, v) ∈ Leaf.entries Scenario.leaf_four ∧ k = 30%Z.
Proof.
  apply (leaf_lookup_finds_stored_keys IntegerComparator (λ k, k) Scenario.leaf_four 30%Z).
  - intros a b. reflexivity.
  - vm_compute. split; discriminate.
  - unfold Order.keys_increasing. apply (bool_decide_unpack _). vm_compute. exact I.
Defined.

(** X17: [Insert] of a key the leaf does not hold, with a free slot left
    and the slot behind the live ones not holding the key: the size grows
    by one, the pairs are the old ones plus the new one, the keys still
    increase, and [Lookup] of the key returns the inserted value. *)
Theorem leaf_insert_absent_key {KeyType ValueType : Type}
    (comparator : KeyType → KeyType → Z) (rank : KeyType → Z)
    (p : @Leaf.LeafPage KeyType ValueType) (key : KeyType) (value : ValueType) :
  Order.three_way comparator rank →
  (0 ≤ Leaf.GetSize p < Z.of_nat (length (Leaf.array p)))%Z →
  Order.keys_increasing rank (Leaf.entries p) →
  (∀ kv, kv ∈ Leaf.entries p → rank (fst kv) ≠ rank key) →
  (∀ kv, Leaf.array p !! Z.to_nat (Leaf.GetSize p) = Some kv → rank (fst kv) ≠ rank key) →
  ∃ p', Leaf.Insert comparator key value p = Some (p', (Leaf.GetSize p + 1)%Z) ∧
    Leaf.GetSize p' = (Leaf.GetSize p + 1)%Z ∧
    Leaf.entries p' ≡ₚ (key, value) :: Leaf.entries p ∧
    Order.keys_increasing rank (Leaf.entries p') ∧
    Leaf.Lookup comparator key p' = Some (Some value).
Proof.
  intros Hcmp Hs Hsorted Habsent Hguard.
  destruct (Insert_absent_spec comparator rank Hcmp key value p
              (Z.to_nat (Leaf.GetSize p)))
    as (p' & i & Hins & Hs' & Hl' & Hent & Hsorted'); [lia|lia|done..|].
  exists p'.
  replace (Leaf.GetSize p + 1)%Z with (Z.of_nat (S (Z.to_nat (Leaf.GetSize p)))) by lia.
  split; [done|]. split; [done|]. split.
  { rewrite Hent. rewrite <- Permutation_middle. by rewrite take_drop. }
  split; [done|].
  destruct (Lookup_spec comparator rank Hcmp key p' (S (Z.to_nat (Leaf.GetSize p))))
    as (r & Hr & Hiff); [done|lia|done|].
  rewrite Hr. f_equal. apply Hiff. exists key. split; [|done].
  rewrite Hent. apply elem_of_app. right. left.
Qed.

Lemma leaf_insert_absent_key_witness :
  ∃ p', Leaf.Insert IntegerComparator 15%Z (9%Z, 9%Z) Scenario.leaf_two
          = Some (p', (Leaf.GetSize Scenario.leaf_two + 1)%Z) ∧
    Leaf.GetSize p' = (Leaf.GetSize Scenario.leaf_two + 1)%Z ∧
    Leaf.entries p' ≡ₚ (15%Z, (9%Z, 9%Z)) :: Leaf.entries Scenario.leaf_two ∧
    Order.keys_increasing (λ k, k) (Leaf.entries p') ∧
    Leaf.Lookup IntegerComparator 15%Z p' = Some (Some (9%Z, 9%Z)).
Proof.
  apply (leaf_insert_absent_key IntegerComparator (λ k, k) Scenario.leaf_two 15%Z).
  - intros a b. reflexivity.
  - vm_compute. split; [discriminate|reflexivity].
  - unfold Order.keys_increasing. apply (bool_decide_unpack _). vm_compute. exact I.
  - apply Forall_forall. apply (bool_decide_unpack _). vm_compute. exact I.
  - intros kv H. vm_compute in H. injection H as <-. vm_compute. discriminate.
Defined.

(** X18: [Insert] of a key the leaf already holds changes nothing and
    returns the unchanged size. *)
Theorem leaf_insert_present_key {KeyType ValueType : Type}
    (comparator : KeyType → KeyType → Z) (rank : KeyType → Z)
    (p : @Leaf.LeafPage KeyType ValueType) (key : KeyType) (value : ValueType) :
  Order.three_way comparator rank →
  (0 ≤ Leaf.GetSize p ≤ Z.of_nat (length (Leaf.array p)))%Z →
  Order.keys_increasing rank (Leaf.entries p) →
  (∃ kv, kv ∈ Leaf.entries p ∧ rank (fst kv) = rank key) →
  Leaf.Insert comparator key value p = Some (p, Leaf.GetSize p).
Proof.
  intros Hcmp Hs Hsorted Hpresent.
  rewrite (Insert_present_spec comparator rank Hcmp key value p
             (Z.to_nat (Leaf.GetSize p))); [|lia|lia|done..].
  do 2 f_equal. lia.
Qed.

Lemma leaf_insert_present_key_witness :
  Leaf.Insert IntegerComparator 20%Z (9%Z, 9%Z) Scenario.leaf_four
    = Some (Scenario.leaf_four, Leaf.GetSize Scenario.leaf_four).
Proof.
  apply (leaf_insert_present_key IntegerComparator (λ k, k) Scenario.leaf_four 20%Z).
  - intros a b. reflexivity.
  - vm_compute. split; discriminate.
  - unfold Order.keys_increasing. apply (bool_decide_unpack _). vm_compute. exact I.
  - exists (20%Z, Scenario.rid 20). split; [|reflexivity].
    vm_compute. right. left.
Defined.

(** X19: [RemoveAndDeleteRecord] keeps exactly the pairs whose key
    differs from the given one, in their order (so it changes nothing when
    the key is absent); the returned size is the number of pairs left, the
    keys still increase, and [Lookup] of the key misses afterwards. *)
Theorem leaf_remove_key {KeyType ValueType : Type}
    (comparator : KeyType → KeyType → Z) (rank : KeyType → Z)
    (p : @Leaf.LeafPage KeyType ValueType) (key : KeyType) :
  Order.three_way comparator rank →
  (0 ≤ Leaf.GetSize p ≤ Z.of_nat (length (Leaf.array p)))%Z →
  Order.keys_increasing rank (Leaf.entries p) →
  ∃ p', Leaf.RemoveAndDeleteRecord comparator key p
          = Some (p', Z.of_nat (length (Leaf.entries p'))) ∧
    Leaf.entries p' = Order.without_key rank key (Leaf.entries p) ∧
    Order.keys_increasing rank (Leaf.entries p') ∧
    Leaf.Lookup comparator key p' = Some None.
Proof.
  intros Hcmp Hs Hsorted.
  destruct (Remove_spec comparator rank Hcmp key p (Z.to_nat (Leaf.GetSize p)))
    as (p' & Hrem & Hent & Hs' & Hl' & _); [lia|lia|done|].
  exists p'. rewrite <- Hs'. split; [done|]. split; [done|].
  assert (Hsorted' : Order.keys_increasing rank (Leaf.entries p')).
  { rewrite Hent. by apply sorted_filter. }
  split; [done|].
  assert (Hlen : length (Leaf.entries p') ≤ length (Leaf.array p')).
  { unfold Leaf.entries, Tree.live. rewrite length_take. lia. }
  destruct (Lookup_spec comparator rank Hcmp key p' (length (Leaf.entries p')))
    as (r & Hr & Hiff); [done|done|done|].
  rewrite Hr. f_equal. destruct r as [v|]; [|done].
  destruct (proj1 (Hiff v) eq_refl) as (k & Hk & Heq).
  rewrite Hent in Hk. apply list_elem_of_filter in Hk as [Hne _]. by destruct Hne.
Qed.

Lemma leaf_remove_key_witness :
  ∃ p', Leaf.RemoveAndDeleteRecord IntegerComparator 20%Z Scenario.leaf_four
          = Some (p', Z.of_nat (length (Leaf.entries p'))) ∧
    Leaf.entries p' = Order.without_key (λ k, k) 20%Z (Leaf.entries Scenario.leaf_four) ∧
    Order.keys_increasing (λ k, k) (Leaf.entries p') ∧
    Leaf.Lookup IntegerComparator 20%Z p' = Some None.
Proof.
  apply (leaf_remove_key IntegerComparator (λ k, k) Scenario.leaf_four 20%Z).
  - intros a b. reflexivity.
  - vm_compute. split; discriminate.
  - unfold Order.keys_increasing. apply (bool_decide_unpack _). vm_compute. exact I.
Defined.

(** X20: [Insert] of an absent key (under the conditions of X17) followed
    by [RemoveAndDeleteRecord] of the same key gives back the pairs and the
    size the leaf had. *)
Theorem leaf_insert_then_remove {KeyType ValueType : Type}
    (comparator : KeyType → KeyType → Z) (rank : KeyType → Z)
    (p : @Leaf.LeafPage KeyType ValueType) (key : KeyType) (value : ValueType) :
  Order.three_way comparator rank →
  (0 ≤ Leaf.GetSize p < Z.of_nat (length (Leaf.array p)))%Z →
  Order.keys_increasing rank (Leaf.entries p) →
  (∀ kv, kv ∈ Leaf.entries p → rank (fst kv) ≠ rank key) →
  (∀ kv, Leaf.array p !! Z.to_nat (Leaf.GetSize p) = Some kv → rank (fst kv) ≠ rank key) →
  ∃ p1 p2, Leaf.Insert comparator key value p = Some (p1, (Leaf.GetSize p + 1)%Z) ∧
    Leaf.RemoveAndDeleteRecord comparator key p1 = Some (p2, Leaf.GetSize p) ∧
    Leaf.entries p2 = Leaf.entries p.
Proof.
  intros Hcmp Hs Hsorted Habsent Hguard.
  destruct (Insert_absent_spec comparator rank Hcmp key value p
              (Z.to_nat (Leaf.GetSize p)))
    as (p1 & i & Hins & Hs1 & Hl1 & Hent1 & Hsorted1); [lia|lia|done..|].
  destruct (Remove_spec comparator rank Hcmp key p1 (S (Z.to_nat (Leaf.GetSize p))))
    as (p2 & Hrem & Hent2 & Hs2 & _); [done|lia|done|].
  assert (Hback : Leaf.entries p2 = Leaf.entries p).
  { rewrite Hent2, Hent1. unfold Order.without_key.
    rewrite filter_app, filter_cons_False by (intros Hn; by apply Hn).
    rewrite <- filter_app, take_drop. by apply without_key_absent. }
  exists p1, p2.
  replace (Leaf.GetSize p + 1)%Z with (Z.of_nat (S (Z.to_nat (Leaf.GetSize p)))) by lia.
  split; [done|]. split; [|done].
  rewrite Hrem. do 2 f_equal. rewrite Hs2, Hback.
  unfold Leaf.entries, Tree.live. rewrite length_take. lia.
Qed.

Lemma leaf_insert_then_remove_witness :
  ∃ p1 p2, Leaf.Insert IntegerComparator 15%Z (9%Z, 9%Z) Scenario.leaf_two
             = Some (p1, (Leaf.GetSize Scenario.leaf_two + 1)%Z) ∧
    Leaf.RemoveAndDeleteRecord IntegerComparator 15%Z p1
      = Some (p2, Leaf.GetSize Scenario.leaf_two) ∧
    Leaf.entries p2 = Leaf.entries Scenario.leaf_two.
Proof.
  apply (leaf_insert_then_remove IntegerComparator (λ k, k) Scenario.leaf_two 15%Z).
  - intros a b. reflexivity.
  - vm_compute. split; [discriminate|reflexivity].
  - unfold Order.keys_increasing. apply (bool_decide_unpack _). vm_compute. exact I.
  - apply Forall_forall. apply (bool_decide_unpack _). vm_compute. exact I.
  - intros kv H. vm_compute in H. injection H as <-. vm_compute. discriminate.
Defined.

(* ===================================================================== *)
(** * Moving pairs between leaf pages *)
(* ===================================================================== *)

Section LeafMoves.
Context {KeyType ValueType : Type}.
Import Tree Leaf.
Implicit Types (p : @LeafPage KeyType ValueType).

Lemma leaf_InsertAt_spec p (n i : nat) x :
  GetSize p = Z.of_nat n → i ≤ n → n < length (array p) →
  ∃ p', InsertAt (Z.of_nat i) x p = Some p' ∧
        header p' = IncreaseSize 1 (header p) ∧
        next_page_id_ p' = next_page_id_ p ∧
        length (array p') = length (array p) ∧
        entries p' = take i (entries p) ++ x :: drop i (entries p).
Proof.
  intros Hn Hi Hlen. unfold InsertAt. rewrite Hn.
  destruct (insert_slot_spec (array p) n i x Hi Hlen) as (a' & -> & Hl & Ht).
  simpl. eexists. split; [done|]. simpl. do 3 (split; [done|]).
  unfold entries, GetSize in *. simpl. rewrite Hn.
  replace (Z.of_nat n + 1)%Z with (Z.of_nat (S n)) by lia.
  by rewrite !live_nat.
Qed.

Lemma leaf_RemoveAt_spec p (n i : nat) :
  GetSize p = Z.of_nat n → i < n → n ≤ length (array p) →
  ∃ p', RemoveAt (Z.of_nat i) p = Some p' ∧
        header p' = IncreaseSize (-1) (header p) ∧
        next_page_id_ p' = next_page_id_ p ∧
        length (array p') = length (array p) ∧
        entries p' = take i (entries p) ++ drop (S i) (entries p).
Proof.
  intros Hn Hi Hlen. unfold RemoveAt. rewrite Hn.
  destruct (remove_slot_spec (array p) n i Hi Hlen) as (a' & -> & Hl & Ht).
  simpl. eexists. split; [done|]. simpl. do 3 (split; [done|]).
  unfold entries, GetSize in *. simpl. rewrite Hn.
  replace (Z.of_nat n + -1)%Z with (Z.of_nat (n - 1)) by lia.
  by rewrite !live_nat.
Qed.

Lemma leaf_CopyNFrom_spec (items : list (KeyType * ValueType)) (off k : nat) p (n : nat) :
  off + k ≤ length items → GetSize p = Z.of_nat n → n + k ≤ length (array p) →
  ∃ p', CopyNFrom items (Z.of_nat off) (Z.of_nat k) p = Some p' ∧
        header p' = SetSize (Z.of_nat (n + k)) (header p) ∧
        next_page_id_ p' = next_page_id_ p ∧
        length (array p') = length (array p) ∧
        entries p' = entries p ++ take k (drop off items).
Proof.
  intros Hitems Hn Hlen. unfold CopyNFrom. rewrite Nat2Z.id.
  destruct (leaf_CopyNFrom_loop_spec k k 0 (Z.of_nat k) items off p n)
    as (p' & Hp' & Hh & Hnx & Hl & Ht); [lia|lia|lia|done|lia|].
  exists p'. split; [exact Hp'|]. do 3 (split; [done|]).
  unfold entries, GetSize in *. rewrite Hh, Hn. simpl.
  rewrite !live_nat, Ht. by rewrite Nat.add_0_r.
Qed.

Lemma leaf_MoveAllTo_spec (this recipient : @LeafPage KeyType ValueType) :
  (0 ≤ GetSize this ≤ Z.of_nat (length (array this)))%Z →
  (0 ≤ GetSize recipient)%Z →
  (GetSize recipient + GetSize this ≤ Z.of_nat (length (array recipient)))%Z →
  ∃ this' recipient',
    MoveAllTo this recipient = Some (this', recipient') ∧
    entries recipient' = entries recipient ++ entries this ∧
    GetSize recipient' = (GetSize recipient + GetSize this)%Z ∧
    length (array recipient') = length (array recipient) ∧
    GetSize this' = 0%Z ∧
    GetNextPageId recipient' = GetNextPageId this.
Proof.
  intros Hs Hr Hroom. unfold MoveAllTo.
  destruct (leaf_CopyNFrom_spec (array this) 0 (Z.to_nat (GetSize this)) recipient
              (Z.to_nat (GetSize recipient)))
    as (r' & Hr' & Hh & Hnx & Hl & Hent); [lia..|].
  rewrite Z2Nat.id in Hr' by lia. change (Z.of_nat 0) with 0%Z in Hr'.
  rewrite Hr'. simpl. eexists _, _. split; [done|].
  unfold entries, GetSize, GetNextPageId in *. simpl. rewrite Hh. simpl.
  split; [|split; [lia|done]].
  rewrite Hh in Hent. simpl in Hent. by rewrite drop_0 in Hent.
Qed.

Lemma leaf_MoveHalfTo_full (this recipient : @LeafPage KeyType ValueType) :
  (0 ≤ GetSize this ≤ Z.of_nat (length (array this)))%Z →
  (0 ≤ GetSize recipient)%Z →
  (GetSize recipient + GetSize this / 2 ≤ Z.of_nat (length (array recipient)))%Z →
  ∃ this' recipient',
    MoveHalfTo this recipient = Some (this', recipient') ∧
    array this' = array this ∧ next_page_id_ this' = next_page_id_ this ∧
    GetSize this' = (GetSize this - GetSize this / 2)%Z ∧
    entries this' = take (Z.to_nat (GetSize this - GetSize this / 2)) (entries this) ∧
    length (array recipient') = length (array recipient) ∧
    next_page_id_ recipient' = next_page_id_ recipient ∧
    GetSize recipient' = (GetSize recipient + GetSize this / 2)%Z ∧
    entries recipient' =
      entries recipient ++ drop (Z.to_nat (GetSize this - GetSize this / 2)) (entries this).
Proof.
  intros Hs Hr Hroom. unfold MoveHalfTo.
  rewrite Z.quot_div_nonneg by lia.
  set (s := GetSize this) in *. set (h := (s / 2)%Z) in *.
  assert (Hh : (0 ≤ h ≤ s)%Z).
  { subst h. clearbody s. Z.to_euclidean_division_equations. lia. }
  destruct (leaf_CopyNFrom_spec (array this) (Z.to_nat (s - h)) (Z.to_nat h) recipient
              (Z.to_nat (GetSize recipient)))
    as (r' & Hr' & Hhd & Hnx & Hl & Hent); [lia..|].
  rewrite !Z2Nat.id in Hr' by lia. rewrite Hr'. simpl.
  eexists _, r'. split; [done|]. simpl.
  split; [done|]. split; [done|].
  unfold entries, live, GetSize in *. simpl. fold s. fold h.
  split; [lia|]. split; [rewrite take_take; f_equal; lia|].
  split; [done|]. split; [done|]. rewrite Hhd. simpl. split; [lia|].
  rewrite Hhd in Hent. simpl in Hent. rewrite Hent. f_equal.
  rewrite take_drop_commute. do 2 f_equal. lia.
Qed.

End LeafMoves.

(** X21: [MoveAllTo] on two different leaf pages, the recipient having
    room: the recipient's pairs are followed by all of this page's pairs in
    their order, this page's size becomes 0, and the recipient takes over
    this page's next page id. *)
Theorem leaf_move_all_to {KeyType ValueType : Type}
    (this recipient : @Leaf.LeafPage KeyType ValueType) :
  (0 ≤ Leaf.GetSize this ≤ Z.of_nat (length (Leaf.array this)))%Z →
  (0 ≤ Leaf.GetSize recipient)%Z →
  (Leaf.GetSize recipient + Leaf.GetSize this
     ≤ Z.of_nat (length (Leaf.array recipient)))%Z →
  ∃ this' recipient',
    Leaf.MoveAllTo this recipient = Some (this', recipient') ∧
    Leaf.entries recipient' = Leaf.entries recipient ++ Leaf.entries this ∧
    Leaf.GetSize recipient' = (Leaf.GetSize recipient + Leaf.GetSize this)%Z ∧
    Leaf.GetSize this' = 0%Z ∧ Leaf.entries this' = [] ∧
    Leaf.GetNextPageId recipient' = Leaf.GetNextPageId this.
Proof.
  intros Hs Hr Hroom.
  destruct (leaf_MoveAllTo_spec this recipient Hs Hr Hroom)
    as (t' & r' & Hmove & Hent & Hsz & _ & Hz & Hnx).
  exists t', r'. do 4 (split; [done|]). split; [|done].
  unfold Leaf.entries. by rewrite Hz.
Qed.

Lemma leaf_move_all_to_witness :
  ∃ this' recipient',
    Leaf.MoveAllTo Scenario.leaf_two Scenario.leaf_one = Some (this', recipient') ∧
    Leaf.entries recipient' = Leaf.entries Scenario.leaf_one ++ Leaf.entries Scenario.leaf_two ∧
    Leaf.GetSize recipient' =
      (Leaf.GetSize Scenario.leaf_one + Leaf.GetSize Scenario.leaf_two)%Z ∧
    Leaf.GetSize this' = 0%Z ∧ Leaf.entries this' = [] ∧
    Leaf.GetNextPageId recipient' = Leaf.GetNextPageId Scenario.leaf_two.
Proof.
  apply (leaf_move_all_to Scenario.leaf_two Scenario.leaf_one).
  - vm_compute. split; discriminate.
  - vm_compute. discriminate.
  - vm_compute. discriminate.
Defined.

(** X22: splitting a leaf into an empty recipient with [MoveHalfTo] and
    merging the recipient back with [MoveAllTo] gives back the pairs and
    the size the leaf had; the recipient is empty again and the leaf takes
    over the recipient's next page id. *)
Theorem leaf_split_then_merge {KeyType ValueType : Type}
    (this recipient : @Leaf.LeafPage KeyType ValueType) :
  (0 ≤ Leaf.GetSize this ≤ Z.of_nat (length (Leaf.array this)))%Z →
  Leaf.GetSize recipient = 0%Z →
  (Leaf.GetSize this / 2 ≤ Z.of_nat (length (Leaf.array recipient)))%Z →
  ∃ this1 recipient1 recipient2 this2,
    Leaf.MoveHalfTo this recipient = Some (this1, recipient1) ∧
    Leaf.MoveAllTo recipient1 this1 = Some (recipient2, this2) ∧
    Leaf.entries this2 = Leaf.entries this ∧
    Leaf.GetSize this2 = Leaf.GetSize this ∧
    Leaf.GetSize recipient2 = 0%Z ∧
    Leaf.GetNextPageId this2 = Leaf.GetNextPageId recipient.
Proof.
  intros Hs Hr Hroom.
  destruct (leaf_MoveHalfTo_full this recipient)
    as (t1 & r1 & Hsplit & Ha1 & _ & Hs1 & He1 & Hl1 & Hn1 & Hsr1 & Her1); [lia..|].
  assert (Hh : (0 ≤ Leaf.GetSize this / 2 ≤ Leaf.GetSize this)%Z).
  { destruct Hs as [Hs _]. revert Hs. generalize (Leaf.GetSize this). intros s Hs.
    Z.to_euclidean_division_equations. lia. }
  destruct (leaf_MoveAllTo_spec r1 t1)
    as (r2 & t2 & Hmerge & He2 & Hs2 & _ & Hz & Hn2).
  { rewrite Hsr1, Hl1. lia. } { lia. } { rewrite Hs1, Hsr1, Ha1. lia. }
  exists t1, r1, r2, t2. do 2 (split; [done|]).
  split; [|split; [lia|split; [done|]]].
  - rewrite He2, He1, Her1. unfold Leaf.entries at 2. rewrite Hr. simpl.
    apply take_drop.
  - by rewrite Hn2.
Qed.

Lemma leaf_split_then_merge_witness :
  ∃ this1 recipient1 recipient2 this2,
    Leaf.MoveHalfTo Scenario.leaf_four Scenario.leaf_recipient = Some (this1, recipient1) ∧
    Leaf.MoveAllTo recipient1 this1 = Some (recipient2, this2) ∧
    Leaf.entries this2 = Leaf.entries Scenario.leaf_four ∧
    Leaf.GetSize this2 = Leaf.GetSize Scenario.leaf_four ∧
    Leaf.GetSize recipient2 = 0%Z ∧
    Leaf.GetNextPageId this2 = Leaf.GetNextPageId Scenario.leaf_recipient.
Proof.
  apply (leaf_split_then_merge Scenario.leaf_four Scenario.leaf_recipient).
  - vm_compute. split; discriminate.
  - vm_compute. reflexivity.
  - vm_compute. discriminate.
Defined.

(** X23: [MoveFirstToEndOf] on a leaf with at least one pair and a
    recipient with a free slot: the first pair goes to the end of the
    recipient and the rest stays, in order. *)
Theorem leaf_move_first_to_end_of {KeyType ValueType : Type}
    (this recipient : @Leaf.LeafPage KeyType ValueType) :
  (1 ≤ Leaf.GetSize this ≤ Z.of_nat (length (Leaf.array this)))%Z →
  (0 ≤ Leaf.GetSize recipient < Z.of_nat (length (Leaf.array recipient)))%Z →
  ∃ x rest this' recipient',
    Leaf.entries this = x :: rest ∧
    Leaf.MoveFirstToEndOf this recipient = Some (this', recipient') ∧
    Leaf.entries this' = rest ∧
    Leaf.entries recipient' = Leaf.entries recipient ++ [x] ∧
    Leaf.GetSize this' = (Leaf.GetSize this - 1)%Z ∧
    Leaf.GetSize recipient' = (Leaf.GetSize recipient + 1)%Z.
Proof.
  intros Hs Hr.
  destruct (Z_of_nat_complete (Leaf.GetSize this)) as [n Hn]; [lia|].
  destruct (Z_of_nat_complete (Leaf.GetSize recipient)) as [m Hm]; [lia|].
  destruct (lookup_lt_is_Some_2 (Leaf.array this) 0) as [x H0]; [lia|].
  destruct (leaf_InsertAt_spec recipient m m x Hm) as (r' & Hins & Hh & _ & _ & Hent);
    [lia|lia|].
  destruct (leaf_RemoveAt_spec this n 0 Hn) as (t' & Hrem & Hh' & _ & _ & Hent');
    [lia|lia|].
  assert (He : Leaf.entries this = x :: drop 1 (Leaf.entries this)).
  { unfold Leaf.entries. rewrite Hn, live_nat.
    destruct (Leaf.array this) as [|y a]; [done|]. simpl in H0. injection H0 as ->.
    destruct n; [lia|]. simpl. by rewrite drop_0. }
  exists x, (drop 1 (Leaf.entries this)), t', r'. split; [exact He|]. split.
  { unfold Leaf.MoveFirstToEndOf.
    rewrite (eq_trans (slot_at_nat (Leaf.array this) 0) H0
             : Tree.slot_at (Leaf.array this) 0 = Some x).
    simpl. rewrite Hm, Hins. simpl.
    by rewrite (Hrem : Leaf.RemoveAt 0 this = Some t'). }
  split; [by rewrite Hent'|]. split.
  { rewrite Hent. rewrite take_ge, drop_ge; [done|..];
      unfold Leaf.entries; rewrite Hm, live_nat, length_take; lia. }
  unfold Leaf.GetSize in *. rewrite Hh, Hh'. simpl. lia.
Qed.

Lemma leaf_move_first_to_end_of_witness :
  ∃ x rest this' recipient',
    Leaf.entries Scenario.leaf_two = x :: rest ∧
    Leaf.MoveFirstToEndOf Scenario.leaf_two Scenario.leaf_one = Some (this', recipient') ∧
    Leaf.entries this' = rest ∧
    Leaf.entries recipient' = Leaf.entries Scenario.leaf_one ++ [x] ∧
    Leaf.GetSize this' = (Leaf.GetSize Scenario.leaf_two - 1)%Z ∧
    Leaf.GetSize recipient' = (Leaf.GetSize Scenario.leaf_one + 1)%Z.
Proof.
  apply (leaf_move_first_to_end_of Scenario.leaf_two Scenario.leaf_one).
  - vm_compute. split; discriminate.
  - vm_compute. split; [discriminate|reflexivity].
Defined.

(** X24: [MoveLastToFrontOf] on a leaf with at least one pair and a
    recipient with a free slot: the last pair goes in front of the
    recipient's pairs and the rest stays, in order. *)
Theorem leaf_move_last_to_front_of {KeyType ValueType : Type}
    (this recipient : @Leaf.LeafPage KeyType ValueType) :
  (1 ≤ Leaf.GetSize this ≤ Z.of_nat (length (Leaf.array this)))%Z →
  (0 ≤ Leaf.GetSize recipient < Z.of_nat (length (Leaf.array recipient)))%Z →
  ∃ front x this' recipient',
    Leaf.entries this = front ++ [x] ∧
    Leaf.MoveLastToFrontOf this recipient = Some (this', recipient') ∧
    Leaf.entries this' = front ∧
    Leaf.entries recipient' = x :: Leaf.entries recipient ∧
    Leaf.GetSize this' = (Leaf.GetSize this - 1)%Z ∧
    Leaf.GetSize recipient' = (Leaf.GetSize recipient + 1)%Z.
Proof.
  intros Hs Hr.
  destruct (Z_of_nat_complete (Leaf.GetSize this - 1)) as [n Hn]; [lia|].
  assert (Hsn : Leaf.GetSize this = Z.of_nat (S n)) by lia.
  destruct (Z_of_nat_complete (Leaf.GetSize recipient)) as [m Hm]; [lia|].
  destruct (lookup_lt_is_Some_2 (Leaf.array this) n) as [x Hx]; [lia|].
  destruct (leaf_InsertAt_spec recipient m 0 x Hm) as (r' & Hins & Hh & _ & _ & Hent);
    [lia|lia|].
  destruct (leaf_RemoveAt_spec this (S n) n Hsn) as (t' & Hrem & Hh' & _ & _ & Hent');
    [lia|lia|].
  assert (He : Leaf.entries this = take n (Leaf.entries this) ++ [x]).
  { unfold Leaf.entries. rewrite Hsn, live_nat, take_take.
    replace (n `min` S n) with n by lia. by apply take_S_r. }
  exists (take n (Leaf.entries this)), x, t', r'. split; [exact He|]. split.
  { unfold Leaf.MoveLastToFrontOf. rewrite Hn, slot_at_nat, Hx. simpl.
    change 0%Z with (Z.of_nat 0). by rewrite Hins, Hrem. }
  split.
  { rewrite Hent'. rewrite drop_ge; [by rewrite app_nil_r|].
    unfold Leaf.entries. rewrite Hsn, live_nat, length_take. lia. }
  split; [by rewrite Hent, take_0, drop_0|].
  unfold Leaf.GetSize in *. rewrite Hh, Hh'. simpl. lia.
Qed.

Lemma leaf_move_last_to_front_of_witness :
  ∃ front x this' recipient',
    Leaf.entries Scenario.leaf_two = front ++ [x] ∧
    Leaf.MoveLastToFrontOf Scenario.leaf_two Scenario.leaf_one = Some (this', recipient') ∧
    Leaf.entries this' = front ∧
    Leaf.entries recipient' = x :: Leaf.entries Scenario.leaf_one ∧
    Leaf.GetSize this' = (Leaf.GetSize Scenario.leaf_two - 1)%Z ∧
    Leaf.GetSize recipient' = (Leaf.GetSize Scenario.leaf_one + 1)%Z.
Proof.
  apply (leaf_move_last_to_front_of Scenario.leaf_two Scenario.leaf_one).
  - vm_compute. split; discriminate.
  - vm_compute. split; [discriminate|reflexivity].
Defined.

(* ===================================================================== *)
(** * Further properties of the internal page *)
(* ===================================================================== *)

Section InternalMore.
Context {KeyType : Type}.
Import Tree Internal.
Implicit Types (p : @InternalPage KeyType) (b : @BPM.BufferPoolManager RawPage).

Lemma internal_entries_lookup p (n j : nat) :
  GetSize p = Z.of_nat n → j < n → entries p !! j = array p !! j.
Proof.
  intros Hn Hj. unfold entries. rewrite Hn, live_nat. by apply lookup_take_lt.
Qed.

Lemma internal_InsertAt_spec p (n i : nat) x :
  GetSize p = Z.of_nat n → i ≤ n → n < length (array p) →
  ∃ p', InsertAt (Z.of_nat i) x p = Some p' ∧
        header p' = IncreaseSize 1 (header p) ∧
        length (array p') = length (array p) ∧
        entries p' = take i (entries p) ++ x :: drop i (entries p).
Proof.
  intros Hn Hi Hlen. unfold InsertAt. rewrite Hn.
  destruct (insert_slot_spec (array p) n i x Hi Hlen) as (a' & -> & Hl & Ht).
  simpl. eexists. split; [done|]. simpl. do 2 (split; [done|]).
  unfold entries, GetSize in *. simpl. rewrite Hn.
  replace (Z.of_nat n + 1)%Z with (Z.of_nat (S n)) by lia.
  by rewrite !live_nat.
Qed.

Lemma internal_Remove_spec p (n i : nat) :
  GetSize p = Z.of_nat n → i < n → n ≤ length (array p) →
  ∃ p', Remove (Z.of_nat i) p = Some p' ∧
        header p' = IncreaseSize (-1) (header p) ∧
        length (array p') = length (array p) ∧
        entries p' = take i (entries p) ++ drop (S i) (entries p).
Proof.
  intros Hn Hi Hlen. unfold Remove. rewrite Hn.
  destruct (remove_slot_spec (array p) n i Hi Hlen) as (a' & -> & Hl & Ht).
  simpl. eexists. split; [done|]. simpl. do 2 (split; [done|]).
  unfold entries, GetSize in *. simpl. rewrite Hn.
  replace (Z.of_nat n + -1)%Z with (Z.of_nat (n - 1)) by lia.
  by rewrite !live_nat.
Qed.

Lemma internal_CopyNFrom_spec (items : list (KeyType * Z)) (off k : nat) p (n : nat) b :
  off + k ≤ length items → GetSize p = Z.of_nat n → n + k ≤ length (array p) →
  BPM.bpm_wf b → BPM.frame_available b →
  ∃ p' b', CopyNFrom items (Z.of_nat off) (Z.of_nat k) p b = Some (p', b') ∧
        header p' = SetSize (Z.of_nat (n + k)) (header p) ∧
        length (array p') = length (array p) ∧
        entries p' = entries p ++ take k (drop off items) ∧
        BPM.bpm_wf b' ∧ BPM.frame_available b' ∧
        ∀ q, stored_parent b' q =
             if decide (q ∈ (take k (drop off items)).*2)
             then Some (GetPageId p) else stored_parent b q.
Proof.
  intros Hitems Hn Hlen Hwf Hav. unfold CopyNFrom. rewrite Nat2Z.id.
  destruct (internal_CopyNFrom_loop_spec k k 0 (Z.of_nat k) items off p n b)
    as (p' & b' & Hp' & Hh & Hl & Ht & Hwf' & Hav' & Himg);
    [lia|lia|lia|done|lia|done|done|].
  rewrite Nat.add_0_r in Ht, Himg.
  exists p', b'. split; [exact Hp'|]. do 2 (split; [done|]).
  split; [|done].
  unfold entries, GetSize in *. rewrite Hh, Hn. simpl.
  by rewrite !live_nat, Ht.
Qed.

(** The loop of [ValueIndex] from slot [i], no earlier slot holding the
    value. *)
Lemma ValueIndex_loop_spec value p (n : nat) :
  GetSize p = Z.of_nat n → n ≤ length (array p) →
  ∀ fuel (i : nat), n - i ≤ fuel → i ≤ n →
  (∀ j kv, j < i → array p !! j = Some kv → snd kv ≠ value) →
  ∃ r, ValueIndex_loop fuel (Z.of_nat i) value p = Some r ∧
    ((r = (-1)%Z ∧ ∀ j kv, j < n → array p !! j = Some kv → snd kv ≠ value) ∨
     (∃ (m : nat) k, r = Z.of_nat m ∧ m < n ∧ array p !! m = Some (k, value) ∧
        ∀ j kv, j < m → array p !! j = Some kv → snd kv ≠ value)).
Proof.
  intros Hn Hlen. induction fuel as [|fuel IH]; intros i Hfuel Hi Hprev; simpl.
  - case_decide as Hc; [rewrite Hn in Hc; lia|].
    exists (-1)%Z. split; [done|]. left. split; [done|].
    intros j kv Hj. apply Hprev. lia.
  - case_decide as Hc.
    + rewrite Hn in Hc. unfold ValueAt. rewrite slot_at_nat.
      destruct (lookup_lt_is_Some_2 (array p) i) as [[k v] Hx]; [lia|].
      rewrite Hx. simpl. case_decide as Hv.
      * subst v. exists (Z.of_nat i). split; [done|]. right.
        exists i, k. split; [done|]. split; [lia|]. by split.
      * replace (Z.of_nat i + 1)%Z with (Z.of_nat (S i)) by lia.
        apply IH; [lia|lia|]. intros j kv Hj Hkv.
        destruct (decide (j = i)) as [->|Hne].
        -- rewrite Hx in Hkv. by injection Hkv as <-.
        -- apply (Hprev j); [lia|done].
    + rewrite Hn in Hc. exists (-1)%Z. split; [done|]. left. split; [done|].
      intros j kv Hj. apply Hprev. lia.
Qed.

Lemma ValueIndex_spec value p :
  (0 ≤ GetSize p ≤ Z.of_nat (length (array p)))%Z →
  ∃ r, ValueIndex value p = Some r ∧
    ((r = (-1)%Z ∧ ∀ kv, kv ∈ entries p → snd kv ≠ value) ∨
     (∃ (m : nat) k, r = Z.of_nat m ∧ entries p !! m = Some (k, value) ∧
        ∀ j kv, j < m → entries p !! j = Some kv → snd kv ≠ value)).
Proof.
  intros Hs.
  destruct (Z_of_nat_complete (GetSize p)) as [n Hn]; [lia|].
  destruct (ValueIndex_loop_spec value p n Hn) with (fuel := n) (i := 0)
    as (r & Hr & Hcases); [lia|lia|lia|intros j kv Hj; lia|].
  exists r. split.
  { unfold ValueIndex. rewrite Hn, Nat2Z.id. exact Hr. }
  destruct Hcases as [[-> Hno]|(m & k & -> & Hm & Hk & Hfirst)].
  - left. split; [done|]. intros kv Hkv.
    apply list_elem_of_lookup in Hkv as [j Hj].
    assert (Hjn : j < n).
    { apply lookup_lt_Some in Hj. unfold entries in Hj.
      rewrite Hn, live_nat, length_take in Hj. lia. }
    rewrite (internal_entries_lookup p n j Hn Hjn) in Hj. by apply (Hno j).
  - right. exists m, k. split; [done|].
    rewrite (internal_entries_lookup p n m Hn Hm). split; [done|].
    intros j kv Hj Hkv.
    rewrite (internal_entries_lookup p n j Hn) in Hkv by lia. by apply (Hfirst j).
Qed.

Lemma SetKeyAt_nat p (i : nat) k kv :
  array p !! i = Some kv →
  SetKeyAt (Z.of_nat i) k p = Some (mkInternal (header p) (<[i := (k, snd kv)]> (array p))).
Proof.
  intros Hi. unfold SetKeyAt. rewrite slot_at_nat, Hi. simpl.
  rewrite slot_store_nat by by eapply lookup_lt_Some. done.
Qed.

Lemma SetValueAt_nat p (i : nat) v kv :
  array p !! i = Some kv →
  SetValueAt (Z.of_nat i) v p = Some (mkInternal (header p) (<[i := (fst kv, v)]> (array p))).
Proof.
  intros Hi. unfold SetValueAt. rewrite slot_at_nat, Hi. simpl.
  rewrite slot_store_nat by by eapply lookup_lt_Some. done.
Qed.

End InternalMore.

(** X25: [ValueIndex] returns the first slot among the live ones whose
    child is the given value, and -1 when no live slot holds it. *)
Theorem internal_value_index {KeyType : Type}
    (p : @Internal.InternalPage KeyType) (value : page_id_t) :
  (0 ≤ Internal.GetSize p ≤ Z.of_nat (length (Internal.array p)))%Z →
  ∃ r, Internal.ValueIndex value p = Some r ∧
    ((r = (-1)%Z ∧ ∀ kv, kv ∈ Internal.entries p → snd kv ≠ value) ∨
     (∃ (m : nat) k, r = Z.of_nat m ∧ Internal.entries p !! m = Some (k, value) ∧
        ∀ j kv, j < m → Internal.entries p !! j = Some kv → snd kv ≠ value)).
Proof. apply ValueIndex_spec. Qed.

Lemma internal_value_index_witness :
  ∃ r, Internal.ValueIndex 101%Z Scenario.internal_three = Some r ∧
    ((r = (-1)%Z ∧ ∀ kv, kv ∈ Internal.entries Scenario.internal_three → snd kv ≠ 101%Z) ∨
     (∃ (m : nat) k, r = Z.of_nat m ∧
        Internal.entries Scenario.internal_three !! m = Some (k, 101%Z) ∧
        ∀ j kv, j < m → Internal.entries Scenario.internal_three !! j = Some kv →
                snd kv ≠ 101%Z)).
Proof.
  apply (internal_value_index Scenario.internal_three 101%Z).
  vm_compute. split; discriminate.
Defined.

(** X26: [InsertNodeAfter] puts the new pair right behind the first live
    slot whose child is [old_value] and returns the size grown by one; when
    no live slot holds [old_value], [ValueIndex] gives -1 and the new pair
    lands in slot 0, in front of every pair. *)
Theorem internal_insert_node_after {KeyType : Type}
    (p : @Internal.InternalPage KeyType) (old_value : page_id_t)
    (new_key : KeyType) (new_value : page_id_t) :
  (0 ≤ Internal.GetSize p < Z.of_nat (length (Internal.array p)))%Z →
  ∃ p', Internal.InsertNodeAfter old_value new_key new_value p
          = Some (p', (Internal.GetSize p + 1)%Z) ∧
    Internal.GetSize p' = (Internal.GetSize p + 1)%Z ∧
    (((∀ kv, kv ∈ Internal.entries p → snd kv ≠ old_value) ∧
      Internal.entries p' = (new_key, new_value) :: Internal.entries p) ∨
     (∃ (m : nat) k, Internal.entries p !! m = Some (k, old_value) ∧
        (∀ j kv, j < m → Internal.entries p !! j = Some kv → snd kv ≠ old_value) ∧
        Internal.entries p' =
          take (S m) (Internal.entries p) ++ (new_key, new_value)
            :: drop (S m) (Internal.entries p))).
Proof.
  intros Hs.
  destruct (Z_of_nat_complete (Internal.GetSize p)) as [n Hn]; [lia|].
  destruct (ValueIndex_spec old_value p) as (r & Hr & Hcases); [lia|].
  unfold Internal.InsertNodeAfter. rewrite Hr. simpl.
  destruct Hcases as [[-> Hno]|(m & k & -> & Hk & Hfirst)].
  - destruct (internal_InsertAt_spec p n 0 (new_key, new_value) Hn)
      as (p' & Hins & Hh & _ & Hent); [lia|lia|].
    change (-1 + 1)%Z with (Z.of_nat 0). rewrite Hins. simpl.
    assert (Hs' : Internal.GetSize p' = (Internal.GetSize p + 1)%Z).
    { unfold Internal.GetSize. by rewrite Hh. }
    exists p'. rewrite Hs'. split; [done|]. split; [done|]. left.
    split; [done|]. by rewrite Hent, take_0, drop_0.
  - assert (Hm : m < n).
    { apply lookup_lt_Some in Hk. unfold Internal.entries in Hk.
      rewrite Hn, live_nat, length_take in Hk. lia. }
    destruct (internal_InsertAt_spec p n (S m) (new_key, new_value) Hn)
      as (p' & Hins & Hh & _ & Hent); [lia|lia|].
    replace (Z.of_nat m + 1)%Z with (Z.of_nat (S m)) by lia. rewrite Hins. simpl.
    assert (Hs' : Internal.GetSize p' = (Internal.GetSize p + 1)%Z).
    { unfold Internal.GetSize. by rewrite Hh. }
    exists p'. rewrite Hs'. split; [done|]. split; [done|]. right.
    exists m, k. by split.
Qed.

Lemma internal_insert_node_after_witness :
  ∃ p', Internal.InsertNodeAfter 101%Z 15%Z 103%Z Scenario.internal_three
          = Some (p', (Internal.GetSize Scenario.internal_three + 1)%Z) ∧
    Internal.GetSize p' = (Internal.GetSize Scenario.internal_three + 1)%Z ∧
    (((∀ kv, kv ∈ Internal.entries Scenario.internal_three → snd kv ≠ 101%Z) ∧
      Internal.entries p' = (15%Z, 103%Z) :: Internal.entries Scenario.internal_three) ∨
     (∃ (m : nat) k, Internal.entries Scenario.internal_three !! m = Some (k, 101%Z) ∧
        (∀ j kv, j < m → Internal.entries Scenario.internal_three !! j = Some kv →
                 snd kv ≠ 101%Z) ∧
        Internal.entries p' =
          take (S m) (Internal.entries Scenario.internal_three) ++ (15%Z, 103%Z)
            :: drop (S m) (Internal.entries Scenario.internal_three))).
Proof.
  apply (internal_insert_node_after Scenario.internal_three 101%Z 15%Z 103%Z).
  vm_compute. split; [discriminate|reflexivity].
Defined.

(** X27: a root filled by [PopulateNewRoot(old_value, new_key, new_value)]
    has size 2 and the two children in that order, and under a three-way
    comparator [Lookup] sends every key below [new_key] to [old_value] and
    every other key to [new_value]. *)
Theorem internal_new_root_lookup {KeyType : Type}
    (comparator : KeyType → KeyType → Z) (rank : KeyType → Z)
    (p : @Internal.InternalPage KeyType)
    (old_value : page_id_t) (new_key : KeyType) (new_value : page_id_t) :
  Order.three_way comparator rank →
  2 ≤ length (Internal.array p) →
  ∃ p', Internal.PopulateNewRoot old_value new_key new_value p = Some p' ∧
    Internal.GetSize p' = 2%Z ∧
    (Internal.entries p').*2 = [old_value; new_value] ∧
    ∀ key, Internal.Lookup comparator key p' =
           Some (if decide (rank key < rank new_key)%Z then old_value else new_value).
Proof.
  intros Hcmp Hlen.
  destruct (Internal.array p) as [|x0 [|x1 rest]] eqn:Ha; simpl in Hlen; [lia|lia|].
  unfold Internal.PopulateNewRoot.
  rewrite (SetValueAt_nat _ 0 old_value x0) by (simpl; by rewrite Ha). simpl.
  rewrite Ha. simpl.
  rewrite (SetKeyAt_nat _ 1 new_key x1) by done. simpl.
  rewrite (SetValueAt_nat _ 1 new_value (new_key, snd x1)) by done. simpl.
  eexists. split; [done|]. split; [done|]. split; [done|].
  intros key. unfold Internal.Lookup. simpl. rewrite Hcmp.
  unfold IntegerComparator. case_decide as Hlt.
  - rewrite bool_decide_true by done. done.
  - rewrite bool_decide_false by (case_decide; discriminate). done.
Qed.

Lemma internal_new_root_lookup_witness :
  ∃ p', Internal.PopulateNewRoot 100%Z 10%Z 101%Z Scenario.internal_recipient = Some p' ∧
    Internal.GetSize p' = 2%Z ∧
    (Internal.entries p').*2 = [100%Z; 101%Z] ∧
    ∀ key, Internal.Lookup IntegerComparator key p' =
           Some (if decide (key < 10)%Z then 100%Z else 101%Z).
Proof.
  apply (internal_new_root_lookup IntegerComparator (λ k, k) Scenario.internal_recipient
           100%Z 10%Z 101%Z).
  - intros a b. reflexivity.
  - vm_compute. lia.
Defined.

(** X28: [MoveHalfTo] on an internal page: the last [size / 2] pairs go
    to the end of the recipient in their order, the others stay, and the
    stored parent page id of exactly the moved children becomes the
    recipient's page id.  The recipient is another page with room, and the
    buffer pool is well formed and has a frame to give. *)
Theorem internal_move_half_to {KeyType : Type}
    (this recipient : @Internal.InternalPage KeyType)
    (bpm : @BPM.BufferPoolManager Tree.RawPage) :
  (0 ≤ Internal.GetSize this ≤ Z.of_nat (length (Internal.array this)))%Z →
  (0 ≤ Internal.GetSize recipient)%Z →
  (Internal.GetSize recipient + Internal.GetSize this / 2
     ≤ Z.of_nat (length (Internal.array recipient)))%Z →
  BPM.bpm_wf bpm → BPM.frame_available bpm →
  ∃ this' recipient' bpm',
    Internal.MoveHalfTo this recipient bpm = Some (this', recipient', bpm') ∧
    Internal.entries this' =
      take (Z.to_nat (Internal.GetSize this - Internal.GetSize this / 2))
           (Internal.entries this) ∧
    Internal.entries recipient' =
      Internal.entries recipient ++
      drop (Z.to_nat (Internal.GetSize this - Internal.GetSize this / 2))
           (Internal.entries this) ∧
    ∀ c, Internal.stored_parent bpm' c =
         if decide (c ∈ (drop (Z.to_nat (Internal.GetSize this - Internal.GetSize this / 2))
                              (Internal.entries this)).*2)
         then Some (Internal.GetPageId recipient) else Internal.stored_parent bpm c.
Proof.
  intros Hs Hr Hroom Hwf Hav. unfold Internal.MoveHalfTo.
  rewrite Z.quot_div_nonneg by lia.
  set (s := Internal.GetSize this) in *. set (h := (s / 2)%Z) in *.
  assert (Hh : (0 ≤ h ≤ s)%Z).
  { subst h. clearbody s. Z.to_euclidean_division_equations. lia. }
  destruct (internal_CopyNFrom_spec (Internal.array this) (Z.to_nat (s - h)) (Z.to_nat h)
              recipient (Z.to_nat (Internal.GetSize recipient)) bpm)
    as (r' & b' & Hr' & Hhd & Hl & Hent & _ & _ & Himg); [lia|lia|lia|done|done|].
  rewrite !Z2Nat.id in Hr' by lia. rewrite Hr'. simpl.
  assert (Hdrop : take (Z.to_nat h) (drop (Z.to_nat (s - h)) (Internal.array this)) =
                  drop (Z.to_nat (s - h)) (Internal.entries this)).
  { unfold Internal.entries, Tree.live. fold s.
    rewrite take_drop_commute. do 2 f_equal. lia. }
  rewrite Hdrop in Hent, Himg.
  eexists _, r', b'. split; [done|]. split; [|by split].
  unfold Internal.entries, Tree.live, Internal.GetSize. simpl. fold s. fold h.
  unfold Internal.GetSize in s. fold s.
  rewrite take_take. f_equal. lia.
Qed.

Lemma internal_move_half_to_witness :
  ∃ this' recipient' bpm',
    Internal.MoveHalfTo Scenario.internal_three Scenario.internal_recipient Scenario.pool_raw
      = Some (this', recipient', bpm') ∧
    Internal.entries this' =
      take (Z.to_nat (Internal.GetSize Scenario.internal_three
                      - Internal.GetSize Scenario.internal_three / 2))
           (Internal.entries Scenario.internal_three) ∧
    Internal.entries recipient' =
      Internal.entries Scenario.internal_recipient ++
      drop (Z.to_nat (Internal.GetSize Scenario.internal_three
                      - Internal.GetSize Scenario.internal_three / 2))
           (Internal.entries Scenario.internal_three) ∧
    ∀ c, Internal.stored_parent bpm' c =
         if decide (c ∈ (drop (Z.to_nat (Internal.GetSize Scenario.internal_three
                                         - Internal.GetSize Scenario.internal_three / 2))
                              (Internal.entries Scenario.internal_three)).*2)
         then Some (Internal.GetPageId Scenario.internal_recipient)
         else Internal.stored_parent Scenario.pool_raw c.
Proof.
  apply (internal_move_half_to Scenario.internal_three Scenario.internal_recipient
           Scenario.pool_raw).
  - vm_compute. split; discriminate.
  - vm_compute. discriminate.
  - vm_compute. discriminate.
  - apply (FetchPage_wf Scenario.pool_five Scenario.pool_raw 6%Z (Some 1)).
    + apply (FetchPage_wf (BPM.init Tree.zeroed 3 Scenario.disk_raw)
               Scenario.pool_five 5%Z (Some 0)).
      * apply bpm_wf_init.
      * left. vm_compute. discriminate.
      * vm_compute. reflexivity.
    + left. vm_compute. discriminate.
    + vm_compute. reflexivity.
  - left. vm_compute. discriminate.
Defined.

(** X29: [MoveFirstToEndOf] on an internal page with at least one pair:
    the recipient gets [(middle_key, first child)] at its end, this page
    keeps its other pairs in order, and the stored parent page id of the
    moved child, and of no other page, becomes the recipient's page id. *)
Theorem internal_move_first_to_end_of {KeyType : Type}
    (this recipient : @Internal.InternalPage KeyType) (middle_key : KeyType)
    (bpm : @BPM.BufferPoolManager Tree.RawPage) :
  (1 ≤ Internal.GetSize this ≤ Z.of_nat (length (Internal.array this)))%Z →
  (0 ≤ Internal.GetSize recipient < Z.of_nat (length (Internal.array recipient)))%Z →
  BPM.bpm_wf bpm → BPM.frame_available bpm →
  ∃ key0 child0 rest this' recipient' bpm',
    Internal.entries this = (key0, child0) :: rest ∧
    Internal.MoveFirstToEndOf this recipient middle_key bpm
      = Some (this', recipient', bpm') ∧
    Internal.entries this' = rest ∧
    Internal.entries recipient' = Internal.entries recipient ++ [(middle_key, child0)] ∧
    ∀ c, Internal.stored_parent bpm' c =
         if decide (c = child0) then Some (Internal.GetPageId recipient)
         else Internal.stored_parent bpm c.
Proof.
  intros Hs Hr Hwf Hav.
  destruct (Z_of_nat_complete (Internal.GetSize this)) as [n Hn]; [lia|].
  destruct (Z_of_nat_complete (Internal.GetSize recipient)) as [m Hm]; [lia|].
  destruct (lookup_lt_is_Some_2 (Internal.array this) 0) as [[key0 child0] H0]; [lia|].
  destruct (SetParentToMe_spec (Internal.GetPageId recipient) child0 bpm Hwf Hav)
    as (b1 & Hset & _ & _ & Himg).
  destruct (internal_InsertAt_spec recipient m m (middle_key, child0) Hm)
    as (r' & Hins & _ & _ & Hent); [lia|lia|].
  destruct (internal_Remove_spec this n 0 Hn) as (t' & Hrem & _ & _ & Hent'); [lia|lia|].
  assert (He : Internal.entries this = (key0, child0) :: drop 1 (Internal.entries this)).
  { unfold Internal.entries. rewrite Hn, live_nat.
    destruct (Internal.array this) as [|y a]; [done|]. simpl in H0. injection H0 as ->.
    destruct n; [lia|]. simpl. by rewrite drop_0. }
  exists key0, child0, (drop 1 (Internal.entries this)), t', r', b1.
  split; [exact He|]. split.
  { unfold Internal.MoveFirstToEndOf, Internal.ValueAt, Internal.CopyLastFrom.
    rewrite (eq_trans (slot_at_nat (Internal.array this) 0) H0
             : Tree.slot_at (Internal.array this) 0 = Some (key0, child0)).
    simpl. rewrite Hset. simpl. rewrite Hm, Hins. simpl.
    by rewrite (Hrem : Internal.Remove 0 this = Some t'). }
  split; [by rewrite Hent'|]. split; [|done].
  rewrite Hent. rewrite take_ge, drop_ge; [done|..];
    unfold Internal.entries; rewrite Hm, live_nat, length_take; lia.
Qed.

Lemma internal_move_first_to_end_of_witness :
  ∃ key0 child0 rest this' recipient' bpm',
    Internal.entries Scenario.internal_three = (key0, child0) :: rest ∧
    Internal.MoveFirstToEndOf Scenario.internal_three Scenario.internal_recipient 7%Z
                              Scenario.pool_raw
      = Some (this', recipient', bpm') ∧
    Internal.entries this' = rest ∧
    Internal.entries recipient' =
      Internal.entries Scenario.internal_recipient ++ [(7%Z, child0)] ∧
    ∀ c, Internal.stored_parent bpm' c =
         if decide (c = child0) then Some (Internal.GetPageId Scenario.internal_recipient)
         else Internal.stored_parent Scenario.pool_raw c.
Proof.
  apply (internal_move_first_to_end_of Scenario.internal_three Scenario.internal_recipient
           7%Z Scenario.pool_raw).
  - vm_compute. split; discriminate.
  - vm_compute. split; [discriminate|reflexivity].
  - apply (FetchPage_wf Scenario.pool_five Scenario.pool_raw 6%Z (Some 1)).
    + apply (FetchPage_wf (BPM.init Tree.zeroed 3 Scenario.disk_raw)
               Scenario.pool_five 5%Z (Some 0)).
      * apply bpm_wf_init.
      * left. vm_compute. discriminate.
      * vm_compute. reflexivity.
    + left. vm_compute. discriminate.
    + vm_compute. reflexivity.
  - left. vm_compute. discriminate.
Defined.

(** X30: [MoveLastToFrontOf] on an internal page with at least one pair,
    the recipient holding at least one pair and a free slot: this page's
    last child goes to slot 0 of the recipient, [CopyFirstFrom] writes
    [middle_key] into slot 0 and into slot 1 (over the key of the
    recipient's former first pair, whose child stays), this page keeps its
    other pairs, and the stored parent page id of the moved child, and of
    no other page, becomes the recipient's page id. *)
Theorem internal_move_last_to_front_of {KeyType : Type}
    (this recipient : @Internal.InternalPage KeyType) (middle_key : KeyType)
    (bpm : @BPM.BufferPoolManager Tree.RawPage) :
  (1 ≤ Internal.GetSize this ≤ Z.of_nat (length (Internal.array this)))%Z →
  (1 ≤ Internal.GetSize recipient < Z.of_nat (length (Internal.array recipient)))%Z →
  BPM.bpm_wf bpm → BPM.frame_available bpm →
  ∃ front key_last child_last key0 child0 rest this' recipient' bpm',
    Internal.entries this = front ++ [(key_last, child_last)] ∧
    Internal.entries recipient = (key0, child0) :: rest ∧
    Internal.MoveLastToFrontOf this recipient middle_key bpm
      = Some (this', recipient', bpm') ∧
    Internal.entries this' = front ∧
    Internal.entries recipient' =
      (middle_key, child_last) :: (middle_key, child0) :: rest ∧
    ∀ c, Internal.stored_parent bpm' c =
         if decide (c = child_last) then Some (Internal.GetPageId recipient)
         else Internal.stored_parent bpm c.
Proof.
  intros Hs Hr Hwf Hav.
  destruct (Z_of_nat_complete (Internal.GetSize this - 1)) as [n Hn]; [lia|].
  assert (Hsn : Internal.GetSize this = Z.of_nat (S n)) by lia.
  destruct (Z_of_nat_complete (Internal.GetSize recipient)) as [m Hm]; [lia|].
  destruct (lookup_lt_is_Some_2 (Internal.array this) n) as [[kl cl] Hx]; [lia|].
  destruct (lookup_lt_is_Some_2 (Internal.array recipient) 0) as [[k0 c0] H0]; [lia|].
  destruct (SetParentToMe_spec (Internal.GetPageId recipient) cl bpm Hwf Hav)
    as (b1 & Hset & _ & _ & Himg).
  destruct (internal_InsertAt_spec recipient m 0 (middle_key, cl) Hm)
    as (r1 & Hins & Hh1 & Hl1 & Hent1); [lia|lia|].
  rewrite take_0, drop_0 in Hent1. simpl in Hent1.
  destruct (internal_Remove_spec this (S n) n Hsn) as (t' & Hrem & _ & _ & Hent');
    [lia|lia|].
  assert (He : Internal.entries this = take n (Internal.entries this) ++ [(kl, cl)]).
  { unfold Internal.entries. rewrite Hsn, live_nat, take_take.
    replace (n `min` S n) with n by lia. by apply take_S_r. }
  assert (Her : Internal.entries recipient = (k0, c0) :: drop 1 (Internal.entries recipient)).
  { unfold Internal.entries. rewrite Hm, live_nat.
    destruct (Internal.array recipient) as [|y a]; [done|]. simpl in H0. injection H0 as ->.
    destruct m; [lia|]. simpl. by rewrite drop_0. }
  assert (Hs1 : Internal.GetSize r1 = Z.of_nat (S m)).
  { unfold Internal.GetSize in *. rewrite Hh1. simpl. lia. }
  assert (H1 : Internal.array r1 !! 1 = Some (k0, c0)).
  { rewrite <- (internal_entries_lookup r1 (S m) 1 Hs1) by lia.
    rewrite Hent1, Her. done. }
  exists (take n (Internal.entries this)), kl, cl, k0, c0,
    (drop 1 (Internal.entries recipient)), t'.
  eexists _, b1. split; [exact He|]. split; [exact Her|]. split.
  { unfold Internal.MoveLastToFrontOf, Internal.ValueAt, Internal.CopyFirstFrom.
    rewrite Hn, slot_at_nat, Hx. simpl.
    rewrite (Hins : Internal.InsertAt 0 (middle_key, cl) recipient = Some r1). simpl.
    rewrite (SetKeyAt_nat r1 1 middle_key (k0, c0) H1
             : Internal.SetKeyAt 1 middle_key r1 = _). simpl.
    rewrite Hset. simpl. by rewrite Hrem. }
  split.
  { rewrite Hent'. rewrite drop_ge; [by rewrite app_nil_r|].
    unfold Internal.entries. rewrite Hsn, live_nat, length_take. lia. }
  split; [|done].
  assert (Ht1 : take (S m) (Internal.array r1)
                = (middle_key, cl) :: Internal.entries recipient).
  { rewrite <- Hent1. unfold Internal.entries. by rewrite Hs1, live_nat. }
  revert Her. generalize (drop 1 (Internal.entries recipient)). intros rr Her.
  unfold Internal.entries at 1, Internal.GetSize. simpl. fold (Internal.GetSize r1).
  rewrite Hs1, live_nat, take_insert_lt by lia.
  rewrite Ht1, Her. done.
Qed.

Lemma internal_move_last_to_front_of_witness :
  ∃ front key_last child_last key0 child0 rest this' recipient' bpm',
    Internal.entries Scenario.internal_three = front ++ [(key_last, child_last)] ∧
    Internal.entries Scenario.internal_recipient = (key0, child0) :: rest ∧
    Internal.MoveLastToFrontOf Scenario.internal_three Scenario.internal_recipient 7%Z
                               Scenario.pool_raw
      = Some (this', recipient', bpm') ∧
    Internal.entries this' = front ∧
    Internal.entries recipient' = (7%Z, child_last) :: (7%Z, child0) :: rest ∧
    ∀ c, Internal.stored_parent bpm' c =
         if decide (c = child_last) then Some (Internal.GetPageId Scenario.internal_recipient)
         else Internal.stored_parent Scenario.pool_raw c.
Proof.
  apply (internal_move_last_to_front_of Scenario.internal_three Scenario.internal_recipient
           7%Z Scenario.pool_raw).
  - vm_compute. split; discriminate.
  - vm_compute. split; [discriminate|reflexivity].
  - apply (FetchPage_wf Scenario.pool_five Scenario.pool_raw 6%Z (Some 1)).
    + apply (FetchPage_wf (BPM.init Tree.zeroed 3 Scenario.disk_raw)
               Scenario.pool_five 5%Z (Some 0)).
      * apply bpm_wf_init.
      * left. vm_compute. discriminate.
      * vm_compute. reflexivity.
    + left. vm_compute. discriminate.
    + vm_compute. reflexivity.
  - left. vm_compute. discriminate.
Defined.

(* ===================================================================== *)
(** * Resource exhaustion: when no frame can be obtained *)
(* ===================================================================== *)

Section BPMAccounted.
Context {Data : Type}.
Variable zeroed : Data.
Import LRU Disk BPM.
Implicit Types (b : @BufferPoolManager Data).

Lemma erase_first_other f g l : g ≠ f → g ∈ l → g ∈ erase_first f l.
Proof.
  intros Hne. induction l as [|x l IH]; simpl; [done|].
  intros Hg. apply elem_of_cons in Hg as [->|Hg].
  - case_decide; [done|left].
  - case_decide; [done|right; auto].
Qed.

Lemma Victim_None r : snd (Victim r) = None ↔ buffer r = [].
Proof.
  destruct r as [c l]. destruct (snoc_inv l) as [->|(l' & x & ->)]; simpl.
  - done.
  - rewrite Victim_snoc. simpl. split; [done|]. by destruct l'.
Qed.

(** An unpinned frame that is not yet in the replacer finds room in it. *)
Lemma replacer_has_room b f pg :
  bpm_inv b → pages_ b !! f = Some pg → f ∉ buffer (replacer_ b) →
  length (buffer (replacer_ b)) < capacity (replacer_ b).
Proof.
  intros Hinv Hpg Hnot.
  rewrite (inv_capacity b Hinv), <- (inv_pool b Hinv).
  change (length (f :: buffer (replacer_ b)) ≤ length (pages_ b)).
  apply frames_bounded.
  - constructor; [done|apply Hinv].
  - intros g Hg. apply elem_of_cons in Hg as [->|Hg]; [by eapply lookup_lt_Some|].
    destruct (inv_replacer_unpinned b Hinv g Hg) as (pg0 & Hg' & _).
    by eapply lookup_lt_Some.
Qed.

Lemma accounted_init n d : bpm_accounted (init zeroed n d).
Proof.
  split; simpl.
  - intros f page Hf. left. apply lookup_replicate in Hf as [_ Hf].
    apply elem_of_seq. lia.
  - intros f page _ Hf. apply lookup_replicate in Hf as [-> _]. simpl. lia.
Qed.

(** A frame that stays off the free list is rewritten in place: the hit
    path of [FetchPageImpl], [UnpinPageImpl] and [FlushPageImpl]. *)
Lemma accounted_update b f pg' table' repl' disk' :
  bpm_accounted b → f ∉ free_list_ b →
  (∀ g, g ≠ f → g ∈ buffer (replacer_ b) → g ∈ buffer repl') →
  (f ∈ buffer repl' ∨ (0 < pin_count_ pg')%Z) →
  bpm_accounted (mkBPM (pool_size_ b) (<[f := pg']> (pages_ b)) table'
                       (free_list_ b) repl' disk').
Proof.
  intros [Ha Hb] Hfree Hsub Hf. split; simpl.
  - intros g page Hg. destruct (decide (g = f)) as [->|Hne].
    + assert (Hlt : f < length (pages_ b)).
      { apply lookup_lt_Some in Hg. by rewrite length_insert in Hg. }
      rewrite list_lookup_insert_eq in Hg by done. injection Hg as <-.
      destruct Hf; auto.
    + rewrite list_lookup_insert_ne in Hg by done.
      destruct (Ha g page Hg) as [?|[?|?]]; auto.
  - intros g page Hgf Hg. assert (Hne : g ≠ f) by (intros ->; done).
    rewrite list_lookup_insert_ne in Hg by done. eauto.
Qed.

(** A frame taken from the free list or from the replacer is pinned for a
    new page: the miss paths of [FetchPageImpl], and [NewPageImpl]. *)
Lemma accounted_install b f pg' table' free' repl' disk' :
  bpm_accounted b →
  (∀ g, g ≠ f → g ∈ free_list_ b → g ∈ free') →
  (∀ g, g ∈ free' → g ∈ free_list_ b ∧ g ≠ f) →
  (∀ g, g ≠ f → g ∈ buffer (replacer_ b) → g ∈ buffer repl') →
  (0 < pin_count_ pg')%Z →
  bpm_accounted (mkBPM (pool_size_ b) (<[f := pg']> (pages_ b)) table'
                       free' repl' disk').
Proof.
  intros [Ha Hb] Hfree Hfree' Hsub Hpin. split; simpl.
  - intros g page Hg. destruct (decide (g = f)) as [->|Hne].
    + assert (Hlt : f < length (pages_ b)).
      { apply lookup_lt_Some in Hg. by rewrite length_insert in Hg. }
      rewrite list_lookup_insert_eq in Hg by done. injection Hg as <-. auto.
    + rewrite list_lookup_insert_ne in Hg by done.
      destruct (Ha g page Hg) as [?|[?|?]]; auto.
  - intros g page Hgf Hg. destruct (Hfree' g Hgf) as [Hold Hne].
    rewrite list_lookup_insert_ne in Hg by done. eauto.
Qed.

(** An unpinned frame is reset and goes to the back of the free list:
    [DeletePageImpl]. *)
Lemma accounted_delete b f pg' table' disk' :
  bpm_accounted b → (pin_count_ pg' ≤ 0)%Z →
  bpm_accounted (mkBPM (pool_size_ b) (<[f := pg']> (pages_ b)) table'
                       (free_list_ b ++ [f]) (Pin f (replacer_ b)) disk').
Proof.
  intros [Ha Hb] Hpin. split; simpl.
  - intros g page Hg. destruct (decide (g = f)) as [->|Hne].
    + left. apply elem_of_app. right. left.
    + rewrite list_lookup_insert_ne in Hg by done.
      destruct (Ha g page Hg) as [?|[?|?]]; [|right; left|auto].
      * left. apply elem_of_app. by left.
      * by apply erase_first_other.
  - intros g page Hgf Hg. destruct (decide (g = f)) as [->|Hne].
    + assert (Hlt : f < length (pages_ b)).
      { apply lookup_lt_Some in Hg. by rewrite length_insert in Hg. }
      rewrite list_lookup_insert_eq in Hg by done. by injection Hg as <-.
    + rewrite list_lookup_insert_ne in Hg by done.
      apply elem_of_app in Hgf as [Hgf|Hgf]; [eauto|].
      by apply list_elem_of_singleton in Hgf.
Qed.

Lemma FetchPage_accounted p b b' r :
  bpm_inv b → bpm_accounted b → FetchPage p b = Some (b', r) → bpm_accounted b'.
Proof.
  intros Hinv Hacc. unfold FetchPage, FetchPageImpl.
  destruct (page_table_ b !! p) as [f|] eqn:Hp.
  - destruct (pages_ b !! f) as [pg|] eqn:Hpg; simpl; [|done].
    intros [= <- <-].
    assert (Hfree : f ∉ free_list_ b) by by eapply (inv_table_free b Hinv).
    apply accounted_update; [done|done|..].
    + intros g Hne Hg. by apply erase_first_other.
    + right. simpl.
      destruct (acc_frames b Hacc f pg Hpg) as [?|[Hrepl|?]]; [done| |lia].
      destruct (inv_replacer_unpinned b Hinv f Hrepl) as (pg0 & Hpg0 & Hz).
      rewrite Hpg in Hpg0. injection Hpg0 as <-. lia.
  - destruct (free_list_ b) as [|f rest] eqn:Hfree.
    + destruct (Victim (replacer_ b)) as [repl' [f|]] eqn:Hv; [|by intros [= <- <-]].
      destruct (pages_ b !! f) as [pg|] eqn:Hpg; simpl; [|done].
      intros [= <- <-].
      apply Victim_Some in Hv as [Hbuf _].
      rewrite <- Hfree. apply accounted_install; [done|done|..].
      * intros g Hg. rewrite Hfree in Hg. inversion Hg.
      * intros g Hne Hg. rewrite Hbuf in Hg.
        apply elem_of_app in Hg as [Hg|Hg]; [done|].
        by apply list_elem_of_singleton in Hg.
      * simpl. lia.
    + destruct (pages_ b !! f) as [pg|] eqn:Hpg; simpl; [|done].
      intros [= <- <-].
      pose proof (inv_free_nodup b Hinv) as Hnd. rewrite Hfree in Hnd.
      apply NoDup_cons in Hnd as [Hf Hnd].
      apply accounted_install; [done|..].
      * intros g Hne Hg. rewrite Hfree in Hg.
        by apply elem_of_cons in Hg as [->|Hg].
      * intros g Hg. rewrite Hfree. split; [by right|]. by intros ->.
      * done.
      * simpl. lia.
Qed.

Lemma UnpinPage_accounted p d b b' r :
  bpm_inv b → bpm_accounted b → UnpinPage p d b = Some (b', r) → bpm_accounted b'.
Proof.
  intros Hinv Hacc. unfold UnpinPage, UnpinPageImpl.
  destruct (page_table_ b !! p) as [f|] eqn:Hp; [|by intros [= <- <-]].
  destruct (pages_ b !! f) as [pg|] eqn:Hpg; simpl; [|done].
  case_decide as Hpin; [by intros [= <- <-]|].
  intros [= <- <-].
  assert (Hfree : f ∉ free_list_ b) by by eapply (inv_table_free b Hinv).
  assert (Hnot : f ∉ buffer (replacer_ b)).
  { eapply pinned_not_evictable; [done|exact Hpg|lia]. }
  apply accounted_update; [done|done|..].
  - intros g Hne Hg. case_decide; [|done].
    rewrite Unpin_fresh by (done || by eapply replacer_has_room). simpl. by right.
  - simpl. case_decide as Hz; [left|right; lia].
    rewrite Unpin_fresh by (done || by eapply replacer_has_room). simpl. left.
Qed.

Lemma FlushPage_accounted p b b' r :
  bpm_inv b → bpm_accounted b → FlushPage p b = Some (b', r) → bpm_accounted b'.
Proof.
  intros Hinv Hacc. unfold FlushPage, FlushPageImpl.
  destruct (page_table_ b !! p) as [f|] eqn:Hp; [|by intros [= <- <-]].
  destruct (pages_ b !! f) as [pg|] eqn:Hpg; simpl; [|done].
  intros [= <- <-].
  assert (Hfree : f ∉ free_list_ b) by by eapply (inv_table_free b Hinv).
  apply accounted_update; [done|done|done|]. simpl.
  destruct (acc_frames b Hacc f pg Hpg) as [?|[?|?]]; [done|by left|by right].
Qed.

Lemma NewPage_accounted out b b' out' r :
  bpm_inv b → bpm_accounted b → NewPage zeroed out b = Some (b', out', r) →
  bpm_accounted b'.
Proof.
  intros Hinv Hacc. unfold NewPage, NewPageImpl, install_new_page.
  destruct (free_list_ b) as [|f rest] eqn:Hfree.
  - destruct (Victim (replacer_ b)) as [repl' [f|]] eqn:Hv; [|by intros [= <- <- <-]].
    destruct (pages_ b !! f) as [pg|] eqn:Hpg; simpl; [|done].
    intros [= <- <- <-].
    apply Victim_Some in Hv as [Hbuf _].
    rewrite <- Hfree. apply accounted_install; [done|done|..].
    + intros g Hg. rewrite Hfree in Hg. inversion Hg.
    + intros g Hne Hg. rewrite Hbuf in Hg.
      apply elem_of_app in Hg as [Hg|Hg]; [done|].
      by apply list_elem_of_singleton in Hg.
    + simpl. lia.
  - destruct (pages_ b !! f) as [pg|] eqn:Hpg; simpl; [|done].
    intros [= <- <- <-].
    pose proof (inv_free_nodup b Hinv) as Hnd. rewrite Hfree in Hnd.
    apply NoDup_cons in Hnd as [Hf Hnd].
    apply accounted_install; [done|..].
    + intros g Hne Hg. rewrite Hfree in Hg.
      by apply elem_of_cons in Hg as [->|Hg].
    + intros g Hg. rewrite Hfree. split; [by right|]. by intros ->.
    + done.
    + simpl. lia.
Qed.

Lemma DeletePage_accounted p b b' r :
  bpm_inv b → bpm_accounted b → DeletePage zeroed p b = Some (b', r) →
  bpm_accounted b'.
Proof.
  intros Hinv Hacc. unfold DeletePage, DeletePageImpl.
  destruct (page_table_ b !! p) as [f|] eqn:Hp; [|by intros [= <- <-]].
  destruct (pages_ b !! f) as [pg|] eqn:Hpg; simpl; [|done].
  case_decide as Hpin; [by intros [= <- <-]|].
  intros [= <- <-]. apply accounted_delete; [done|]. simpl. lia.
Qed.

Lemma step_accounted op b b' :
  bpm_inv b → bpm_accounted b → step zeroed op b = Some b' → bpm_accounted b'.
Proof.
  intros Hinv Hacc. destruct op as [p|p d|out|p|p]; simpl; intros Hs;
    apply fmap_Some in Hs as (r & Hr & ->).
  - destruct r. by eapply FetchPage_accounted.
  - destruct r. by eapply UnpinPage_accounted.
  - destruct r as [[? ?] ?]. by eapply NewPage_accounted.
  - destruct r. by eapply DeletePage_accounted.
  - destruct r. by eapply FlushPage_accounted.
Qed.

Lemma reachable_accounted n d b : reachable zeroed n d b → bpm_accounted b.
Proof.
  induction 1 as [|b op b' Hr IH Hs].
  - apply accounted_init.
  - eapply step_accounted; [|done|done]. by eapply reachable_inv.
Qed.

Lemma in_range_reachable n d b : reachable_in_range zeroed n d b → reachable zeroed n d b.
Proof.
  induction 1 as [|b op b' _ IH Hs _]; [constructor|]. by eapply reachable_step.
Qed.

(** No frame is obtainable exactly when every frame is pinned. *)
Lemma exhausted_iff_pinned b :
  bpm_inv b → bpm_accounted b →
  (free_list_ b = [] ∧ snd (Victim (replacer_ b)) = None) ↔ every_frame_pinned b.
Proof.
  intros Hinv Hacc. rewrite Victim_None. split.
  - intros [Hfree Hrepl] f page Hf.
    destruct (acc_frames b Hacc f page Hf) as [Hin|[Hin|?]]; [| |done].
    + rewrite Hfree in Hin. inversion Hin.
    + rewrite Hrepl in Hin. inversion Hin.
  - intros Hall. split.
    + destruct (free_list_ b) as [|f rest] eqn:Hfree; [done|]. exfalso.
      assert (Hf : f ∈ free_list_ b) by (rewrite Hfree; left).
      destruct (lookup_lt_is_Some_2 (pages_ b) f) as [page Hpage];
        [by apply (inv_free_range b Hinv)|].
      pose proof (acc_free b Hacc f page Hf Hpage).
      pose proof (Hall f page Hpage). lia.
    + destruct (buffer (replacer_ b)) as [|f rest] eqn:Hbuf; [done|]. exfalso.
      destruct (inv_replacer_unpinned b Hinv f) as (page & Hpage & Hz);
        [rewrite Hbuf; left|].
      pose proof (Hall f page Hpage). lia.
Qed.

(** [NewPage] returns, and returns null exactly in the branch with an
    empty free list and no victim. *)
Lemma NewPage_null_cases out b :
  bpm_inv b →
  ∃ b' out' r, NewPage zeroed out b = Some (b', out', r) ∧
    (r = None ↔ free_list_ b = [] ∧ snd (Victim (replacer_ b)) = None).
Proof.
  intros Hinv. unfold NewPage, NewPageImpl, install_new_page.
  destruct (free_list_ b) as [|f rest] eqn:Hfree.
  - destruct (Victim (replacer_ b)) as [repl' [f|]] eqn:Hv; simpl.
    + destruct (inv_replacer_unpinned b Hinv f) as (pg & Hpg & _).
      { apply Victim_Some in Hv as [Hbuf _]. rewrite Hbuf.
        apply elem_of_app. right. left. }
      rewrite Hpg. simpl. eexists _, _, _. split; [done|].
      split; [done|]. by intros [_ ?].
    + eexists _, _, _. split; [done|]. done.
  - destruct (lookup_lt_is_Some_2 (pages_ b) f) as [pg Hpg].
    { apply (inv_free_range b Hinv). rewrite Hfree. left. }
    rewrite Hpg. simpl. eexists _, _, _. split; [done|].
    split; [done|]. by intros [? _].
Qed.

(** The same for [FetchPage] of a page that is not cached. *)
Lemma FetchPage_null_cases p b :
  bpm_inv b → page_table_ b !! p = None →
  ∃ b' r, FetchPage p b = Some (b', r) ∧
    (r = None ↔ free_list_ b = [] ∧ snd (Victim (replacer_ b)) = None).
Proof.
  intros Hinv Hp. unfold FetchPage, FetchPageImpl. rewrite Hp.
  destruct (free_list_ b) as [|f rest] eqn:Hfree.
  - destruct (Victim (replacer_ b)) as [repl' [f|]] eqn:Hv; simpl.
    + destruct (inv_replacer_unpinned b Hinv f) as (pg & Hpg & _).
      { apply Victim_Some in Hv as [Hbuf _]. rewrite Hbuf.
        apply elem_of_app. right. left. }
      rewrite Hpg. simpl. eexists _, _. split; [done|].
      split; [done|]. by intros [_ ?].
    + eexists _, _. split; [done|]. done.
  - destruct (lookup_lt_is_Some_2 (pages_ b) f) as [pg Hpg].
    { apply (inv_free_range b Hinv). rewrite Hfree. left. }
    rewrite Hpg. simpl. eexists _, _. split; [done|].
    split; [done|]. by intros [? _].
Qed.

End BPMAccounted.

(** C7: in every state of a run on which no pin count overflows, the
    free list is empty and the replacer yields no victim exactly when
    every frame is pinned; [NewPage], and [FetchPage] for a page id that
    is not cached, return, and return null exactly in that case.  With a
    pool of 3 frames and no unpins, three consecutive [NewPage] calls each
    return a frame pinned with pin count 1 and a fourth returns null. *)
Theorem new_page_null_iff {Data : Type} (zeroed : Data) :
  (∀ pool_size disk (b : @BPM.BufferPoolManager Data),
     BPM.reachable_in_range zeroed pool_size disk b →
     ((BPM.free_list_ b = [] ∧ snd (LRU.Victim (BPM.replacer_ b)) = None)
        ↔ BPM.every_frame_pinned b) ∧
     (∀ out, ∃ b' out' r, BPM.NewPage zeroed out b = Some (b', out', r) ∧
        (r = None ↔ BPM.every_frame_pinned b)) ∧
     (∀ p, BPM.page_table_ b !! p = None →
        ∃ b' r, BPM.FetchPage p b = Some (b', r) ∧
          (r = None ↔ BPM.every_frame_pinned b))) ∧
  (∀ disk out, ∃ b1 p0 f0 b2 p1 f1 b3 p2 f2,
     BPM.NewPage zeroed out (BPM.init zeroed 3 disk) = Some (b1, p0, Some f0) ∧
     BPM.pin_count_ <$> BPM.pages_ b1 !! f0 = Some 1%Z ∧
     BPM.NewPage zeroed p0 b1 = Some (b2, p1, Some f1) ∧
     BPM.pin_count_ <$> BPM.pages_ b2 !! f1 = Some 1%Z ∧
     BPM.NewPage zeroed p1 b2 = Some (b3, p2, Some f2) ∧
     BPM.pin_count_ <$> BPM.pages_ b3 !! f2 = Some 1%Z ∧
     BPM.NewPage zeroed p2 b3 = Some (b3, p2, None)).
Proof.
  split.
  - intros pool_size disk b Hr.
    apply in_range_reachable in Hr.
    pose proof (reachable_inv zeroed _ _ _ Hr) as Hinv.
    pose proof (reachable_accounted zeroed _ _ _ Hr) as Hacc.
    pose proof (exhausted_iff_pinned b Hinv Hacc) as Hiff.
    split; [exact Hiff|]. split.
    + intros out.
      destruct (NewPage_null_cases zeroed out b Hinv) as (b' & out' & r & Hnew & Hnull).
      exists b', out', r. split; [done|]. by rewrite Hnull.
    + intros p Hp.
      destruct (FetchPage_null_cases p b Hinv Hp) as (b' & r & Hfetch & Hnull).
      exists b', r. split; [done|]. by rewrite Hnull.
  - intros disk out. do 9 eexists.
    repeat split; reflexivity.
Qed.

Lemma new_page_null_iff_witness :
  ((BPM.free_list_ Scenario.all_pinned = [] ∧
    snd (LRU.Victim (BPM.replacer_ Scenario.all_pinned)) = None)
     ↔ BPM.every_frame_pinned Scenario.all_pinned) ∧
  (∀ out, ∃ b' out' r, BPM.NewPage tt out Scenario.all_pinned = Some (b', out', r) ∧
     (r = None ↔ BPM.every_frame_pinned Scenario.all_pinned)) ∧
  (∀ p, BPM.page_table_ Scenario.all_pinned !! p = None →
     ∃ b' r, BPM.FetchPage p Scenario.all_pinned = Some (b', r) ∧
       (r = None ↔ BPM.every_frame_pinned Scenario.all_pinned)).
Proof.
  apply (proj1 (new_page_null_iff tt) 1 Scenario.disk0 Scenario.all_pinned).
  apply (BPM.in_range_step tt 1 Scenario.disk0 (BPM.init tt 1 Scenario.disk0)
           (BPM.OpNewPage 0%Z)).
  - apply BPM.in_range_init.
  - vm_compute. reflexivity.
  - unfold BPM.pins_in_range. apply (bool_decide_unpack _). vm_compute. exact I.
Defined.
